(** * The PTY-backed interactive terminal overlay
    (packages/coding-agent/src/tools/run-interactive-term.ts)

    A shallow embedding of the overlay component, the ANSI row renderer and
    the session orchestrator of [RunInteractiveTermTool.execute], together
    with the properties the specification states about them.

    Conventions.
    - JavaScript numbers that the code uses as integers are [Z].
    - A JavaScript string is a [text]: the list of its code points.  The
      white-space tests of the source ([\s] under the [u] flag and
      [String.prototype.trim]) only involve code points of the basic plane,
      so they read the same on code points and on UTF-16 code units.
    - The callbacks of [execute] run one at a time on a single event loop;
      a run of a session is a list of [Event]s applied in order by [step]. *)

From Stdlib Require Import String Ascii DecimalString.
From Stdlib Require Import List ZArith NArith Lia Bool.
Import ListNotations.
Local Open Scope Z_scope.

Set Implicit Arguments.

(** ** Text *)

Definition char := N.
Definition text := list char.

(** A string literal of the source, as a [text] (ASCII literals only). *)
Definition str (s : string) : text := map N_of_ascii (list_ascii_of_string s).
Arguments str s%_string.

(** [WhiteSpace] and [LineTerminator] of ECMAScript: what [\s] matches and
    what [trim] removes. *)
Definition is_space (c : char) : bool :=
  ((9 <=? c) && (c <=? 13) ||
   (c =? 32) || (c =? 160) || (c =? 5760) ||
   (8192 <=? c) && (c <=? 8202) ||
   (c =? 8232) || (c =? 8233) || (c =? 8239) || (c =? 8287) ||
   (c =? 12288) || (c =? 65279))%N.

(** [l.trim().length === 0] *)
Definition is_blank (l : text) : bool := forallb is_space l.

Fixpoint drop_spaces (l : text) : text :=
  match l with
  | c :: l' => if is_space c then drop_spaces l' else l
  | [] => []
  end.

(** [l.replace(/\s+$/u, "")] *)
Definition rstrip (l : text) : text := rev (drop_spaces (rev l)).

Definition NL : char := 10%N.

(** [lines.join("\n")] *)
Fixpoint join_lines (ls : list text) : text :=
  match ls with
  | [] => []
  | [l] => l
  | l :: ls' => l ++ NL :: join_lines ls'
  end.

(** [" ".repeat(n)] *)
Definition spaces (n : Z) : text := repeat 32%N (Z.to_nat n).

(** [while (ls.length > 0 && ls[0]?.trim().length === 0) ls.shift()] *)
Fixpoint shift_blank (ls : list text) : list text :=
  match ls with
  | l :: ls' => if is_blank l then shift_blank ls' else ls
  | [] => []
  end.

(** [while (ls.length > 0 && ls[ls.length - 1]?.trim().length === 0) ls.pop()] *)
Definition pop_blank (ls : list text) : list text := rev (shift_blank (rev ls)).

Definition trim_blank_lines (ls : list text) : list text :=
  pop_blank (shift_blank ls).

(** [ls.slice(-n)] for [n > 0]. *)
Definition slice_last (n : Z) (ls : list text) : list text :=
  skipn (length ls - Z.to_nat n) ls.

(** The values [lo, lo+1, ..., hi-1] of a counting [for] loop. *)
Definition for_range (lo hi : Z) : list Z :=
  map (fun i => lo + Z.of_nat i) (seq 0 (Z.to_nat (hi - lo))).

(** Number of bytes of the UTF-8 encoding, [Buffer.byteLength(s, "utf-8")]. *)
Definition utf8_size (c : char) : Z :=
  if (c <? 128)%N then 1 else if (c <? 2048)%N then 2
  else if (c <? 65536)%N then 3 else 4.

Definition byteLength (s : text) : Z :=
  fold_right (fun c n => utf8_size c + n) 0 s.

(** ** Constants of the tool *)

Definition MAX_TIMEOUT_SECONDS : Z := 3600.
Definition SCROLLBACK_MAX_LINES : Z := 2000.
Definition SCREEN_SNAPSHOT_MAX_LINES : Z := 200.
Definition SCREEN_SNAPSHOT_MAX_BYTES : Z := 40 * 1024.

(** ** Tail truncation ([truncateTail] of tools/truncate.ts) *)

Record TruncateOptions := {
  maxLines : option Z;
  maxBytes : option Z
}.

Record TruncationResult := {
  content : text;
  truncated : bool
}.

(** Walking a text backwards, keep code points while their encoding fits the
    remaining byte budget. *)
Fixpoint keep_bytes (budget : Z) (rs : text) : text :=
  match rs with
  | [] => []
  | c :: rs' =>
      if utf8_size c <=? budget then c :: keep_bytes (budget - utf8_size c) rs'
      else []
  end.

(** Walking a text backwards, keep the last [n] lines. *)
Fixpoint keep_lines (n : nat) (rs : text) : text :=
  match rs with
  | [] => []
  | c :: rs' =>
      if (c =? NL)%N then
        match n with
        | S (S n') => c :: keep_lines (S n') rs'
        | _ => []
        end
      else match n with O => [] | _ => c :: keep_lines n rs' end
  end.

Definition tail_lines (n : option Z) (s : text) : text :=
  match n with
  | None => s
  | Some n => rev (keep_lines (Z.to_nat n) (rev s))
  end.

Definition tail_bytes (n : option Z) (s : text) : text :=
  match n with
  | None => s
  | Some n => rev (keep_bytes n (rev s))
  end.

(** Modelled from the spec: [truncateTail] lives in tools/truncate.ts, which
    is not among the sources at hand; the specification describes it as a
    tail truncation to a byte budget ("then tail-truncate to a stricter byte
    budget (40KB)").  The model keeps the end of the text: at most
    [maxLines] trailing lines, then the longest run of trailing code points
    whose UTF-8 encoding fits [maxBytes]. *)
Definition truncateTail (s : text) (o : TruncateOptions) : TruncationResult :=
  let kept := tail_bytes (maxBytes o) (tail_lines (maxLines o) s) in
  {| content := kept;
     truncated := negb (length kept =? length s)%nat |}.

(** ** The terminal emulator behind the overlay

    [@xterm/headless] is an external library.  The component uses its
    active buffer through [baseY], [rows], [getLine(y)] and
    [translateToString(true)], and feeds it with [write]; parsing of a
    written chunk happens later (see [c_queue] and [parse_next] below). *)

Class Emulator (B : Type) := {
  (** [new Terminal({cols, rows, scrollback: 2000, ...})] *)
  em_new : Z -> Z -> B;
  (** the parser applied to one written chunk *)
  em_feed : B -> text -> B;
  (** [buffer.active.baseY] *)
  em_baseY : B -> Z;
  (** [term.rows] *)
  em_rows : B -> Z;
  (** [buffer.active.getLine(y)?.translateToString(true)] *)
  em_line : B -> Z -> option text;
  (** parsing an empty chunk changes nothing *)
  em_feed_nil : forall b, em_feed b [] = b
}.

Section Capture.

Context {B : Type} {emu : Emulator B}.

(** [line ? line.translateToString(true).replace(/\s+$/u, "") : ""] *)
Definition line_text (b : B) (y : Z) : text :=
  match em_line b y with
  | Some l => rstrip l
  | None => []
  end.

(** [InteractiveTermOverlayComponent.getScrollback] *)
Definition getScrollback (b : B) (maxLines : Z) : text * bool :=
  let totalLines := em_baseY b + em_rows b in
  let truncated := maxLines <? totalLines in
  let startY := Z.max 0 (totalLines - maxLines) in
  let lines := map (line_text b) (for_range startY totalLines) in
  (join_lines (trim_blank_lines lines), truncated).

(** [InteractiveTermOverlayComponent.#getPlainLines]; the emulator's buffer
    accessors do not throw, so the [catch] branch is not reached. *)
Definition getPlainLines (b : B) (maxLines : Z) : list text :=
  if maxLines <=? 0 then []
  else
    let lastAbsY := Z.max 0 (em_baseY b + em_rows b - 1) in
    let startAbsY := Z.max 0 (lastAbsY - maxLines + 1) in
    let out := map (line_text b) (for_range startAbsY (lastAbsY + 1)) in
    slice_last maxLines (trim_blank_lines out).

(** [InteractiveTermOverlayComponent.getSnapshot] *)
Definition getSnapshot (b : B) (maxLines : Z) : text :=
  join_lines (getPlainLines b maxLines).

End Capture.

(** ** The ANSI row renderer *)

(** Decimal rendering of an integer inside a template literal. *)
Definition dec (n : Z) : text :=
  str (DecimalString.NilZero.string_of_int (Z.to_int n)).

(** What the renderer asks of a cell of [@xterm/headless] ([IBufferCell]).
    The source guards every call with [typeof cell.m === "function"]; the
    cells of the emulator have all of these methods, and the record lists
    them.  Methods that return a number used as a truth value are [bool]. *)
Record Cell := {
  getWidth : Z;
  getChars : text;
  isInvisible : bool;
  isAttributeDefault : bool;
  getFgColorMode : Z;
  getBgColorMode : Z;
  getFgColor : Z;
  getBgColor : Z;
  isBold : bool;
  isDim : bool;
  isItalic : bool;
  isUnderline : bool;
  isBlink : bool;
  isInverse : bool;
  isStrikethrough : bool;
  isFgRGB : bool;
  isFgPalette : bool;
  isBgRGB : bool;
  isBgPalette : bool
}.

(** A buffer line: [line.getCell(x, nullCell)] is the cell at column [x], or
    [undefined] outside of the line.  ([nullCell] is only the scratch object
    the emulator fills in; it carries no information of its own.) *)
Definition BufferLine := list Cell.

Definition getCell (line : option BufferLine) (x : Z) : option Cell :=
  match line with
  | Some cells => if x <? 0 then None else nth_error cells (Z.to_nat x)
  | None => None
  end.

Definition ESC : char := 27%N.

(** ["\x1b[0m"] *)
Definition RESET : text := ESC :: str "[0m".

(** The key of the default style, ["d"]. *)
Definition KEY_DEFAULT : text := str "d".

Definition flag (b : bool) : text := if b then str "1" else str "0".

(** [cellStyleKey] (on a cell that is present) *)
Definition cellStyleKey (cell : Cell) : text :=
  if isAttributeDefault cell then KEY_DEFAULT
  else
    let flags := flag (isBold cell) ++ flag (isDim cell) ++ flag (isItalic cell)
                 ++ flag (isUnderline cell) ++ flag (isInverse cell)
                 ++ flag (isStrikethrough cell) in
    dec (getFgColorMode cell) ++ str ":" ++ dec (getFgColor cell) ++ str ":"
    ++ dec (getBgColorMode cell) ++ str ":" ++ dec (getBgColor cell) ++ str ":"
    ++ flags.

(** [`${(c >> 16) & 0xff};${(c >> 8) & 0xff};${c & 0xff}`] *)
Definition rgb (c : Z) : text :=
  dec (Z.land (Z.shiftr c 16) 255) ++ str ";"
  ++ dec (Z.land (Z.shiftr c 8) 255) ++ str ";" ++ dec (Z.land c 255).

(** [codes.join(";")] *)
Fixpoint join_codes (codes : list text) : text :=
  match codes with
  | [] => []
  | [c] => c
  | c :: cs => c ++ str ";" ++ join_codes cs
  end.

Definition code_if (b : bool) (c : string) : list text :=
  if b then [str c] else [].

(** [cellSgr] (on a cell that is present) *)
Definition cellSgr (cell : Cell) : text :=
  if isAttributeDefault cell then RESET
  else
    let codes :=
      [str "0"]
      ++ code_if (isBold cell) "1" ++ code_if (isDim cell) "2"
      ++ code_if (isItalic cell) "3" ++ code_if (isUnderline cell) "4"
      ++ code_if (isBlink cell) "5" ++ code_if (isInverse cell) "7"
      ++ code_if (isStrikethrough cell) "9"
      ++ (if isFgRGB cell then [str "38;2;" ++ rgb (getFgColor cell)]
          else if isFgPalette cell then [str "38;5;" ++ dec (getFgColor cell)]
          else [])
      ++ (if isBgRGB cell then [str "48;2;" ++ rgb (getBgColor cell)]
          else if isBgPalette cell then [str "48;5;" ++ dec (getBgColor cell)]
          else []) in
    ESC :: str "[" ++ join_codes codes ++ str "m".

Definition text_eqb (a b : text) : bool :=
  if list_eq_dec N.eq_dec a b then true else false.

(** The characters a cell of width [w] contributes to the row. *)
Definition cell_chars (cell : Cell) (w : Z) : text :=
  let chars := getChars cell in
  let chars := match chars with
               | [] => if 1 <? w then spaces w else str " "
               | _ => chars
               end in
  if isInvisible cell then spaces w else chars.

(** [out += "\x1b[0m"; prevKey = "d"] when the previous key is not ["d"],
    then [out += " "]. *)
Definition pad_blank (prevKey out : text) : text :=
  (if text_eqb prevKey KEY_DEFAULT then out else out ++ RESET) ++ str " ".

(** The [for (let x = 0; x < width; )] loop of [renderBufferLineAnsi].  Every
    turn moves [x] forward by at least one column, so [width - x] turns are
    enough; [fuel] counts them. *)
Fixpoint render_loop (fuel : nat) (line : option BufferLine) (width x : Z)
    (prevKey out : text) : text :=
  match fuel with
  | O => out
  | S fuel' =>
      if x <? width then
        match getCell line x with
        | None =>
            render_loop fuel' line width (x + 1) KEY_DEFAULT (pad_blank prevKey out)
        | Some cell =>
            let w := getWidth cell in
            if w <=? 0 then render_loop fuel' line width (x + 1) prevKey out
            else if width <? x + w then
              render_loop fuel' line width (x + 1) KEY_DEFAULT (pad_blank prevKey out)
            else
              let key := cellStyleKey cell in
              let out := if text_eqb key prevKey then out else out ++ cellSgr cell in
              render_loop fuel' line width (x + w) key (out ++ cell_chars cell w)
        end
      else out
  end.

(** [renderBufferLineAnsi] *)
Definition renderBufferLineAnsi (line : option BufferLine) (width : Z) : text :=
  render_loop (Z.to_nat width) line width 0 KEY_DEFAULT RESET ++ RESET.

(** ** Results *)

(** [InteractiveTermExecutionResult] *)
Record InteractiveTermExecutionResult := {
  exitCode : option Z;
  scrollback : text;
  screenSnapshot : text;
  timedOut : bool;
  dismissedByUser : bool;
  scrollbackTruncated : bool;
  abortedBySignal : bool
}.

(** [RunInteractiveTermToolDetails] *)
Record RunInteractiveTermToolDetails := {
  d_exitCode : option Z;
  d_timedOut : bool;
  d_dismissedByUser : bool;
  d_scrollbackTruncated : bool
}.

Definition bool_text (b : bool) : text := if b then str "true" else str "false".

(** [formatInteractiveTermResponse] *)
Definition formatInteractiveTermResponse (result : InteractiveTermExecutionResult) : text :=
  let lines :=
    [ str "Exit code: " ++ match exitCode result with
                           | None => str "null"
                           | Some c => dec c
                           end;
      str "Timed out: " ++ bool_text (timedOut result);
      str "Dismissed by user: " ++ bool_text (dismissedByUser result) ]
    ++ (if scrollbackTruncated result then [str "Output truncated: true"] else [])
    ++ [ []; str "Captured stdout:";
         match scrollback result with
         | [] => str "(no stdout captured)"
         | sb => sb
         end ]
    ++ [ []; str "Final screen snapshot:";
         match screenSnapshot result with
         | [] => str "(empty screen)"
         | sn => sn
         end ] in
  join_lines lines.

(** How [execute] ends once the overlay has handed over its result:
    [ToolAbortError] is thrown, or the tool result is returned. *)
Inductive Outcome :=
| Returned (details : RunInteractiveTermToolDetails) (body : text)
| ThrownToolAbortError (message : text).

(** The statements of [execute] after [await context.ui.custom(...)]. *)
Definition execute_outcome (execution : InteractiveTermExecutionResult) : Outcome :=
  if abortedBySignal execution then
    ThrownToolAbortError (str "Interactive terminal aborted.")
  else
    Returned {| d_exitCode := exitCode execution;
                d_timedOut := timedOut execution;
                d_dismissedByUser := dismissedByUser execution;
                d_scrollbackTruncated := scrollbackTruncated execution |}
             (formatInteractiveTermResponse execution).

(** ** The session: state

    A session is the closure that [execute] hands to [context.ui.custom]:
    its [let] variables, the overlay component, and the collaborators it
    talks to (PTY, timer, abort signal, host).  The collaborators are
    outside of the code at hand, so the model lets them act in any order:
    - the PTY may deliver data and report an exit at any time while the
      listener in question is registered; an exit that follows a kill at
      once (the PTY library runs the exit listeners inside [kill]) is the
      run in which the exit event comes right after the killing turn;
    - the emulator parses its write queue one write per turn, each followed
      by the callback of that write;
    - the timer and the abort signal fire at most once.
    [component.dispose] and [component.resize] are called by the overlay
    host only; no handler of the session calls them.  The turns of [step]
    are those of a component that its host has not disposed; the call of
    [component.dispose] is a turn of [host_step], which is defined with the
    dispose handler further down. *)

Inductive OverlayState := running | complete | timed_out | killed.

Inductive Signal := SIGTERM | SIGKILL.

(** The entries of the [disposables] array of [execute]. *)
Inductive Disposable :=
| DataSubscription    (* returned by [pty.onData] *)
| ExitSubscription    (* returned by [pty.onExit] *)
| TimeoutClear        (* [clearTimeout(timeoutTimer)] *)
| AbortUnlisten.      (* [signal.removeEventListener("abort", onAbort)] *)

(** What the callback passed to [component.flush] has captured from the
    exit handler that created it: the constants [exitCode] and
    [abortedBySignal].  ([timedOut] and [dismissedByUser] are variables of
    [execute], read when the callback runs.) *)
Record FlushCallback := {
  cb_exitCode : option Z;
  cb_abortedBySignal : bool
}.

(** One [term.write(data, callback)] waiting in the emulator's write queue. *)
Record WriteItem := {
  w_data : text;
  w_callback : option FlushCallback
}.

(** Events of the outside world; each one is a turn of the event loop. *)
Inductive Event :=
| EvData (chunk : text)          (* the PTY delivers output *)
| EvExit (code : option Z)       (* the PTY reports that the child is gone *)
| EvTimer                        (* the timeout timer is due *)
| EvAbort                        (* the external signal aborts *)
| EvInput (data : text)          (* the host delivers a keystroke *)
| EvParse.                       (* the emulator parses the oldest queued write *)

(** Outcome of [spawnPty(...)]. *)
Inductive SpawnOutcome :=
| Spawned
| SpawnThrows (msg : text).

(** The parts of the host that the orchestrator is handed. *)
Class Host := {
  (** [matchesKey(data, keyId)] of the TUI package *)
  matchesKey : text -> text -> bool;
  (** [DEFAULT_MAX_BYTES] of tools/truncate.ts *)
  DEFAULT_MAX_BYTES : Z
}.

Record Params := {
  p_timeoutMs : option Z;      (* [timeoutMs] *)
  p_signal : option bool;      (* [signal], with [signal.aborted] at the call *)
  p_cols : Z;                  (* [initialCols] *)
  p_rows : Z                   (* [initialRows] *)
}.

Section Session.

Context {B : Type} {emu : Emulator B} {host : Host}.

Definition CAPTURE_MAX_BYTES : Z := DEFAULT_MAX_BYTES.

(** The [let] variables of the overlay factory in [execute]. *)
Record Vars := {
  v_dismissedByUser : bool;
  v_timedOut : bool;
  v_finished : bool;
  v_pty : bool;                        (* [pty !== null] *)
  v_disposables : list Disposable
}.

(** [InteractiveTermOverlayComponent] *)
Record Component := {
  c_buffer : B;                        (* what the emulator has parsed *)
  c_queue : list WriteItem;            (* writes not parsed yet *)
  c_state : OverlayState;
  c_exitCode : option Z;
  c_wired : bool                       (* [setInputHandlers] was called *)
}.

(** The world around the overlay: listeners that are registered, and what
    the session has done to its collaborators. *)
Record World := {
  w_onData : bool;                     (* the data listener is registered *)
  w_onExit : bool;                     (* the exit listener is registered *)
  w_timer : bool;                      (* the timeout timer is pending *)
  w_onAbort : bool;                    (* the abort listener is registered *)
  w_aborted : option bool;             (* [signal?.aborted] *)
  w_writes : list text;                (* [pty.write] calls *)
  w_kills : list Signal;               (* [pty.kill] calls *)
  w_renders : nat;                     (* [tui.requestRender] calls *)
  w_captures : nat;                    (* times the final buffer was read *)
  w_disposed : list Disposable;        (* [dispose] calls *)
  w_results : list InteractiveTermExecutionResult   (* [done] calls *)
}.

Record Session := {
  vars : Vars;
  comp : Component;
  world : World
}.

Definition with_vars (f : Vars -> Vars) (s : Session) : Session :=
  {| vars := f (vars s); comp := comp s; world := world s |}.
Definition with_comp (f : Component -> Component) (s : Session) : Session :=
  {| vars := vars s; comp := f (comp s); world := world s |}.
Definition with_world (f : World -> World) (s : Session) : Session :=
  {| vars := vars s; comp := comp s; world := f (world s) |}.

Definition set_dismissedByUser (x : bool) (v : Vars) : Vars :=
  {| v_dismissedByUser := x; v_timedOut := v_timedOut v; v_finished := v_finished v;
     v_pty := v_pty v; v_disposables := v_disposables v |}.
Definition set_timedOut (x : bool) (v : Vars) : Vars :=
  {| v_dismissedByUser := v_dismissedByUser v; v_timedOut := x; v_finished := v_finished v;
     v_pty := v_pty v; v_disposables := v_disposables v |}.
Definition set_finished (x : bool) (v : Vars) : Vars :=
  {| v_dismissedByUser := v_dismissedByUser v; v_timedOut := v_timedOut v; v_finished := x;
     v_pty := v_pty v; v_disposables := v_disposables v |}.
Definition set_pty (x : bool) (v : Vars) : Vars :=
  {| v_dismissedByUser := v_dismissedByUser v; v_timedOut := v_timedOut v;
     v_finished := v_finished v; v_pty := x; v_disposables := v_disposables v |}.
Definition set_disposables (x : list Disposable) (v : Vars) : Vars :=
  {| v_dismissedByUser := v_dismissedByUser v; v_timedOut := v_timedOut v;
     v_finished := v_finished v; v_pty := v_pty v; v_disposables := x |}.

Definition set_term (b : B) (q : list WriteItem) (c : Component) : Component :=
  {| c_buffer := b; c_queue := q; c_state := c_state c; c_exitCode := c_exitCode c;
     c_wired := c_wired c |}.
Definition set_status (st : OverlayState) (e : option Z) (c : Component) : Component :=
  {| c_buffer := c_buffer c; c_queue := c_queue c; c_state := st; c_exitCode := e;
     c_wired := c_wired c |}.
Definition set_wired (x : bool) (c : Component) : Component :=
  {| c_buffer := c_buffer c; c_queue := c_queue c; c_state := c_state c;
     c_exitCode := c_exitCode c; c_wired := x |}.

Definition set_listeners (d e t a : bool) (w : World) : World :=
  {| w_onData := d; w_onExit := e; w_timer := t; w_onAbort := a;
     w_aborted := w_aborted w; w_writes := w_writes w; w_kills := w_kills w;
     w_renders := w_renders w; w_captures := w_captures w;
     w_disposed := w_disposed w; w_results := w_results w |}.
Definition set_aborted (x : option bool) (w : World) : World :=
  {| w_onData := w_onData w; w_onExit := w_onExit w; w_timer := w_timer w;
     w_onAbort := w_onAbort w; w_aborted := x; w_writes := w_writes w;
     w_kills := w_kills w; w_renders := w_renders w; w_captures := w_captures w;
     w_disposed := w_disposed w; w_results := w_results w |}.
Definition log_write (d : text) (w : World) : World :=
  {| w_onData := w_onData w; w_onExit := w_onExit w; w_timer := w_timer w;
     w_onAbort := w_onAbort w; w_aborted := w_aborted w; w_writes := w_writes w ++ [d];
     w_kills := w_kills w; w_renders := w_renders w; w_captures := w_captures w;
     w_disposed := w_disposed w; w_results := w_results w |}.
Definition log_kill (sig : Signal) (w : World) : World :=
  {| w_onData := w_onData w; w_onExit := w_onExit w; w_timer := w_timer w;
     w_onAbort := w_onAbort w; w_aborted := w_aborted w; w_writes := w_writes w;
     w_kills := w_kills w ++ [sig]; w_renders := w_renders w;
     w_captures := w_captures w; w_disposed := w_disposed w;
     w_results := w_results w |}.
Definition log_render (w : World) : World :=
  {| w_onData := w_onData w; w_onExit := w_onExit w; w_timer := w_timer w;
     w_onAbort := w_onAbort w; w_aborted := w_aborted w; w_writes := w_writes w;
     w_kills := w_kills w; w_renders := S (w_renders w); w_captures := w_captures w;
     w_disposed := w_disposed w; w_results := w_results w |}.
Definition log_capture (w : World) : World :=
  {| w_onData := w_onData w; w_onExit := w_onExit w; w_timer := w_timer w;
     w_onAbort := w_onAbort w; w_aborted := w_aborted w; w_writes := w_writes w;
     w_kills := w_kills w; w_renders := w_renders w; w_captures := S (w_captures w);
     w_disposed := w_disposed w; w_results := w_results w |}.
Definition log_disposed (d : Disposable) (w : World) : World :=
  {| w_onData := w_onData w; w_onExit := w_onExit w; w_timer := w_timer w;
     w_onAbort := w_onAbort w; w_aborted := w_aborted w; w_writes := w_writes w;
     w_kills := w_kills w; w_renders := w_renders w; w_captures := w_captures w;
     w_disposed := w_disposed w ++ [d]; w_results := w_results w |}.
Definition log_result (r : InteractiveTermExecutionResult) (w : World) : World :=
  {| w_onData := w_onData w; w_onExit := w_onExit w; w_timer := w_timer w;
     w_onAbort := w_onAbort w; w_aborted := w_aborted w; w_writes := w_writes w;
     w_kills := w_kills w; w_renders := w_renders w; w_captures := w_captures w;
     w_disposed := w_disposed w; w_results := w_results w ++ [r] |}.

(** ** The session: operations *)

(** [d.dispose()] for an entry of [disposables] *)
Definition dispose (d : Disposable) (s : Session) : Session :=
  let w := world s in
  let w' :=
    match d with
    | DataSubscription => set_listeners false (w_onExit w) (w_timer w) (w_onAbort w) w
    | ExitSubscription => set_listeners (w_onData w) false (w_timer w) (w_onAbort w) w
    | TimeoutClear => set_listeners (w_onData w) (w_onExit w) false (w_onAbort w) w
    | AbortUnlisten => set_listeners (w_onData w) (w_onExit w) (w_timer w) false w
    end in
  with_world (fun _ => log_disposed d w') s.

(** [finish]: the guard on [finished], then [disposables.splice(0)] is
    disposed entry by entry, then [done(result)]. *)
Definition finish (result : InteractiveTermExecutionResult) (s : Session) : Session :=
  if v_finished (vars s) then s
  else
    let s1 := with_vars (set_finished true) s in
    let ds := v_disposables (vars s1) in
    let s2 := with_vars (set_disposables []) s1 in
    let s3 := fold_left (fun st d => dispose d st) ds s2 in
    with_world (log_result result) s3.

(** [killPty] *)
Definition killPty (sig : Signal) (s : Session) : Session :=
  if v_pty (vars s) then
    with_vars (set_pty false) (with_world (log_kill sig) s)
  else s.

(** [tui.requestRender()] *)
Definition requestRender (s : Session) : Session := with_world log_render s.

(** [term.write(data, callback)]: the write is queued; it is parsed by a
    later turn of the emulator. *)
Definition term_write (data : text) (cb : option FlushCallback) (s : Session) : Session :=
  with_comp (fun c => set_term (c_buffer c)
                        (c_queue c ++ [{| w_data := data; w_callback := cb |}]) c) s.

(** [component.appendOutput] *)
Definition appendOutput (chunk : text) (s : Session) : Session :=
  term_write chunk None s.

(** [component.flush] *)
Definition flush (cb : FlushCallback) (s : Session) : Session :=
  term_write [] (Some cb) s.

(** [component.setComplete] *)
Definition setComplete (e : option Z) (timedOut_ dismissed_ : bool) (s : Session) : Session :=
  let st := if timedOut_ then timed_out else if dismissed_ then killed else complete in
  with_comp (set_status st e) s.

(** The callback that the exit handler passes to [component.flush]. *)
Definition flush_callback (cb : FlushCallback) (s : Session) : Session :=
  if v_finished (vars s) then s
  else
    let b := c_buffer (comp s) in
    let snapshot :=
      content (truncateTail (getSnapshot b SCREEN_SNAPSHOT_MAX_LINES)
                 {| maxLines := Some SCREEN_SNAPSHOT_MAX_LINES;
                    maxBytes := Some SCREEN_SNAPSHOT_MAX_BYTES |}) in
    let sb := getScrollback b SCROLLBACK_MAX_LINES in
    finish
      {| exitCode := cb_exitCode cb;
         scrollback := content (truncateTail (fst sb)
                                  {| maxLines := None;
                                     maxBytes := Some CAPTURE_MAX_BYTES |});
         screenSnapshot := snapshot;
         timedOut := v_timedOut (vars s);
         dismissedByUser := v_dismissedByUser (vars s);
         scrollbackTruncated := snd sb;
         abortedBySignal := cb_abortedBySignal cb |}
      (with_world log_capture s).

(** The handler given to [pty.onData] *)
Definition onData (data : text) (s : Session) : Session :=
  requestRender (appendOutput data s).

(** The handler given to [pty.onExit], applied to [e.exitCode] *)
Definition onExit (e : option Z) (s : Session) : Session :=
  let v := vars s in
  let exitCode_ := if v_timedOut v then None else e in
  let abortedBySignal_ :=
    match w_aborted (world s) with Some true => true | _ => false end
    && negb (v_dismissedByUser v) && negb (v_timedOut v) in
  let s1 := setComplete exitCode_ (v_timedOut v) (v_dismissedByUser v) s in
  let s2 := requestRender s1 in
  flush {| cb_exitCode := exitCode_; cb_abortedBySignal := abortedBySignal_ |} s2.

(** The first handler given to [component.setInputHandlers] *)
Definition onInput (data : text) (s : Session) : Session :=
  if v_pty (vars s) then with_world (log_write data) s else s.

(** The second handler given to [component.setInputHandlers] *)
Definition onDismiss (s : Session) : Session :=
  if v_dismissedByUser (vars s) then s
  else killPty SIGKILL (with_vars (set_dismissedByUser true) s).

(** The callback of [setTimeout] *)
Definition onTimeout (s : Session) : Session :=
  if v_finished (vars s) then s
  else killPty SIGKILL (with_vars (set_timedOut true) s).

(** The listener of the [abort] event *)
Definition onAbort (s : Session) : Session :=
  if v_finished (vars s) then s else killPty SIGKILL s.

Definition is_running (s : Session) : bool :=
  match c_state (comp s) with running => true | _ => false end.

(** [matchesKey(data, "escape") || matchesKey(data, "esc")] *)
Definition is_escape (data : text) : bool :=
  matchesKey data (str "escape") || matchesKey data (str "esc").

(** [component.handleInput]; before [setInputHandlers] both handlers are the
    empty function. *)
Definition handleInput (data : text) (s : Session) : Session :=
  if is_running s && is_escape data then
    (if c_wired (comp s) then onDismiss s else s)
  else if negb (is_running s) then s
  else (if c_wired (comp s) then onInput data s else s).

(** One turn of the emulator: the oldest queued write is parsed into the
    buffer, then its callback runs. *)
Definition parse_next (s : Session) : Session :=
  match c_queue (comp s) with
  | [] => s
  | item :: rest =>
      let s1 := with_comp (fun c => set_term (em_feed (c_buffer c) (w_data item)) rest c) s in
      match w_callback item with
      | Some cb => flush_callback cb s1
      | None => s1
      end
  end.

(** One turn of the event loop.  A listener runs only while it is
    registered; the timer and the [once] abort listener run at most once. *)
Definition step (s : Session) (ev : Event) : Session :=
  let w := world s in
  match ev with
  | EvData chunk => if w_onData w then onData chunk s else s
  | EvExit code => if w_onExit w then onExit code s else s
  | EvTimer =>
      if w_timer w then
        onTimeout (with_world (set_listeners (w_onData w) (w_onExit w) false (w_onAbort w)) s)
      else s
  | EvAbort =>
      match w_aborted w with
      | Some false =>
          let s1 := with_world (set_aborted (Some true)) s in
          if w_onAbort w then
            onAbort (with_world (set_listeners (w_onData w) (w_onExit w) (w_timer w) false) s1)
          else s1
      | _ => s
      end
  | EvInput data => handleInput data s
  | EvParse => parse_next s
  end.

Definition run (s : Session) (tr : list Event) : Session := fold_left step tr s.

(** The overlay factory passed to [context.ui.custom], up to [return
    component]: the component is created, the PTY is spawned and, unless the
    spawn throws, the listeners, the timer and the abort listener are set up. *)
Definition setup (p : Params) (spawn : SpawnOutcome) : Session :=
  let s0 :=
    {| vars := {| v_dismissedByUser := false; v_timedOut := false; v_finished := false;
                  v_pty := false; v_disposables := [] |};
       comp := {| c_buffer := em_new (Z.max 1 (p_cols p)) (Z.max 1 (p_rows p));
                  c_queue := []; c_state := running; c_exitCode := None;
                  c_wired := false |};
       world := {| w_onData := false; w_onExit := false; w_timer := false;
                   w_onAbort := false; w_aborted := p_signal p; w_writes := [];
                   w_kills := []; w_renders := 0%nat; w_captures := 0%nat;
                   w_disposed := []; w_results := [] |} |} in
  match spawn with
  | SpawnThrows msg =>
      let s1 := finish
                  {| exitCode := None;
                     scrollback := str "Failed to spawn PTY: " ++ msg;
                     screenSnapshot := [];
                     timedOut := false;
                     dismissedByUser := false;
                     scrollbackTruncated := false;
                     abortedBySignal := false |} s0 in
      let s2 := appendOutput (NL :: str "Failed to spawn PTY: " ++ msg ++ [NL]) s1 in
      let s3 := setComplete None false false s2 in
      requestRender s3
  | Spawned =>
      let timer := match p_timeoutMs p with Some _ => true | None => false end in
      let sig := match p_signal p with Some _ => true | None => false end in
      let ds := [DataSubscription; ExitSubscription]
                ++ (if timer then [TimeoutClear] else [])
                ++ (if sig then [AbortUnlisten] else []) in
      {| vars := set_disposables ds (set_pty true (vars s0));
         comp := set_wired true (comp s0);
         world := set_listeners true true timer sig (world s0) |}
  end.

End Session.

(** ** A line-oriented emulator

    A small terminal that only understands line feeds: enough to run
    sessions on concrete input.  It keeps the finished lines and the line
    being written; the viewport has [lt_rows] rows and the history above it
    is capped at 2000 rows, as the component configures its terminal. *)

Module LineTerm.

Record t := {
  lt_rows : Z;
  lt_done : list text;       (* finished lines, oldest first *)
  lt_current : text          (* the line the cursor is on *)
}.

Definition put (b : t) (c : char) : t :=
  if (c =? NL)%N then
    {| lt_rows := lt_rows b; lt_done := lt_done b ++ [lt_current b]; lt_current := [] |}
  else if (c =? 13)%N then b
  else {| lt_rows := lt_rows b; lt_done := lt_done b; lt_current := lt_current b ++ [c] |}.

Definition feed (b : t) (chunk : text) : t := fold_left put chunk b.

Definition all_lines (b : t) : list text := lt_done b ++ [lt_current b].

(** Rows that scrolled out of the history. *)
Definition dropped (b : t) : Z :=
  Z.max 0 (Z.of_nat (length (all_lines b)) - lt_rows b - 2000).

Definition baseY (b : t) : Z :=
  Z.min 2000 (Z.max 0 (Z.of_nat (length (all_lines b)) - lt_rows b)).

Definition line (b : t) (y : Z) : option text :=
  if (0 <=? y) && (y <? baseY b + lt_rows b) then
    Some (nth (Z.to_nat (dropped b + y)) (all_lines b) [])
  else None.

Definition create (cols rows : Z) : t :=
  {| lt_rows := rows; lt_done := []; lt_current := [] |}.

#[global] Instance emulator : Emulator t := {
  em_new := create;
  em_feed := feed;
  em_baseY := baseY;
  em_rows := lt_rows;
  em_line := line;
  em_feed_nil := fun b => eq_refl
}.

(** The buffer whose rows are the given lines. *)
Definition of_lines (ls : list text) : t :=
  {| lt_rows := Z.of_nat (length ls); lt_done := removelast ls;
     lt_current := last ls [] |}.

End LineTerm.

(** A host whose dismiss key is the single byte ESC and whose default byte
    budget is 50KB. *)
Definition plain_host : Host := {|
  matchesKey := fun data key =>
    text_eqb data [ESC] && (text_eqb key (str "escape") || text_eqb key (str "esc"));
  DEFAULT_MAX_BYTES := 50 * 1024
|}.

(** A plain cell of width one showing [c]. *)
Definition plain_cell (c : string) : Cell := {|
  getWidth := 1; getChars := str c; isInvisible := false;
  isAttributeDefault := true;
  getFgColorMode := 0; getBgColorMode := 0; getFgColor := 0; getBgColor := 0;
  isBold := false; isDim := false; isItalic := false; isUnderline := false;
  isBlink := false; isInverse := false; isStrikethrough := false;
  isFgRGB := false; isFgPalette := false; isBgRGB := false; isBgPalette := false
|}.

(** A bold cell with palette colour 1, of the given width. *)
Definition bold_red_cell (c : string) (w : Z) : Cell := {|
  getWidth := w; getChars := str c; isInvisible := false;
  isAttributeDefault := false;
  getFgColorMode := 16777216; getBgColorMode := 0; getFgColor := 1; getBgColor := 0;
  isBold := true; isDim := false; isItalic := false; isUnderline := false;
  isBlink := false; isInverse := false; isStrikethrough := false;
  isFgRGB := false; isFgPalette := true; isBgRGB := false; isBgPalette := false
|}.

Definition demo_params : Params :=
  {| p_timeoutMs := Some 2000; p_signal := Some false; p_cols := 80; p_rows := 5 |}.

(** A session on the line-oriented emulator under [plain_host]. *)
Definition demo (spawn : SpawnOutcome) (tr : list Event) : Session (B := LineTerm.t) :=
  run (host := plain_host) (setup demo_params spawn) tr.

(** * Vocabulary of the statements *)

(** The last code point of a text, if any. *)
Definition last_char (l : text) : option char := hd_error (rev l).

(** A line without white space at its end. *)
Definition clean (l : text) : Prop :=
  forall c, last_char l = Some c -> is_space c = false.

(** [out] is [raw] without its blank lines at both ends: the lines dropped
    in front and behind are blank, and what is kept neither starts nor ends
    with a blank line. *)
Definition stripped (raw out : list text) : Prop :=
  exists pre post,
    raw = pre ++ out ++ post
    /\ forallb is_blank pre = true
    /\ forallb is_blank post = true
    /\ (forall l, hd_error out = Some l -> is_blank l = false)
    /\ (forall l, hd_error (rev out) = Some l -> is_blank l = false).

(** [t] is the end of [s]. *)
Definition suffix_of (t s : text) : Prop := exists pre, s = pre ++ t.

Section CaptureRows.

Context {B : Type} {emu : Emulator B}.

(** The rows of the buffer that [getScrollback] reads. *)
Definition scrollback_rows (b : B) (n : Z) : list Z :=
  let total := em_baseY b + em_rows b in
  for_range (Z.max 0 (total - n)) total.

(** The rows of the buffer that [getSnapshot] reads. *)
Definition snapshot_rows (b : B) (n : Z) : list Z :=
  let lastY := Z.max 0 (em_baseY b + em_rows b - 1) in
  for_range (Z.max 0 (lastY - n + 1)) (lastY + 1).

End CaptureRows.

(** The loop of [renderBufferLineAnsi] resumed at column [x] with the
    previous style key [prevKey] and the output [out] so far. *)
Definition render_from (line : option BufferLine) (width x : Z) (prevKey out : text) : text :=
  render_loop (Z.to_nat (width - x)) line width x prevKey out.

(** The characters of a row without any escape sequence: what the walk of
    [renderBufferLineAnsi] prints when every style change is left out. *)
Fixpoint row_text (fuel : nat) (line : option BufferLine) (width x : Z) : text :=
  match fuel with
  | O => []
  | S fuel' =>
      if x <? width then
        match getCell line x with
        | None => str " " ++ row_text fuel' line width (x + 1)
        | Some cell =>
            let w := getWidth cell in
            if w <=? 0 then row_text fuel' line width (x + 1)
            else if width <? x + w then str " " ++ row_text fuel' line width (x + 1)
            else cell_chars cell w ++ row_text fuel' line width (x + w)
        end
      else []
  end.

(** Every column of the row holds a cell of style key [k] that fits into
    the row. *)
Definition uniform_row (line : option BufferLine) (width : Z) (k : text) : Prop :=
  forall x, 0 <= x < width ->
    exists c, getCell line x = Some c /\ cellStyleKey c = k /\ x + getWidth c <= width.

(** The result that a failed spawn hands over. *)
Definition spawn_failure (msg : text) : InteractiveTermExecutionResult :=
  {| exitCode := None;
     scrollback := str "Failed to spawn PTY: " ++ msg;
     screenSnapshot := [];
     timedOut := false;
     dismissedByUser := false;
     scrollbackTruncated := false;
     abortedBySignal := false |}.

Section SessionVocabulary.

Context {B : Type} {emu : Emulator B} {host : Host}.

(** The entries that a successful [setup] pushes on [disposables]. *)
Definition initial_disposables (p : Params) : list Disposable :=
  [DataSubscription; ExitSubscription]
  ++ match p_timeoutMs p with Some _ => [TimeoutClear] | None => [] end
  ++ match p_signal p with Some _ => [AbortUnlisten] | None => [] end.

Definition no_callback (i : WriteItem) : Prop := w_callback i = None.

(** The world after [finish] has run on the world [w]: every listener is
    gone, the initial disposables are disposed of and [r] is handed over. *)
Definition finished_world (p : Params) (r : InteractiveTermExecutionResult)
    (w : World) : World :=
  {| w_onData := false; w_onExit := false; w_timer := false; w_onAbort := false;
     w_aborted := w_aborted w; w_writes := w_writes w; w_kills := w_kills w;
     w_renders := w_renders w; w_captures := w_captures w;
     w_disposed := initial_disposables p;
     w_results := w_results w ++ [r] |}.

(** The result that the flush callback [cb] hands to [finish] when it runs
    on the buffer [b] while the variables [timedOut] and [dismissedByUser]
    hold [tmo] and [dis]. *)
Definition captured (b : B) (cb : FlushCallback) (tmo dis : bool)
    : InteractiveTermExecutionResult :=
  let sb := getScrollback b SCROLLBACK_MAX_LINES in
  {| exitCode := cb_exitCode cb;
     scrollback := content (truncateTail (fst sb)
                              {| maxLines := None;
                                 maxBytes := Some CAPTURE_MAX_BYTES |});
     screenSnapshot :=
       content (truncateTail (getSnapshot b SCREEN_SNAPSHOT_MAX_LINES)
                  {| maxLines := Some SCREEN_SNAPSHOT_MAX_LINES;
                     maxBytes := Some SCREEN_SNAPSHOT_MAX_BYTES |});
     timedOut := tmo;
     dismissedByUser := dis;
     scrollbackTruncated := snd sb;
     abortedBySignal := cb_abortedBySignal cb |}.

(** What holds of a session at every point of every run. *)
Definition Inv (p : Params) (s : Session (B := B)) : Prop :=
  let v := vars s in let c := comp s in let w := world s in
  (v_finished v = false ->
     v_disposables v = initial_disposables p /\ w_disposed w = []
     /\ w_results w = [] /\ w_captures w = 0%nat
     /\ w_onData w = true /\ w_onExit w = true /\ c_wired c = true)
  /\ (v_finished v = true ->
     v_disposables v = [] /\ NoDup (w_disposed w)
     /\ length (w_results w) = 1%nat /\ (w_captures w <= 1)%nat
     /\ w_onData w = false /\ w_onExit w = false
     /\ w_timer w = false /\ w_onAbort w = false
     /\ c_state c <> running)
  /\ (w_timer w = true -> p_timeoutMs p <> None)
  /\ (w_onAbort w = true -> p_signal p <> None)
  /\ Forall (eq SIGKILL) (w_kills w)
  /\ (c_wired c = true -> v_pty v = false -> In SIGKILL (w_kills w))
  /\ (v_dismissedByUser v = true -> v_pty v = false)
  /\ (c_state c = running -> Forall no_callback (c_queue c)).

(** The emulator parses everything that is queued. *)
Definition settle (s : Session (B := B)) : Session :=
  run s (repeat EvParse (length (c_queue (comp s)))).

(** The values of [finished] along a run, from its start. *)
Fixpoint finished_history (s : Session (B := B)) (tr : list Event) : list bool :=
  v_finished (vars s) ::
  match tr with
  | [] => []
  | ev :: tr' => finished_history (step s ev) tr'
  end.

Definition has_callback (i : WriteItem) : Prop := w_callback i <> None.

(** The PTY has not reported an exit in [tr]. *)
Definition no_exit (tr : list Event) : Prop := forall c, ~ In (EvExit c) tr.

(** The output chunks that the PTY delivers in [tr], in order. *)
Definition chunks_of (tr : list Event) : list text :=
  flat_map (fun ev => match ev with EvData chunk => [chunk] | _ => [] end) tr.

(** The buffer once the emulator has parsed the writes that are queued. *)
Definition pending_buffer (s : Session (B := B)) : B :=
  fold_left em_feed (map w_data (c_queue (comp s))) (c_buffer (comp s)).

(** The terminal that [setup] creates, fed with the given chunks. *)
Definition buffer_of (p : Params) (chunks : list text) : B :=
  fold_left em_feed chunks (em_new (Z.max 1 (p_cols p)) (Z.max 1 (p_rows p))).

(** [signal?.aborted === true] *)
Definition aborted_now (s : Session (B := B)) : bool :=
  match w_aborted (world s) with Some true => true | _ => false end.

(** The constants that the exit handler computes when it runs in state [s]
    on an exit event with code [c]. *)
Definition exit_callback (s : Session (B := B)) (c : option Z) : FlushCallback :=
  {| cb_exitCode := if v_timedOut (vars s) then None else c;
     cb_abortedBySignal :=
       aborted_now s && negb (v_dismissedByUser (vars s))
       && negb (v_timedOut (vars s)) |}.

(** A session that runs and has not seen an exit event: nothing is
    finished, and the queued writes lead to the buffer of [chunks]. *)
Definition BeforeExit (p : Params) (chunks : list text) (s : Session (B := B)) : Prop :=
  Inv p s
  /\ v_finished (vars s) = false
  /\ c_state (comp s) = running
  /\ pending_buffer s = buffer_of p chunks
  /\ (p_timeoutMs p <> None -> w_timer (world s) = true \/ v_timedOut (vars s) = true).

(** A session after its first exit event.  [b], [cb], [dis] and [tmo] are
    the pending buffer, the callback constants and the two variables at
    that event; [T] says that the timer has fired since. *)
Definition AfterExit (b : B) (cb : FlushCallback) (dis tmo : bool) (T : Prop)
    (s : Session (B := B)) : Prop :=
  v_dismissedByUser (vars s) = dis
  /\ (tmo = true -> v_timedOut (vars s) = true)
  /\ (v_timedOut (vars s) = true -> tmo = true \/ T)
  /\ c_state (comp s) <> running
  /\ ((v_finished (vars s) = false
       /\ exists q1 q2,
           c_queue (comp s) = q1 ++ {| w_data := []; w_callback := Some cb |} :: q2
           /\ Forall no_callback q1
           /\ fold_left em_feed (map w_data q1) (c_buffer (comp s)) = b)
      \/ (v_finished (vars s) = true
          /\ exists tmo',
              w_results (world s) = [captured b cb tmo' dis]
              /\ (tmo = true -> tmo' = true)
              /\ (tmo' = true -> tmo = true \/ T))).

(** The PTY reports the exit right after every kill of a running child,
    as the comment in the timeout callback says of the PTY library
    ("killPty fires onExit synchronously"). *)
Fixpoint prompt_exits (s : Session (B := B)) (tr : list Event) : Prop :=
  match tr with
  | [] => True
  | ev :: tr' =>
      let s' := step s ev in
      if is_running s' && v_pty (vars s) && negb (v_pty (vars s')) then
        match tr' with
        | EvExit c :: tr'' => prompt_exits (step s' (EvExit c)) tr''
        | _ => False
        end
      else prompt_exits s' tr'
  end.

End SessionVocabulary.

(** * Vocabulary of the further properties *)

(** [a] is [b] with some elements left out. *)
Inductive subseq {A : Type} : list A -> list A -> Prop :=
| subseq_nil : subseq [] []
| subseq_skip : forall x a b, subseq a b -> subseq a (x :: b)
| subseq_keep : forall x a b, subseq a b -> subseq (x :: a) (x :: b).

(** The keystrokes that the host delivers in [tr], in order. *)
Definition keys_of (tr : list Event) : list text :=
  flat_map (fun ev => match ev with EvInput d => [d] | _ => [] end) tr.

(** The status that [setComplete] gives the overlay. *)
Definition final_state (timedOut_ dismissed_ : bool) : OverlayState :=
  if timedOut_ then timed_out else if dismissed_ then killed else complete.

(** ** Numbers of JavaScript

    The finite doubles are rationals, and [Math.min], [Math.max],
    [Math.floor] and the comparisons are exact on them; they are modelled on
    all rationals.  A product of doubles is rounded and is not modelled:
    [Math.floor(n * f)] is a parameter ([floor_mul]). *)

From Stdlib Require QArith Qround DecimalPos DecimalZ.

Inductive JsNum :=
| NaN
| PosInf
| NegInf
| Fin (q : QArith_base.Q).

Definition num (n : Z) : JsNum := Fin (QArith_base.inject_Z n).

(** [Math.min(a, b)] *)
Definition jmin (a b : JsNum) : JsNum :=
  match a, b with
  | NaN, _ | _, NaN => NaN
  | NegInf, _ | _, NegInf => NegInf
  | PosInf, x | x, PosInf => x
  | Fin p, Fin q => if QArith_base.Qle_bool p q then Fin p else Fin q
  end.

(** [Math.max(a, b)] *)
Definition jmax (a b : JsNum) : JsNum :=
  match a, b with
  | NaN, _ | _, NaN => NaN
  | PosInf, _ | _, PosInf => PosInf
  | NegInf, x | x, NegInf => x
  | Fin p, Fin q => if QArith_base.Qle_bool p q then Fin q else Fin p
  end.

(** A number used as a condition: false for [NaN] and for zero. *)
Definition truthy (a : JsNum) : bool :=
  match a with
  | NaN => false
  | Fin q => negb (QArith_base.Qeq_bool q (QArith_base.inject_Z 0))
  | _ => true
  end.

(** [clamp] *)
Definition clamp (value min max : JsNum) : JsNum := jmax min (jmin max value).

(** [throw new ToolError(message)] or a returned value *)
Inductive Thrown (A : Type) :=
| Value (a : A)
| ToolError (message : text).
Arguments Value {A} a.
Arguments ToolError {A} message.

(** [parseOptionalTimeout]; [None] is [undefined]. *)
Definition parseOptionalTimeout (rawTimeout : option JsNum) : Thrown (option JsNum) :=
  match rawTimeout with
  | None => Value None
  | Some (Fin q) =>
      if QArith_base.Qle_bool q (QArith_base.inject_Z 0) then
        ToolError (str "timeout must be greater than 0 seconds")
      else Value (Some (clamp (num (Qround.Qfloor q)) (num 1) (num MAX_TIMEOUT_SECONDS)))
  | Some _ => ToolError (str "timeout must be a finite number")
  end.

(** Rounded products of doubles. *)
Class FloatArith := {
  (** [Math.floor(n * f)], for an integer [n] and the double that the
      decimal literal [f] denotes *)
  floor_mul : Z -> QArith_base.Q -> Z
}.

Section Sizes.

Context {fa : FloatArith}.

(** [initialCols] in [execute]: the override of the caller clamped to the
    terminal, else about 90% of the terminal.  [columns] is
    [tui.terminal.columns]. *)
Definition initialCols (size_cols : option JsNum) (columns : Z) : JsNum :=
  let maxCols := jmax (num 20) (num (columns - 2)) in
  match size_cols with
  | Some c =>
      if truthy c then clamp c (num 20) maxCols
      else jmax (num 20) (num (floor_mul columns (QArith_base.Qmake 9 10) - 2))
  | None => jmax (num 20) (num (floor_mul columns (QArith_base.Qmake 9 10) - 2))
  end.

(** [initialRows] in [execute]; [rows] is [tui.terminal.rows]. *)
Definition initialRows (size_rows : option JsNum) (rows : Z) : JsNum :=
  let maxRows := jmax (num 5) (num (rows - 4)) in
  match size_rows with
  | Some r =>
      if truthy r then clamp r (num 5) maxRows
      else jmax (num 5) (num (floor_mul rows (QArith_base.Qmake 8 10) - 4))
  | None => jmax (num 5) (num (floor_mul rows (QArith_base.Qmake 8 10) - 4))
  end.

End Sizes.

(** Exact products, for concrete runs. *)
Definition exact_arith : FloatArith :=
  {| floor_mul := fun n f => Qround.Qfloor (QArith_base.Qmult (QArith_base.inject_Z n) f) |}.

(** A character of a decimal numeral: a digit or the minus sign. *)
Definition dec_char (c : char) : Prop := (c = 45 \/ 48 <= c <= 57)%N.

(** The text of an exit code in the response: ["null"] or the decimal. *)
Definition code_text (c : option Z) : text :=
  match c with None => str "null" | Some c => dec c end.

(** A cell of width zero, as the emulator keeps behind a wide character. *)
Definition zero_width_cell : Cell := {|
  getWidth := 0; getChars := []; isInvisible := false;
  isAttributeDefault := true;
  getFgColorMode := 0; getBgColorMode := 0; getFgColor := 0; getBgColor := 0;
  isBold := false; isDim := false; isItalic := false; isUnderline := false;
  isBlink := false; isInverse := false; isStrikethrough := false;
  isFgRGB := false; isFgPalette := false; isBgRGB := false; isBgPalette := false
|}.

(** * Strings of JavaScript by code unit

    [length], [slice], [startsWith], [includes] and indexing work on the
    UTF-16 code units of a string.  In the modules below a string is the
    list of its code units. *)

Definition jstring : Type := list N.

(** [s.slice(start, end)]; [None] is an absent [end]. *)
Definition slice (s : jstring) (start : Z) (stop : option Z) : jstring :=
  let len := Z.of_nat (length s) in
  let index (r : Z) := if r <? 0 then Z.max (len + r) 0 else Z.min r len in
  let from := index start in
  let to := match stop with None => len | Some e => index e end in
  firstn (Z.to_nat (to - from)) (skipn (Z.to_nat from) s).

(** * core/streaming-output.ts: [OutputSink]

    The calls of [push] are taken one after the other, each awaited before
    the next, as the stream of [createInput] makes them.  [sanitizeText]
    (pi-utils) is a parameter.  The file of the sink is the text written to
    it; [chunks] is what [onChunk] is called with when the options hold
    one. *)

Module OutputSink.

Record File := {
  path : jstring;
  written : jstring
}.

Record Options := {
  (** the path that the [n]-th call of [allocateFilePath] returns *)
  allocateFilePath : nat -> jstring;
  spillThreshold : Z;
  (** [None] inside: the saver throws *)
  saveArtifact : option (jstring -> option jstring)
}.

Record State := {
  buffer : jstring;
  file : option File;
  chunks : list jstring;
  (** calls of [allocateFilePath] so far *)
  allocated : nat
}.

Record OutputResult := {
  output : jstring;
  truncated : bool;
  fullOutputPath : option jstring;
  artifactId : option jstring
}.

Definition create : State :=
  {| buffer := []; file := None; chunks := []; allocated := 0 |}.

Definition set_buffer (b : jstring) (st : State) : State :=
  {| buffer := b; file := file st; chunks := chunks st; allocated := allocated st |}.

Section Sink.

Variable sanitizeText : jstring -> jstring.
Variable o : Options.

(** [#fileSink]: opens the file on the first call and writes the buffer
    to it. *)
Definition fileSink (st : State) : State :=
  match file st with
  | Some _ => st
  | None =>
      {| buffer := buffer st;
         file := Some {| path := allocateFilePath o (allocated st);
                         written := buffer st |};
         chunks := chunks st;
         allocated := S (allocated st) |}
  end.

(** [sink.write(data)] *)
Definition sink_write (data : jstring) (st : State) : State :=
  match file st with
  | Some f =>
      {| buffer := buffer st;
         file := Some {| path := path f; written := written f ++ data |};
         chunks := chunks st;
         allocated := allocated st |}
  | None => st
  end.

Definition onChunk (data : jstring) (st : State) : State :=
  {| buffer := buffer st; file := file st; chunks := chunks st ++ [data];
     allocated := allocated st |}.

(** [#pushSanitized] *)
Definition pushSanitized (data : jstring) (st : State) : State :=
  let st := onChunk data st in
  let bufferOverflow :=
    Z.of_nat (length data) + Z.of_nat (length (buffer st)) >? spillThreshold o in
  let overflow := match file st with Some _ => true | None => false end || bufferOverflow in
  let st := if overflow then fileSink st else st in
  let st := set_buffer (buffer st ++ data) st in
  let st := if overflow then sink_write data st else st in
  if bufferOverflow then set_buffer (slice (buffer st) (- spillThreshold o) None) st
  else st.

(** [push] *)
Definition push (chunk : jstring) (st : State) : State :=
  pushSanitized (sanitizeText chunk) st.

(** The pushes of a stream, in order. *)
Definition pushes (cs : list jstring) (st : State) : State :=
  fold_left (fun st chunk => push chunk st) cs st.

(** [noticeLine] in [dump]; the empty notice counts as absent. *)
Definition noticeLine (notice : option jstring) : jstring :=
  match notice with
  | Some (c :: n) => str "[" ++ (c :: n) ++ str "]" ++ [NL]
  | _ => []
  end.

(** [dump] *)
Definition dump (notice : option jstring) (st : State) : OutputResult :=
  match file st with
  | Some f =>
      {| output := noticeLine notice ++ str "..." ++ buffer st;
         truncated := true;
         fullOutputPath := Some (path f);
         artifactId := match saveArtifact o with
                       | Some save => save (written f)
                       | None => None
                       end |}
  | None =>
      {| output := noticeLine notice ++ buffer st;
         truncated := false;
         fullOutputPath := None;
         artifactId := None |}
  end.

End Sink.

End OutputSink.

(** What the sink holds after it has taken the text [all]. *)
Definition sink_holds (o : OutputSink.Options) (all : jstring) (st : OutputSink.State)
  : Prop :=
  OutputSink.buffer st = slice all (- OutputSink.spillThreshold o) None
  /\ match OutputSink.file st with
     | None =>
         Z.of_nat (length all) <= OutputSink.spillThreshold o
         /\ OutputSink.allocated st = 0%nat
     | Some f =>
         OutputSink.spillThreshold o < Z.of_nat (length all)
         /\ OutputSink.written f = all
         /\ OutputSink.path f = OutputSink.allocateFilePath o 0
         /\ OutputSink.allocated st = 1%nat
     end.

(** A sink that keeps four code units, for concrete runs. *)
Definition small_sink : OutputSink.Options :=
  {| OutputSink.allocateFilePath := fun _ => str "/tmp/omp-1.log";
     OutputSink.spillThreshold := 4;
     OutputSink.saveArtifact := Some (fun content => Some (str "artifact-1")) |}.

(** * secrets/regex.ts *)

(** [throw new Error(message)] or a returned value *)
Inductive Except (A : Type) :=
| Return (a : A)
| Throw (message : jstring).
Arguments Return {A} a.
Arguments Throw {A} message.

Record ParsedSecretRegex := {
  pattern : jstring;
  flags : jstring
}.

Definition BACKSLASH : N := 92.
Definition SLASH : N := 47.

(** [s.startsWith(prefix)] *)
Definition startsWith (s prefix : jstring) : bool :=
  text_eqb (firstn (length prefix) s) prefix.

(** The loop of [parseSecretRegex] from index [i] on, where [rest] holds
    the code units from [i]; the result is [patternEnd]. *)
Fixpoint scan (rest : jstring) (i : Z) (escaped : bool) : Z :=
  match rest with
  | [] => -1
  | char :: rest =>
      if escaped then scan rest (i + 1) false
      else if (char =? BACKSLASH)%N then scan rest (i + 1) true
      else if (char =? SLASH)%N then i
      else scan rest (i + 1) false
  end.

(** [parseSecretRegex] *)
Definition parseSecretRegex (content : jstring) : Except ParsedSecretRegex :=
  if negb (startsWith content (str "/")) then
    Return {| pattern := content; flags := [] |}
  else
    let patternEnd := scan (skipn 1 content) 1 false in
    if patternEnd =? -1 then Throw (str "unterminated regex literal")
    else Return {| pattern := slice content 1 (Some patternEnd);
                   flags := slice content (patternEnd + 1) None |}.

(** [flags.includes("g")] *)
Definition includes_g (flags : jstring) : bool := existsb (N.eqb 103) flags.

(** [enforceGlobalFlag] *)
Definition enforceGlobalFlag (flags : jstring) : jstring :=
  if includes_g flags then flags else flags ++ str "g".

Definition is_high_surrogate (u : N) : bool := ((55296 <=? u) && (u <=? 56319))%N.
Definition is_low_surrogate (u : N) : bool := ((56320 <=? u) && (u <=? 57343))%N.

(** The strings that the iterator of a string yields: one per code point,
    a surrogate pair being one, a lone surrogate one of its own. *)
Fixpoint code_points (s : jstring) : list jstring :=
  match s with
  | [] => []
  | u :: r =>
      match r with
      | v :: r' =>
          if is_high_surrogate u && is_low_surrogate v then [u; v] :: code_points r'
          else [u] :: code_points r
      | [] => [[u]]
      end
  end.

(** [set.add(x)] on the entries of a [Set] in insertion order *)
Definition Set_add (set : list jstring) (x : jstring) : list jstring :=
  if existsb (text_eqb x) set then set else set ++ [x].

(** [new Set(items)] *)
Definition new_Set (items : list jstring) : list jstring :=
  fold_left Set_add items [].

(** [deduplicateFlags] *)
Definition deduplicateFlags (flags : jstring) : jstring :=
  concat (new_Set (code_points flags)).

(** [compileSecretRegex].  The constructor [new RegExp(pattern, flags)] is
    a parameter: it returns the expression, or throws for a pattern or for
    flags that it does not accept.  An absent and an empty [extraFlags] are
    both falsy. *)
Section Compile.

Variable RegExp : Type.
Variable new_RegExp : jstring -> jstring -> Except RegExp.

Definition compileSecretRegex (content : jstring) (extraFlags : option jstring)
  : Except RegExp :=
  match parseSecretRegex content with
  | Throw m => Throw m
  | Return parsed =>
      let merged :=
        match extraFlags with
        | Some (c :: e) => deduplicateFlags (flags parsed ++ c :: e)
        | _ => flags parsed
        end in
      new_RegExp (pattern parsed) (enforceGlobalFlag merged)
  end.

End Compile.

(** A regular expression as its source and its flags, for concrete
    runs. *)
Record RegExpArgs := {
  re_pattern : jstring;
  re_flags : jstring
}.

(** A constructor for concrete runs: it takes any pattern, and the flags
    [d g i m s u v y], each once at most. *)
Definition checked_RegExp (pattern flags : jstring) : Except RegExpArgs :=
  if forallb (fun u => existsb (N.eqb u) (str "dgimsuvy")) flags
     && (length (nodup N.eq_dec flags) =? length flags)%nat
  then Return {| re_pattern := pattern; re_flags := flags |}
  else Throw (str "Invalid flags supplied to RegExp constructor").

(** The number of backslashes at the end of [p]. *)
Fixpoint leading_backslashes (p : jstring) : nat :=
  match p with
  | c :: r => if (c =? BACKSLASH)%N then S (leading_backslashes r) else 0
  | [] => 0
  end.

Definition trailing_backslashes (p : jstring) : nat := leading_backslashes (rev p).

(** Every slash of [p] is escaped: it follows an odd number of
    backslashes. *)
Definition slashes_escaped (p : jstring) : Prop :=
  forall a b, p = a ++ SLASH :: b -> Nat.odd (trailing_backslashes a) = true.

(** The code units of an optional string. *)
Definition units_of (s : option jstring) : jstring :=
  match s with Some e => e | None => [] end.

Definition is_surrogate (u : N) : bool := is_high_surrogate u || is_low_surrogate u.

(** * natives/request-options.ts

    The promise that [wrapRequestOptions] returns, with the timer, the
    abort listener and the call of [fn] behind it.  What happens afterwards
    is a sequence of events: the signal aborts, the timer fires, the promise
    of [fn] is settled.  [fn] is taken to return a promise, as its type
    says. *)

Module RequestOptions.

Section Request.

(** [T]: the values that [fn] resolves to; [V]: the values from outside
    that a promise is rejected with or that a signal gives as its reason. *)
Variables T V : Type.

(** [signal.reason] *)
Inductive Reason :=
| Falsy
| AnError (e : V)
| Another (v : V).

Inductive Failure :=
| Given (v : V)
| RequestAborted (cause : option V)
| RequestTimedOut (timeoutMs : JsNum).

Inductive Outcome :=
| Fulfilled (v : T)
| Rejected (e : Failure).

Record AbortSignal := {
  aborted : bool;
  reason : Reason
}.

Record RequestOptions := {
  timeoutMs : option JsNum;
  signal : option AbortSignal
}.

(** [abortReason] *)
Definition abortReason (signal : option AbortSignal) : Failure :=
  match signal with
  | None => RequestAborted None
  | Some s =>
      match reason s with
      | Falsy => RequestAborted None
      | AnError e => Given e
      | Another v => RequestAborted (Some v)
      end
  end.

(** The function that serves the request. *)
Inductive Wrapper :=
| Direct
| Thrown
| AbortOnly
| Timed (timeoutMs : JsNum).

Record State := {
  st_signal : option AbortSignal;
  wrapper : Wrapper;
  (** the returned promise: [None] while it is pending *)
  promise : option Outcome;
  (** calls of [fn] *)
  calls : nat;
  (** the promise of [fn] is pending *)
  running : bool;
  (** the timer is set *)
  timer : bool;
  (** [onAbort] is registered on the signal *)
  listening : bool;
  settled : bool
}.

Definition set_signal (x : option AbortSignal) (st : State) : State :=
  {| st_signal := x; wrapper := wrapper st; promise := promise st; calls := calls st;
     running := running st; timer := timer st; listening := listening st;
     settled := settled st |}.

Definition set_promise (x : option Outcome) (st : State) : State :=
  {| st_signal := st_signal st; wrapper := wrapper st; promise := x; calls := calls st;
     running := running st; timer := timer st; listening := listening st;
     settled := settled st |}.

Definition set_running (x : bool) (st : State) : State :=
  {| st_signal := st_signal st; wrapper := wrapper st; promise := promise st;
     calls := calls st; running := x; timer := timer st; listening := listening st;
     settled := settled st |}.

Definition set_timer (x : bool) (st : State) : State :=
  {| st_signal := st_signal st; wrapper := wrapper st; promise := promise st;
     calls := calls st; running := running st; timer := x; listening := listening st;
     settled := settled st |}.

Definition set_listening (x : bool) (st : State) : State :=
  {| st_signal := st_signal st; wrapper := wrapper st; promise := promise st;
     calls := calls st; running := running st; timer := timer st; listening := x;
     settled := settled st |}.

Definition set_settled (x : bool) (st : State) : State :=
  {| st_signal := st_signal st; wrapper := wrapper st; promise := promise st;
     calls := calls st; running := running st; timer := timer st;
     listening := listening st; settled := x |}.

(** [resolve(v)] and [reject(e)]: a promise that is settled stays as it
    is. *)
Definition conclude (o : Outcome) (st : State) : State :=
  match promise st with
  | Some _ => st
  | None => set_promise (Some o) st
  end.

(** [fn()] *)
Definition call_fn (st : State) : State :=
  {| st_signal := st_signal st; wrapper := wrapper st; promise := promise st;
     calls := S (calls st); running := true; timer := timer st;
     listening := listening st; settled := settled st |}.

Definition new_request (signal : option AbortSignal) (w : Wrapper) : State :=
  {| st_signal := signal; wrapper := w; promise := None; calls := 0; running := false;
     timer := false; listening := false; settled := false |}.

(** [onAbort] in [withAbortSignal] *)
Definition onAbort (st : State) : State :=
  let st := set_listening false st in
  conclude (Rejected (abortReason (st_signal st))) st.

(** [withAbortSignal] *)
Definition withAbortSignal (signal : AbortSignal) : State :=
  let st := new_request (Some signal) AbortOnly in
  let st := set_listening true st in
  if aborted signal then onAbort st else call_fn st.

(** [cleanup] in [withTimeoutAndOptionalAbort] *)
Definition cleanup (st : State) : State :=
  let st := if timer st then set_timer false st else st in
  match st_signal st with
  | Some _ => set_listening false st
  | None => st
  end.

(** [settle] in [withTimeoutAndOptionalAbort] *)
Definition settle (o : Outcome) (st : State) : State :=
  if settled st then st
  else conclude o (cleanup (set_settled true st)).

(** [withTimeoutAndOptionalAbort] *)
Definition withTimeoutAndOptionalAbort (timeoutMs : JsNum) (signal : option AbortSignal)
  : State :=
  let st := new_request signal (Timed timeoutMs) in
  let st := set_timer true st in
  match signal with
  | Some s =>
      let st := set_listening true st in
      if aborted s then settle (Rejected (abortReason signal)) st else call_fn st
  | None => call_fn st
  end.

(** [timeoutMs <= 0] *)
Definition le0 (n : JsNum) : bool :=
  match n with
  | NaN | PosInf => false
  | NegInf => true
  | Fin q => QArith_base.Qle_bool q (QArith_base.inject_Z 0)
  end.

Definition timeout_of (options : option RequestOptions) : JsNum :=
  match options with
  | Some o => match timeoutMs o with Some n => n | None => num 0 end
  | None => num 0
  end.

Definition signal_of (options : option RequestOptions) : option AbortSignal :=
  match options with
  | Some o => signal o
  | None => None
  end.

Definition signal_aborted (signal : option AbortSignal) : bool :=
  match signal with
  | Some s => aborted s
  | None => false
  end.

(** [wrapRequestOptions] *)
Definition wrapRequestOptions (options : option RequestOptions) : State :=
  let timeoutMs := timeout_of options in
  let signal := signal_of options in
  match signal with
  | None =>
      if le0 timeoutMs then call_fn (new_request None Direct)
      else withTimeoutAndOptionalAbort timeoutMs None
  | Some s =>
      if aborted s then conclude (Rejected (abortReason signal)) (new_request signal Thrown)
      else if le0 timeoutMs then withAbortSignal s
      else withTimeoutAndOptionalAbort timeoutMs signal
  end.

Inductive Event :=
| Abort (r : Reason)
| TimerFires
| Completes (r : T + V).

Definition outcome_of (r : T + V) : Outcome :=
  match r with
  | inl v => Fulfilled v
  | inr e => Rejected (Given e)
  end.

(** What an event does: a signal aborts once and calls a listener that
    was added with [once] after it has removed it; a timer fires while it
    is set; the callbacks of [fn().then] run when the promise of [fn] is
    settled. *)
Definition step (st : State) (ev : Event) : State :=
  match ev with
  | Abort r =>
      match st_signal st with
      | Some s =>
          if aborted s then st
          else
            let st := set_signal (Some {| aborted := true; reason := r |}) st in
            if listening st then
              let st := set_listening false st in
              match wrapper st with
              | AbortOnly => onAbort st
              | Timed _ => settle (Rejected (abortReason (st_signal st))) st
              | _ => st
              end
            else st
      | None => st
      end
  | TimerFires =>
      if timer st then
        let st := set_timer false st in
        match wrapper st with
        | Timed ms => settle (Rejected (RequestTimedOut ms)) st
        | _ => st
        end
      else st
  | Completes r =>
      if running st then
        let st := set_running false st in
        match wrapper st with
        | Direct => conclude (outcome_of r) st
        | AbortOnly => conclude (outcome_of r) (set_listening false st)
        | Timed _ => settle (outcome_of r) st
        | Thrown => st
        end
      else st
  end.

Definition run (st : State) (tr : list Event) : State := fold_left step tr st.

(** What an event decides when it is the first that counts: the
    completion of [fn] always, an abort when there is a signal, the timer
    when there is a timeout above zero. *)
Definition decision (options : option RequestOptions) (ev : Event) : option Outcome :=
  match ev with
  | Completes r => Some (outcome_of r)
  | Abort r =>
      match signal_of options with
      | Some _ => Some (Rejected (abortReason (Some {| aborted := true; reason := r |})))
      | None => None
      end
  | TimerFires =>
      if le0 (timeout_of options) then None
      else Some (Rejected (RequestTimedOut (timeout_of options)))
  end.

Fixpoint first_decision (options : option RequestOptions) (tr : list Event)
  : option Outcome :=
  match tr with
  | [] => None
  | ev :: tr =>
      match decision options ev with
      | Some o => Some o
      | None => first_decision options tr
      end
  end.

End Request.

End RequestOptions.

(** A request that is settled with [o] and has let go of its timer and
    its listener. *)
Definition Done {T V : Type} (o : RequestOptions.Outcome T V)
    (st : RequestOptions.State T V) : Prop :=
  RequestOptions.promise st = Some o
  /\ RequestOptions.timer st = false
  /\ RequestOptions.listening st = false
  /\ (forall ms, RequestOptions.wrapper st = RequestOptions.Timed ms ->
                 RequestOptions.settled st = true).

(** A request with a timeout of 500 ms and a signal, for concrete runs. *)
Definition timed_request : option (RequestOptions.RequestOptions N) :=
  Some {| RequestOptions.timeoutMs := Some (num 500);
          RequestOptions.signal :=
            Some {| RequestOptions.aborted := false;
                    RequestOptions.reason := RequestOptions.Falsy N |} |}.

(** * core/title-generator.ts *)

Module TitleGenerator.

Record Model := {
  provider : jstring;
  id : jstring
}.

(** [ModelRegistry]: [getApiKey] is taken to give the same answer each time
    it is asked about a model; [None] is [undefined]. *)
Record ModelRegistry := {
  getAll : list Model;
  getApiKey : Model -> option jstring
}.

(** A key that counts as one: a string that is not empty. *)
Definition has_key (registry : ModelRegistry) (model : Model) : bool :=
  match getApiKey registry model with
  | Some (_ :: _) => true
  | _ => false
  end.

(** The case folding of a regular expression with the flag [i] and without
    the flag [u], on a pattern of ASCII characters: only the ASCII letters
    are folded. *)
Definition canonicalize (u : N) : N :=
  if ((97 <=? u) && (u <=? 122))%N then (u - 32)%N else u.

Fixpoint matches_at (s pat : jstring) : bool :=
  match pat, s with
  | [], _ => true
  | p :: pat, c :: s => (canonicalize c =? canonicalize p)%N && matches_at s pat
  | _ :: _, [] => false
  end.

(** [/pat/i.test(s)] for a pattern of literal characters *)
Fixpoint test_i (pat s : jstring) : bool :=
  matches_at s pat
  || match s with
     | [] => false
     | _ :: s => test_i pat s
     end.

(** A preference: the provider and the alternatives of the pattern. *)
Record Preference := {
  pref_provider : jstring;
  pref_pattern : list jstring
}.

Definition preferences : list Preference :=
  [ {| pref_provider := str "anthropic"; pref_pattern := [str "haiku"] |};
    {| pref_provider := str "openai";
       pref_pattern := [str "gpt-4o-mini"; str "gpt-4.1-mini"] |};
    {| pref_provider := str "google"; pref_pattern := [str "flash"] |};
    {| pref_provider := str "anthropic"; pref_pattern := [str "sonnet"] |} ].

(** [m.provider === pref.provider && pref.pattern.test(m.id)] *)
Definition preferred (pref : Preference) (m : Model) : bool :=
  text_eqb (provider m) (pref_provider pref)
  && existsb (fun pat => test_i pat (id m)) (pref_pattern pref).

(** The loop over the preferences in [findTitleModel]. *)
Fixpoint by_preference (registry : ModelRegistry) (prefs : list Preference)
  : option Model :=
  match prefs with
  | [] => None
  | pref :: prefs =>
      let models := filter (preferred pref) (getAll registry) in
      match find (has_key registry) models with
      | Some model => Some model
      | None => by_preference registry prefs
      end
  end.

(** [findTitleModel] *)
Definition findTitleModel (registry : ModelRegistry) : option Model :=
  match by_preference registry preferences with
  | Some model => Some model
  | None => find (has_key registry) (getAll registry)
  end.

(** An item of [response.content] *)
Inductive Content :=
| TextContent (text : jstring)
| OtherContent.

Definition text_of (content : Content) : jstring :=
  match content with
  | TextContent text => text
  | OtherContent => []
  end.

Definition MAX_INPUT_CHARS : Z := 2000.

(** [truncatedMessage] in [generateSessionTitle] *)
Definition truncatedMessage (firstMessage : jstring) : jstring :=
  if Z.of_nat (length firstMessage) >? MAX_INPUT_CHARS
  then slice firstMessage 0 (Some MAX_INPUT_CHARS) ++ str "..."
  else firstMessage.

(** [s.trim()] *)
Definition trim (s : jstring) : jstring := rstrip (drop_spaces s).

Definition is_quote (u : N) : bool := ((u =? 34) || (u =? 39))%N.

Definition is_end_mark (u : N) : bool := ((u =? 46) || (u =? 33) || (u =? 63))%N.

(** [s] without its last code unit when that one meets [p]. *)
Definition drop_last_if (p : N -> bool) (s : jstring) : jstring :=
  match rev s with
  | c :: r => if p c then rev r else s
  | [] => s
  end.

(** [s.replace(/^["']|["']$/g, "")]: a quote at the start goes, and so
    does a quote at the end of what is left. *)
Definition strip_quotes (s : jstring) : jstring :=
  drop_last_if is_quote
    match s with
    | c :: r => if is_quote c then r else s
    | [] => s
    end.

(** [s.replace(/[.!?]$/, "")] *)
Definition strip_end_mark (s : jstring) : jstring := drop_last_if is_end_mark s.

Section Title.

(** [completeSimple] (pi-ai) with the model, the API key and the content
    of the user message; [None]: it throws. *)
Variable completeSimple : Model -> jstring -> jstring -> option (list Content).

(** [generateSessionTitle] *)
Definition generateSessionTitle (firstMessage : jstring) (registry : ModelRegistry)
  : option jstring :=
  match findTitleModel registry with
  | None => None
  | Some model =>
      match getApiKey registry model with
      | Some (k :: key) =>
          match completeSimple model (k :: key) (truncatedMessage firstMessage) with
          | Some content =>
              let title := trim (concat (map text_of content)) in
              if (Z.of_nat (length title) =? 0) || (Z.of_nat (length title) >? 60)
              then None
              else Some (strip_end_mark (strip_quotes title))
          | None => None
          end
      | _ => None
      end
  end.

End Title.

End TitleGenerator.

(** A registry with three models that have a key, for concrete runs. *)
Definition three_models : TitleGenerator.ModelRegistry :=
  {| TitleGenerator.getAll :=
       [ {| TitleGenerator.provider := str "openai"; TitleGenerator.id := str "gpt-4o" |};
         {| TitleGenerator.provider := str "anthropic";
            TitleGenerator.id := str "claude-3-5-sonnet" |};
         {| TitleGenerator.provider := str "anthropic";
            TitleGenerator.id := str "Claude-3-HAIKU" |} ];
     TitleGenerator.getApiKey := fun _ => Some (str "key") |}.

(** A completion that answers with a fixed title, for concrete runs. *)
Definition fixed_title (model : TitleGenerator.Model) (key message : jstring)
  : option (list TitleGenerator.Content) :=
  Some [TitleGenerator.TextContent (str " 'Fix the build.' ")].

(** [t] is [s], or [s] without a last code unit that meets [p]. *)
Definition drop_last_if_cases (p : N -> bool) (s t : jstring) : Prop :=
  t = s \/ exists c, s = t ++ [c] /\ p c = true.

Definition is_quote_or_mark (u : N) : bool :=
  TitleGenerator.is_quote u || TitleGenerator.is_end_mark u.

(** * The renderer of the tool result *)

(** The icons of [renderStatusLine] that the renderer asks for. *)
Inductive StatusIcon := icon_pending | icon_error | icon_warning | icon_success.

(** [details?.exitCode !== null && details?.exitCode !== 0]; without
    details the exit code is [undefined], which is neither. *)
Definition nonZeroExit (details : option RunInteractiveTermToolDetails) : bool :=
  match details with
  | None => true
  | Some d =>
      match d_exitCode d with
      | None => false
      | Some c => negb (c =? 0)
      end
  end.

(** [isWarning] in [renderResult] *)
Definition isWarning (details : option RunInteractiveTermToolDetails) : bool :=
  nonZeroExit details
  || match details with Some d => d_timedOut d | None => false end
  || match details with Some d => d_dismissedByUser d | None => false end.

(** The icon of the header in [renderResult]; [isError] may be absent. *)
Definition result_icon (isError : option bool)
    (details : option RunInteractiveTermToolDetails) : StatusIcon :=
  if match isError with Some b => b | None => false end then icon_error
  else if isWarning details then icon_warning
  else icon_success.

(** The details that [execute] hands to [toolResult]. *)
Definition details_of (execution : InteractiveTermExecutionResult)
  : RunInteractiveTermToolDetails :=
  {| d_exitCode := exitCode execution;
     d_timedOut := timedOut execution;
     d_dismissedByUser := dismissedByUser execution;
     d_scrollbackTruncated := scrollbackTruncated execution |}.

(** * Line display mode of file-like outputs *)

Module FileDisplay.

(** A value of a setting, of type [unknown]. *)
Inductive JsValue :=
| JsTrue
| JsFalse
| JsString (s : jstring)
| JsOther.

Inductive SettingKey := readLineNumbers | readHashLines | edit_mode.

Record FileDisplayModeSession := {
  hasEditTool : option bool;
  settings_get : SettingKey -> JsValue
}.

Record FileDisplayMode := {
  lineNumbers : bool;
  hashLines : bool
}.

(** [v === true] *)
Definition is_true (v : JsValue) : bool :=
  match v with JsTrue => true | _ => false end.

(** [v === "hashline"] *)
Definition is_hashline (v : JsValue) : bool :=
  match v with JsString s => text_eqb s (str "hashline") | _ => false end.

(** [resolveFileDisplayMode]; [PI_EDIT_VARIANT] is the variable of the
    environment, [None] when it is not set. *)
Definition resolveFileDisplayMode (PI_EDIT_VARIANT : option jstring)
    (session : FileDisplayModeSession) : FileDisplayMode :=
  let hasEditTool := match hasEditTool session with Some b => b | None => true end in
  let hashLines :=
    hasEditTool
    && (is_true (settings_get session readHashLines)
        || is_hashline (settings_get session edit_mode)
        || match PI_EDIT_VARIANT with
           | Some v => text_eqb v (str "hashline")
           | None => false
           end) in
  {| hashLines := hashLines;
     lineNumbers := hashLines || is_true (settings_get session readLineNumbers) |}.

End FileDisplay.

(** * The frame of the overlay

    The theme and the text utilities of the TUI package are parameters:
    the frame is built from what they return. *)

Class Theme := {
  (** [uiTheme.fg(color, text)] *)
  theme_fg : text -> text -> text;
  (** [uiTheme.boxSharp] *)
  box_vertical : text;
  box_horizontal : text;
  box_topLeft : text;
  box_topRight : text;
  box_bottomLeft : text;
  box_bottomRight : text;
  (** [getStateIcon(name, uiTheme)] *)
  getStateIcon : text -> text;
  (** [wrapBrackets(text, uiTheme)] *)
  wrapBrackets : text -> text;
  visibleWidth : text -> Z;
  (** [truncateToWidth(text, maxWidth)] *)
  truncateToWidth : text -> Z -> text;
  padding : Z -> text;
  replaceTabs : text -> text
}.

(** The cells of the active buffer: [buffer.active.viewportY] and
    [buffer.active.getLine(y)]. *)
Class CellBuffer (B : Type) := {
  em_viewportY : B -> Z;
  em_cells : B -> Z -> option BufferLine
}.

Section Frame.

Context {B : Type} {emu : Emulator B} {cells : CellBuffer B}.
Context {theme : Theme} {fa : FloatArith}.

(** [statusIcon] *)
Definition statusIcon (state : OverlayState) (exitCode : option Z) : text :=
  match state with
  | running => getStateIcon (str "running")
  | timed_out => getStateIcon (str "warning")
  | killed => getStateIcon (str "warning")
  | complete =>
      match exitCode with
      | Some 0 => getStateIcon (str "success")
      | _ => getStateIcon (str "error")
      end
  end.

(** [statusText] *)
Definition statusText (state : OverlayState) (exitCode : option Z) : text :=
  match state with
  | running => theme_fg (str "warning") (str "running")
  | timed_out => theme_fg (str "warning") (str "timed out")
  | killed => theme_fg (str "warning") (str "killed")
  | complete =>
      match exitCode with
      | Some 0 => theme_fg (str "success") (str "exit 0")
      | None => theme_fg (str "warning") (str "exited")
      | Some c => theme_fg (str "error") (str "exit " ++ dec c)
      end
  end.

(** The fields of the overlay that [render] reads. *)
Record Overlay := {
  o_command : text;
  (** [getTerminalRows()] *)
  o_terminalRows : Z;
  o_term : B;
  o_state : OverlayState;
  o_exitCode : option Z
}.

(** [#boxLine] *)
Definition boxLine (line : text) (innerWidth : Z) : text :=
  let border := theme_fg (str "border") box_vertical in
  let fill := Z.max 0 (innerWidth - visibleWidth line) in
  border ++ line ++ padding fill ++ border.

(** [#header] *)
Definition header (o : Overlay) (innerWidth : Z) : text :=
  let icon := statusIcon (o_state o) (o_exitCode o) in
  let title := theme_fg (str "accent") (str "InteractiveTerm") in
  let status := statusText (o_state o) (o_exitCode o) in
  let statusBadge := theme_fg (str "dim") (wrapBrackets status) in
  let prefix := icon ++ str " " ++ title ++ str " " in
  let suffix := str " " ++ statusBadge in
  let available := Z.max 1 (innerWidth - visibleWidth prefix - visibleWidth suffix) in
  let cmd := truncateToWidth (theme_fg (str "muted") (replaceTabs (o_command o))) available in
  truncateToWidth (prefix ++ cmd ++ suffix) innerWidth.

(** The middle dot of the footer, U+00B7. *)
Definition MIDDLE_DOT : char := 183%N.

(** [#footer] *)
Definition footer (o : Overlay) (innerWidth : Z) : text :=
  match o_state o with
  | running =>
      let esc := theme_fg (str "warning") (str "esc") in
      let hint := theme_fg (str "dim") (str "force-kill") in
      let sep := theme_fg (str "dim") (str " " ++ [MIDDLE_DOT] ++ str " ") in
      let input := theme_fg (str "dim") (str "input forwarded to PTY") in
      truncateToWidth (esc ++ str " " ++ hint ++ sep ++ input) innerWidth
  | _ => truncateToWidth (theme_fg (str "dim") (str "session finished")) innerWidth
  end.

(** [s.repeat(n)] *)
Definition repeat_text (s : text) (n : Z) : text := concat (repeat s (Z.to_nat n)).

(** The rows of the buffer that [render] shows. *)
Definition contentRows (o : Overlay) : Z :=
  let maxOverlayRows := Z.max 5 (floor_mul (o_terminalRows o) (QArith_base.Qmake 8 10)) in
  let chromeRows := 4 in
  let maxContentRows := Z.max 1 (maxOverlayRows - chromeRows) in
  Z.min maxContentRows (em_rows (o_term o)).

(** [render] *)
Definition render (o : Overlay) (width : Z) : list text :=
  let safeWidth := Z.max 20 width in
  let innerWidth := Z.max 1 (safeWidth - 2) in
  let startY := em_viewportY (o_term o) in
  let content :=
    map (fun row => renderBufferLineAnsi (em_cells (o_term o) (startY + row)) innerWidth)
      (for_range 0 (contentRows o)) in
  let content := match content with [] => [padding innerWidth] | _ => content end in
  let border := theme_fg (str "border") (repeat_text box_horizontal innerWidth) in
  let top := theme_fg (str "border") box_topLeft ++ border
             ++ theme_fg (str "border") box_topRight in
  let bottom := theme_fg (str "border") box_bottomLeft ++ border
                ++ theme_fg (str "border") box_bottomRight in
  [top; boxLine (header o innerWidth) innerWidth]
  ++ map (fun line => boxLine line innerWidth) content
  ++ [boxLine (footer o innerWidth) innerWidth; bottom].

End Frame.

(** A theme without colours, for concrete runs: the width of a text is its
    length. *)
Definition plain_theme : Theme := {|
  theme_fg := fun _ t => t;
  box_vertical := str "|";
  box_horizontal := str "-";
  box_topLeft := str "+";
  box_topRight := str "+";
  box_bottomLeft := str "+";
  box_bottomRight := str "+";
  getStateIcon := fun name => name;
  wrapBrackets := fun t => str "[" ++ t ++ str "]";
  visibleWidth := fun t => Z.of_nat (length t);
  truncateToWidth := fun t w => firstn (Z.to_nat w) t;
  padding := spaces;
  replaceTabs := fun t => t
|}.

(** The cells of the line-oriented emulator: one plain cell per
    character. *)
Definition line_cells : CellBuffer LineTerm.t := {|
  em_viewportY := LineTerm.baseY;
  em_cells := fun b y =>
    option_map
      (map (fun c => {|
         getWidth := 1; getChars := [c]; isInvisible := false;
         isAttributeDefault := true;
         getFgColorMode := 0; getBgColorMode := 0; getFgColor := 0; getBgColor := 0;
         isBold := false; isDim := false; isItalic := false; isUnderline := false;
         isBlink := false; isInverse := false; isStrikethrough := false;
         isFgRGB := false; isFgPalette := false; isBgRGB := false;
         isBgPalette := false |}))
      (LineTerm.line b y)
|}.

(** An overlay of two rows on a terminal of ten rows, for concrete runs. *)
Definition small_overlay : Overlay (B := LineTerm.t) := {|
  o_command := str "ls";
  o_terminalRows := 10;
  o_term := LineTerm.of_lines [str "a.txt"; str "b.txt"];
  o_state := running;
  o_exitCode := None
|}.

(** A turn in which the session asks the host for a render: a chunk of
    output or an exit report. *)
Definition asks_render (ev : Event) : bool :=
  match ev with
  | EvData _ | EvExit _ => true
  | _ => false
  end.

(** [t] as a terminal shows it, without its escape sequences of the SGR
    form: a sequence runs from the escape character to the next ["m"].
    [inside] says that [t] starts inside of a sequence. *)
Fixpoint strip_sgr (inside : bool) (t : text) : text :=
  match t with
  | [] => []
  | c :: r =>
      if inside then strip_sgr (negb (c =? 109)%N) r
      else if (c =? ESC)%N then strip_sgr true r
      else c :: strip_sgr false r
  end.

(** A character of the codes of an SGR sequence: a digit, the minus sign
    or the semicolon. *)
Definition code_char (c : char) : Prop := dec_char c \/ c = 59%N.

(** * The overlay host disposes the component *)

(** A turn of the overlay host: a turn of the event loop as in [step], or
    the call of [component.dispose()]. *)
Inductive HostEvent :=
| Turn (ev : Event)
| Dispose.

Section Disposal.

Context {B : Type} {emu : Emulator B} {host : Host}.

(** [term.dispose()] of the emulator is outside of the code at hand.  It
    is a parameter: from the buffer and the write queue it gives the buffer
    and the queue that it leaves, and whether it returns ([true]) or
    throws. *)
Variable term_dispose : B -> list WriteItem -> B * list WriteItem * bool.

(** The handler given to [component.setDisposeHandler] *)
Definition onDispose (s : Session (B := B)) : Session := killPty SIGKILL s.

(** [component.dispose]: the emulator is disposed of, then the dispose
    handler runs.  [setDisposeHandler] is called right after
    [setInputHandlers]; before, the handler is the empty function. *)
Definition component_dispose (s : Session (B := B)) : Session :=
  let '(b, q, returns) := term_dispose (c_buffer (comp s)) (c_queue (comp s)) in
  let s1 := with_comp (set_term b q) s in
  if returns then (if c_wired (comp s1) then onDispose s1 else s1) else s1.

(** One turn of the overlay host. *)
Definition host_step (s : Session (B := B)) (ev : HostEvent) : Session :=
  match ev with
  | Turn e => step s e
  | Dispose => component_dispose s
  end.

Definition host_run (s : Session (B := B)) (tr : list HostEvent) : Session :=
  fold_left host_step tr s.

End Disposal.

(** An emulator whose [dispose] drops the writes that it has not parsed,
    for concrete runs. *)
Definition dropping_dispose (b : LineTerm.t) (q : list WriteItem)
  : LineTerm.t * list WriteItem * bool :=
  (b, [], true).

(** * Properties *)

(** ** Lines and blank-line trimming *)

Lemma drop_spaces_split (l : text) :
  exists ws, l = ws ++ drop_spaces l /\ forallb is_space ws = true.
Proof.
  induction l as [|c l IH]; simpl.
  - exists []. auto.
  - destruct (is_space c) eqn:E.
    + destruct IH as [ws [Hl Hws]]. exists (c :: ws). simpl.
      rewrite E, Hws. split; [congruence | reflexivity].
    + exists []. auto.
Qed.

Lemma drop_spaces_head (l : text) (c : char) (r : text) :
  drop_spaces l = c :: r -> is_space c = false.
Proof.
  induction l as [|a l IH]; simpl; [discriminate|].
  destruct (is_space a) eqn:E; [exact IH|].
  intros Heq. inversion Heq. subst. exact E.
Qed.


(** [rstrip] removes a run of white space at the end, and all of it. *)
Lemma rstrip_spec (l : text) :
  (exists ws, l = rstrip l ++ ws /\ forallb is_space ws = true)
  /\ (forall c, last_char (rstrip l) = Some c -> is_space c = false).
Proof.
  unfold rstrip, last_char. split.
  - destruct (drop_spaces_split (rev l)) as [ws [Hl Hws]].
    exists (rev ws). split.
    + rewrite <- rev_app_distr, <- Hl, rev_involutive. reflexivity.
    + rewrite forallb_forall in *. intros x Hx. apply Hws. now apply in_rev.
  - intros c. rewrite rev_involutive.
    destruct (drop_spaces (rev l)) as [|a r] eqn:E; simpl; [discriminate|].
    intros Hc. inversion Hc. subst. eapply drop_spaces_head. exact E.
Qed.

Lemma shift_blank_split (ls : list text) :
  exists pre, ls = pre ++ shift_blank ls /\ forallb is_blank pre = true.
Proof.
  induction ls as [|l ls IH]; simpl.
  - exists []. auto.
  - destruct (is_blank l) eqn:E.
    + destruct IH as [pre [Hl Hpre]]. exists (l :: pre). simpl.
      rewrite E, Hpre. split; [congruence | reflexivity].
    + exists []. auto.
Qed.

Lemma shift_blank_head (ls : list text) (l : text) (r : list text) :
  shift_blank ls = l :: r -> is_blank l = false.
Proof.
  induction ls as [|a ls IH]; simpl; [discriminate|].
  destruct (is_blank a) eqn:E; [exact IH|].
  intros Heq. inversion Heq. subst. exact E.
Qed.

Lemma shift_blank_fixed (ls : list text) (l : text) :
  hd_error ls = Some l -> is_blank l = false -> shift_blank ls = ls.
Proof.
  destruct ls as [|a ls]; simpl; [discriminate|].
  intros Hhd Hl. inversion Hhd. subst. now rewrite Hl.
Qed.

Lemma pop_blank_split (ls : list text) :
  exists post, ls = pop_blank ls ++ post /\ forallb is_blank post = true.
Proof.
  unfold pop_blank. destruct (shift_blank_split (rev ls)) as [pre [Hl Hpre]].
  exists (rev pre). split.
  - rewrite <- rev_app_distr, <- Hl, rev_involutive. reflexivity.
  - rewrite forallb_forall in *. intros x Hx. apply Hpre. now apply in_rev.
Qed.

Lemma pop_blank_last (ls : list text) (l : text) :
  hd_error (rev (pop_blank ls)) = Some l -> is_blank l = false.
Proof.
  unfold pop_blank. rewrite rev_involutive.
  destruct (shift_blank (rev ls)) as [|a r] eqn:E; simpl; [discriminate|].
  intros Hc. inversion Hc. subst. eapply shift_blank_head. exact E.
Qed.

(** Popping at the end leaves the first line in place, unless every line
    goes. *)
Lemma pop_blank_head (ls : list text) (l : text) :
  hd_error (pop_blank ls) = Some l -> hd_error ls = Some l.
Proof.
  destruct (pop_blank_split ls) as [post [Hl _]].
  destruct (pop_blank ls) as [|a r]; simpl; [discriminate|].
  intros Hhd. rewrite Hl. exact Hhd.
Qed.


Lemma trim_blank_lines_stripped (ls : list text) :
  stripped ls (trim_blank_lines ls).
Proof.
  unfold trim_blank_lines.
  destruct (shift_blank_split ls) as [pre [Hpre Hbpre]].
  destruct (pop_blank_split (shift_blank ls)) as [post [Hpost Hbpost]].
  exists pre, post. repeat split; try assumption.
  - rewrite <- Hpost. exact Hpre.
  - intros l Hhd. apply pop_blank_head in Hhd.
    destruct (shift_blank ls) as [|a r] eqn:E; simpl in Hhd; [discriminate|].
    inversion Hhd. subst. eapply shift_blank_head. exact E.
  - intros l. apply pop_blank_last.
Qed.

Lemma stripped_length (raw out : list text) :
  stripped raw out -> (length out <= length raw)%nat.
Proof.
  intros [pre [post [Hraw _]]]. rewrite Hraw. rewrite !length_app. lia.
Qed.

Lemma for_range_length (lo hi : Z) : length (for_range lo hi) = Z.to_nat (hi - lo).
Proof. unfold for_range. now rewrite length_map, length_seq. Qed.

Lemma in_for_range (lo hi y : Z) : In y (for_range lo hi) -> lo <= y < hi.
Proof.
  unfold for_range. rewrite in_map_iff. intros [i [Hy Hi]].
  apply in_seq in Hi. lia.
Qed.

Lemma slice_last_all (n : Z) (ls : list text) :
  (length ls <= Z.to_nat n)%nat -> slice_last n ls = ls.
Proof.
  intros Hle. unfold slice_last.
  replace (length ls - Z.to_nat n)%nat with 0%nat by lia. reflexivity.
Qed.

(** ** What the component reads from the buffer *)


Section CaptureFacts.

Context {B : Type} {emu : Emulator B}.


Lemma line_text_clean (b : B) (y : Z) : clean (line_text b y).
Proof.
  unfold line_text, clean. destruct (em_line b y) as [l|].
  - apply rstrip_spec.
  - simpl. discriminate.
Qed.

Lemma stripped_clean (raw out : list text) :
  stripped raw out -> Forall clean raw -> Forall clean out.
Proof.
  intros [pre [post [Hraw _]]] Hall. subst raw.
  apply Forall_app in Hall. destruct Hall as [_ Hall].
  apply Forall_app in Hall. tauto.
Qed.

Lemma rows_clean (b : B) (ys : list Z) : Forall clean (map (line_text b) ys).
Proof.
  apply Forall_forall. intros l Hl. apply in_map_iff in Hl.
  destruct Hl as [y [Hy _]]. subst l. apply line_text_clean.
Qed.

Lemma snapshot_rows_length (b : B) (n : Z) :
  0 < n -> (length (snapshot_rows b n) <= Z.to_nat n)%nat.
Proof. intros Hn. unfold snapshot_rows. rewrite for_range_length. lia. Qed.

Lemma scrollback_rows_length (b : B) (n : Z) :
  0 < n -> (length (scrollback_rows b n) <= Z.to_nat n)%nat.
Proof. intros Hn. unfold scrollback_rows. rewrite for_range_length. lia. Qed.

(** [getScrollback] joins the stripped rows of its window. *)
Lemma getScrollback_lines (b : B) (n : Z) :
  fst (getScrollback b n)
  = join_lines (trim_blank_lines (map (line_text b) (scrollback_rows b n))).
Proof. reflexivity. Qed.

(** [#getPlainLines] returns the stripped rows of its window: the final
    [slice(-maxLines)] has nothing left to cut. *)
Lemma getPlainLines_lines (b : B) (n : Z) :
  0 < n ->
  getPlainLines b n = trim_blank_lines (map (line_text b) (snapshot_rows b n)).
Proof.
  intros Hn. unfold getPlainLines.
  destruct (n <=? 0) eqn:E; [apply Z.leb_le in E; lia|].
  fold (snapshot_rows b n). apply slice_last_all.
  pose proof (stripped_length (trim_blank_lines_stripped
                                 (map (line_text b) (snapshot_rows b n)))) as Hlen.
  rewrite length_map in Hlen.
  pose proof (snapshot_rows_length b Hn). lia.
Qed.

End CaptureFacts.

(** C10.  The captured scrollback text and the screen snapshot text are the
    rows of their window with every row's trailing white space removed, then
    all blank rows at the beginning and at the end dropped, joined by line
    feeds; a buffer holding the rows "", "", "hello", "", "" gives "hello"
    for both. *)
Theorem captures_strip_blank_lines :
  (forall (B : Type) (emu : Emulator B) (b : B) (n : Z),
      0 < n ->
      (exists kept,
          fst (getScrollback b n) = join_lines kept
          /\ stripped (map (line_text b) (scrollback_rows b n)) kept
          /\ Forall clean kept)
      /\ (exists kept,
          getSnapshot b n = join_lines kept
          /\ stripped (map (line_text b) (snapshot_rows b n)) kept
          /\ Forall clean kept)
      /\ (forall y l, em_line b y = Some l -> line_text b y = rstrip l))
  /\ (let b := LineTerm.of_lines [str ""; str ""; str "hello"; str ""; str ""] in
      fst (getScrollback b SCROLLBACK_MAX_LINES) = str "hello"
      /\ getSnapshot b SCREEN_SNAPSHOT_MAX_LINES = str "hello").
Proof.
  split.
  - intros B emu b n Hn. split; [|split].
    + exists (trim_blank_lines (map (line_text b) (scrollback_rows b n))).
      split; [apply getScrollback_lines|].
      split; [apply trim_blank_lines_stripped|].
      eapply stripped_clean; [apply trim_blank_lines_stripped | apply rows_clean].
    + exists (trim_blank_lines (map (line_text b) (snapshot_rows b n))).
      split; [unfold getSnapshot; now rewrite getPlainLines_lines|].
      split; [apply trim_blank_lines_stripped|].
      eapply stripped_clean; [apply trim_blank_lines_stripped | apply rows_clean].
    + intros y l Hl. unfold line_text. now rewrite Hl.
  - split; vm_compute; reflexivity.
Qed.

(** The statement of C10 at the buffer "  ", "hello  ", "" read with the
    limits of the tool. *)
Lemma captures_strip_blank_lines_witness :
  let b := LineTerm.of_lines [str "  "; str "hello  "; str ""] in
  0 < SCROLLBACK_MAX_LINES
  /\ (exists kept,
         fst (getScrollback b SCROLLBACK_MAX_LINES) = join_lines kept
         /\ stripped (map (line_text b) (scrollback_rows b SCROLLBACK_MAX_LINES)) kept
         /\ Forall clean kept).
Proof.
  intros b. split; [reflexivity|].
  exact (proj1 (proj1 captures_strip_blank_lines LineTerm.t _ b
                  SCROLLBACK_MAX_LINES eq_refl)).
Defined.

(** ** Tail truncation *)

Lemma utf8_size_pos (c : char) : 1 <= utf8_size c <= 4.
Proof. unfold utf8_size. repeat destruct (_ <? _)%N; lia. Qed.

Lemma byteLength_app (a b : text) : byteLength (a ++ b) = byteLength a + byteLength b.
Proof. induction a as [|c a IH]; simpl; [reflexivity | rewrite IH; lia]. Qed.

Lemma byteLength_rev (a : text) : byteLength (rev a) = byteLength a.
Proof.
  induction a as [|c a IH]; simpl; [reflexivity|].
  rewrite byteLength_app, IH. simpl. lia.
Qed.

Lemma byteLength_nonneg (a : text) : 0 <= byteLength a.
Proof.
  induction a as [|c a IH]; simpl; [lia|]. pose proof (utf8_size_pos c). lia.
Qed.

Lemma keep_bytes_prefix (n : Z) (rs : text) :
  exists rest, rs = keep_bytes n rs ++ rest.
Proof.
  revert n. induction rs as [|c rs IH]; intros n; simpl.
  - exists []. reflexivity.
  - destruct (utf8_size c <=? n).
    + destruct (IH (n - utf8_size c)) as [rest Hrest].
      exists rest. simpl. congruence.
    + exists (c :: rs). reflexivity.
Qed.

Lemma keep_bytes_bound (n : Z) (rs : text) :
  0 <= n -> byteLength (keep_bytes n rs) <= n.
Proof.
  revert n. induction rs as [|c rs IH]; intros n Hn; simpl; [lia|].
  destruct (utf8_size c <=? n) eqn:E; simpl; [|lia].
  apply Z.leb_le in E. specialize (IH (n - utf8_size c)). lia.
Qed.

Lemma keep_lines_prefix (n : nat) (rs : text) :
  exists rest, rs = keep_lines n rs ++ rest.
Proof.
  revert n. induction rs as [|c rs IH]; intros n; simpl.
  - exists []. reflexivity.
  - destruct (c =? NL)%N.
    + destruct n as [|[|n]]; try (exists (c :: rs); reflexivity).
      destruct (IH (S n)) as [rest Hrest]. exists rest. simpl. congruence.
    + destruct n as [|n]; [exists (c :: rs); reflexivity|].
      destruct (IH (S n)) as [rest Hrest]. exists rest. simpl. congruence.
Qed.

Lemma suffix_of_trans (a b c : text) : suffix_of a b -> suffix_of b c -> suffix_of a c.
Proof.
  intros [p Hp] [q Hq]. exists (q ++ p). subst. now rewrite app_assoc.
Qed.

Lemma rev_prefix_suffix (k rs s : text) :
  (exists rest, rev s = k ++ rest) -> suffix_of (rev k) s.
Proof.
  intros [rest Hrest]. exists (rev rest).
  rewrite <- rev_app_distr, <- Hrest, rev_involutive. reflexivity.
Qed.

Lemma tail_bytes_suffix (n : option Z) (s : text) : suffix_of (tail_bytes n s) s.
Proof.
  destruct n as [n|]; simpl.
  - apply (rev_prefix_suffix (keep_bytes n (rev s)) (rev s)). apply keep_bytes_prefix.
  - exists []. reflexivity.
Qed.

Lemma tail_lines_suffix (n : option Z) (s : text) : suffix_of (tail_lines n s) s.
Proof.
  destruct n as [n|]; simpl.
  - apply (rev_prefix_suffix (keep_lines (Z.to_nat n) (rev s)) (rev s)).
    apply keep_lines_prefix.
  - exists []. reflexivity.
Qed.

(** The model of [truncateTail] returns an end of its input within the byte
    budget. *)
Lemma truncateTail_spec (s : text) (o : TruncateOptions) :
  suffix_of (content (truncateTail s o)) s
  /\ (forall n, maxBytes o = Some n -> 0 <= n -> byteLength (content (truncateTail s o)) <= n).
Proof.
  unfold truncateTail. simpl. split.
  - eapply suffix_of_trans; [apply tail_bytes_suffix | apply tail_lines_suffix].
  - intros n Hn Hpos. rewrite Hn. simpl. rewrite byteLength_rev.
    now apply keep_bytes_bound.
Qed.

(** ** The row renderer *)

Lemma text_eqb_eq (a b : text) : text_eqb a b = true <-> a = b.
Proof. unfold text_eqb. destruct (list_eq_dec N.eq_dec a b); split; congruence. Qed.

Lemma text_eqb_refl (a : text) : text_eqb a a = true.
Proof. now apply text_eqb_eq. Qed.

Lemma text_eqb_neq (a b : text) : a <> b -> text_eqb a b = false.
Proof. unfold text_eqb. destruct (list_eq_dec N.eq_dec a b); congruence. Qed.

(** The loop only ever appends to its output. *)
Lemma render_loop_appends (fuel : nat) (line : option BufferLine) (width : Z) :
  forall x prev out,
    render_loop fuel line width x prev out
    = out ++ render_loop fuel line width x prev [].
Proof.
  induction fuel as [|fuel IH]; intros x prev out; simpl.
  - now rewrite app_nil_r.
  - destruct (x <? width); [|now rewrite app_nil_r].
    destruct (getCell line x) as [cell|].
    + destruct (getWidth cell <=? 0); [apply IH|].
      destruct (width <? x + getWidth cell).
      * rewrite IH. rewrite (IH _ _ (pad_blank prev [])).
        unfold pad_blank. destruct (text_eqb prev KEY_DEFAULT); simpl;
          now rewrite <- ?app_assoc.
      * rewrite IH. rewrite (IH _ _ ((if text_eqb _ _ then _ else _) ++ _)).
        destruct (text_eqb (cellStyleKey cell) prev); simpl;
          now rewrite <- ?app_assoc.
    + rewrite IH. rewrite (IH _ _ (pad_blank prev [])).
      unfold pad_blank. destruct (text_eqb prev KEY_DEFAULT); simpl;
        now rewrite <- ?app_assoc.
Qed.

(** Once the loop has enough turns to reach the end of the row, more turns
    change nothing: the loop of the source runs to its end. *)
Lemma render_loop_fuel (line : option BufferLine) (width : Z) :
  forall fuel fuel' x prev out,
    (Z.to_nat (width - x) <= fuel)%nat ->
    (Z.to_nat (width - x) <= fuel')%nat ->
    render_loop fuel line width x prev out = render_loop fuel' line width x prev out.
Proof.
  induction fuel as [|fuel IH]; intros fuel' x prev out Hf Hf'.
  - destruct fuel' as [|fuel']; [reflexivity|]. simpl.
    destruct (x <? width) eqn:E; [apply Z.ltb_lt in E; lia | reflexivity].
  - destruct fuel' as [|fuel'].
    + simpl. destruct (x <? width) eqn:E; [apply Z.ltb_lt in E; lia | reflexivity].
    + simpl. destruct (x <? width) eqn:E; [|reflexivity]. apply Z.ltb_lt in E.
      destruct (getCell line x) as [cell|]; [|apply IH; lia].
      destruct (getWidth cell <=? 0) eqn:Ew; [apply IH; lia|].
      apply Z.leb_gt in Ew.
      destruct (width <? x + getWidth cell); apply IH; lia.
Qed.

Lemma render_from_step (line : option BufferLine) (width x : Z) (prev out : text) :
  x < width ->
  render_from line width x prev out
  = match getCell line x with
    | None => render_from line width (x + 1) KEY_DEFAULT (pad_blank prev out)
    | Some cell =>
        let w := getWidth cell in
        if w <=? 0 then render_from line width (x + 1) prev out
        else if width <? x + w then
          render_from line width (x + 1) KEY_DEFAULT (pad_blank prev out)
        else
          let key := cellStyleKey cell in
          let out := if text_eqb key prev then out else out ++ cellSgr cell in
          render_from line width (x + w) key (out ++ cell_chars cell w)
    end.
Proof.
  intros Hx. unfold render_from.
  destruct (Z.to_nat (width - x)) as [|fuel] eqn:Ef; [lia|]. simpl.
  destruct (x <? width) eqn:E; [|apply Z.ltb_ge in E; lia].
  destruct (getCell line x) as [cell|]; [|apply render_loop_fuel; lia].
  simpl. destruct (getWidth cell <=? 0) eqn:Ew; [apply render_loop_fuel; lia|].
  apply Z.leb_gt in Ew.
  destruct (width <? x + getWidth cell); apply render_loop_fuel; lia.
Qed.

Lemma render_from_end (line : option BufferLine) (width x : Z) (prev out : text) :
  width <= x -> render_from line width x prev out = out.
Proof.
  intros Hx. unfold render_from. replace (Z.to_nat (width - x)) with 0%nat by lia.
  reflexivity.
Qed.

(** On a row of one style, resumed with that style, the loop prints the
    characters of the row and no escape sequence. *)
Lemma render_loop_uniform (line : option BufferLine) (width : Z) (k : text) :
  uniform_row line width k ->
  forall fuel x out, 0 <= x ->
    render_loop fuel line width x k out = out ++ row_text fuel line width x.
Proof.
  intros Hu. induction fuel as [|fuel IH]; intros x out Hx; simpl.
  - now rewrite app_nil_r.
  - destruct (x <? width) eqn:E; [|now rewrite app_nil_r]. apply Z.ltb_lt in E.
    destruct (Hu x (conj Hx E)) as [c [Hc [Hk Hfit]]]. rewrite Hc.
    destruct (getWidth c <=? 0) eqn:Ew; [apply IH; lia|]. apply Z.leb_gt in Ew.
    destruct (width <? x + getWidth c) eqn:Eo; [apply Z.ltb_lt in Eo; lia|].
    rewrite Hk, text_eqb_refl, IH by lia. now rewrite <- app_assoc.
Qed.

Lemma spaces_no_esc (n : Z) : ~ In ESC (spaces n).
Proof. unfold spaces. intros Hin. apply repeat_spec in Hin. discriminate. Qed.

Lemma blank_no_esc : ~ In ESC (str " ").
Proof. simpl. intros [Hin|[]]. discriminate. Qed.

Lemma cell_chars_no_esc (c : Cell) (w : Z) :
  ~ In ESC (getChars c) -> ~ In ESC (cell_chars c w).
Proof.
  intros Hc. unfold cell_chars.
  destruct (isInvisible c); [apply spaces_no_esc|].
  destruct (getChars c) as [|a r]; [|exact Hc].
  destruct (1 <? w); [apply spaces_no_esc | apply blank_no_esc].
Qed.

(** The characters of a row hold an escape character only if a cell's own
    characters do. *)
Lemma row_text_no_esc (line : option BufferLine) (width : Z) :
  (forall x c, getCell line x = Some c -> ~ In ESC (getChars c)) ->
  forall fuel x, ~ In ESC (row_text fuel line width x).
Proof.
  intros Hc. induction fuel as [|fuel IH]; intros x; simpl; [tauto|].
  destruct (x <? width); [|simpl; tauto].
  destruct (getCell line x) as [c|] eqn:E.
  - destruct (getWidth c <=? 0); [apply IH|].
    destruct (width <? x + getWidth c).
    + intros [Hin|Hin]; [discriminate | now apply (IH (x + 1))].
    + intros Hin. apply in_app_or in Hin. destruct Hin as [Hin|Hin].
      * revert Hin. apply cell_chars_no_esc. eapply Hc. exact E.
      * now apply (IH (x + getWidth c)).
  - intros [Hin|Hin]; [discriminate | now apply (IH (x + 1))].
Qed.

Lemma uint_chars (d : Decimal.uint) :
  Forall dec_char (str (NilEmpty.string_of_uint d)).
Proof.
  induction d; cbn; constructor; try assumption; unfold dec_char; right; lia.
Qed.

Lemma dec_chars (z : Z) : Forall dec_char (dec z).
Proof.
  unfold dec, NilZero.string_of_int, NilZero.string_of_uint.
  destruct (Z.to_int z) as [d|d].
  - destruct d; try apply uint_chars.
    cbn. constructor; [unfold dec_char; right; lia | constructor].
  - change (str (String "-" ?s)) with (45%N :: str s).
    constructor; [now left|].
    destruct d; try apply uint_chars.
    cbn. constructor; [unfold dec_char; right; lia | constructor].
Qed.

Lemma code_char_dec (z : Z) : Forall code_char (dec z).
Proof. eapply Forall_impl; [|apply dec_chars]. intros c Hc. now left. Qed.

Lemma code_char_str (s : string) :
  forallb (fun c => ((48 <=? c) && (c <=? 57) || (c =? 59))%N) (str s) = true ->
  Forall code_char (str s).
Proof.
  intros H. rewrite forallb_forall in H. apply Forall_forall. intros c Hc.
  specialize (H c Hc). unfold code_char, dec_char.
  apply orb_true_iff in H. destruct H as [H|H].
  - apply andb_true_iff in H. destruct H as (H1 & H2).
    apply N.leb_le in H1. apply N.leb_le in H2. left. right. lia.
  - apply N.eqb_eq in H. now right.
Qed.

Lemma code_char_rgb (c : Z) : Forall code_char (rgb c).
Proof.
  unfold rgb. repeat (apply Forall_app; split);
    try apply code_char_dec; now apply code_char_str.
Qed.

Lemma code_char_join (codes : list text) :
  Forall (Forall code_char) codes -> Forall code_char (join_codes codes).
Proof.
  induction 1 as [|c cs Hc Hcs IH]; [constructor|]. cbn [join_codes].
  destruct cs as [|c' cs']; [exact Hc|].
  apply Forall_app. split; [exact Hc|].
  apply Forall_app. split; [now apply code_char_str | exact IH].
Qed.

Lemma code_if_chars (b : bool) (c : string) :
  forallb (fun c => ((48 <=? c) && (c <=? 57) || (c =? 59))%N) (str c) = true ->
  Forall (Forall code_char) (code_if b c).
Proof.
  intros H. unfold code_if. destruct b; [|constructor].
  constructor; [now apply code_char_str | constructor].
Qed.

Lemma colour_codes (is_rgb is_palette : bool) (pre1 pre2 : string) (c : Z) :
  forallb (fun c => ((48 <=? c) && (c <=? 57) || (c =? 59))%N) (str pre1) = true ->
  forallb (fun c => ((48 <=? c) && (c <=? 57) || (c =? 59))%N) (str pre2) = true ->
  Forall (Forall code_char)
    (if is_rgb then [str pre1 ++ rgb c]
     else if is_palette then [str pre2 ++ dec c] else []).
Proof.
  intros H1 H2. destruct is_rgb; [|destruct is_palette; [|constructor]].
  - constructor; [|constructor]. apply Forall_app.
    split; [now apply code_char_str | apply code_char_rgb].
  - constructor; [|constructor]. apply Forall_app.
    split; [now apply code_char_str | apply code_char_dec].
Qed.

(** The sequence of a cell whose attributes are not the default ones is
    one SGR sequence: the escape character, ["["], codes made of digits,
    semicolons and minus signs, of which there is at least the ["0"], and
    the final ["m"]. *)
Lemma cellSgr_shape (c : Cell) :
  isAttributeDefault c = false ->
  exists codes,
    cellSgr c = ESC :: str "[" ++ codes ++ str "m"
    /\ codes <> [] /\ Forall code_char codes.
Proof.
  intros Hd. unfold cellSgr. rewrite Hd. eexists. split; [reflexivity|]. split.
  - cbn [app]. destruct (code_if (isBold c) "1" ++ _); discriminate.
  - apply code_char_join. cbn [app]. constructor; [now apply code_char_str|].
    repeat (apply Forall_app; split); try (now apply code_if_chars);
      now apply colour_codes.
Qed.

(** C9.  Rendering a row:
    (1) a row whose cells all have one style other than the default is
        rendered as the opening reset, one style-change sequence (that of
        its first cell: the escape character, ["["], at least one code
        made of digits, semicolons and minus signs, and ["m"]), the
        characters of the row with no further escape sequence, and the
        closing reset;
    (2) a cell of width zero is passed over: nothing is printed for it, and
        the walk goes on at the next cell with the output and the current
        style as they were; the cell counts as one of the columns of the
        row;
    (3) a cell of width two in the last column of the row is not printed:
        a single space takes its place (after a reset when a style is
        active), and the row ends there;
    (4) every rendered row ends with the reset sequence. *)
Theorem render_row_properties :
  (forall line width k c0,
      uniform_row line width k -> k <> KEY_DEFAULT ->
      0 < width -> getCell line 0 = Some c0 -> 0 < getWidth c0 ->
      (exists codes,
          cellSgr c0 = ESC :: str "[" ++ codes ++ str "m"
          /\ codes <> [] /\ Forall code_char codes)
      /\ renderBufferLineAnsi line width
         = RESET ++ cellSgr c0 ++ row_text (Z.to_nat width) line width 0 ++ RESET
      /\ ((forall x c, getCell line x = Some c -> ~ In ESC (getChars c)) ->
          ~ In ESC (row_text (Z.to_nat width) line width 0)))
  /\ (forall line width x prev out c,
         x < width -> getCell line x = Some c -> getWidth c <= 0 ->
         render_from line width x prev out = render_from line width (x + 1) prev out)
  /\ (forall line width x prev out c,
         x < width -> getCell line x = Some c -> getWidth c = 2 -> width < x + 2 ->
         render_from line width x prev out ++ RESET
         = out ++ (if text_eqb prev KEY_DEFAULT then [] else RESET) ++ str " " ++ RESET)
  /\ (forall line width,
         renderBufferLineAnsi line width = render_from line width 0 KEY_DEFAULT RESET ++ RESET
         /\ exists body, renderBufferLineAnsi line width = RESET ++ body ++ RESET).
Proof.
  split; [|split; [|split]].
  - intros line width k c0 Hu Hk0 Hwidth Hc0 Hw0.
    destruct (Hu 0 (conj (Z.le_refl 0) Hwidth)) as [c [Hc [Hk Hfit]]].
    rewrite Hc0 in Hc. inversion Hc. subst c. clear Hc.
    split; [|split].
    + apply cellSgr_shape. unfold cellStyleKey in Hk.
      destruct (isAttributeDefault c0); [congruence | reflexivity].
    + assert (E : (0 <? width) = true) by (apply Z.ltb_lt; lia).
      assert (Ew : (getWidth c0 <=? 0) = false) by (apply Z.leb_gt; lia).
      assert (Eo : (width <? 0 + getWidth c0) = false) by (apply Z.ltb_ge; lia).
      unfold renderBufferLineAnsi.
      destruct (Z.to_nat width) as [|fuel] eqn:Ef; [lia|].
      cbn [render_loop row_text]. rewrite E, Hc0. cbv zeta.
      rewrite Ew, Eo, Hk, (text_eqb_neq Hk0).
      rewrite (render_loop_uniform Hu) by lia.
      rewrite <- !app_assoc. reflexivity.
    + intros Hc. now apply row_text_no_esc.
  - intros line width x prev out c Hx Hc Hw.
    rewrite (render_from_step line prev out Hx), Hc. simpl.
    destruct (getWidth c <=? 0) eqn:E; [reflexivity | apply Z.leb_gt in E; lia].
  - intros line width x prev out c Hx Hc Hw Ho.
    rewrite (render_from_step line prev out Hx), Hc. simpl. rewrite Hw. simpl.
    destruct (width <? x + 2) eqn:E; [|apply Z.ltb_ge in E; lia].
    rewrite render_from_end by lia. unfold pad_blank.
    destruct (text_eqb prev KEY_DEFAULT); now rewrite <- ?app_assoc.
  - intros line width. split.
    + unfold renderBufferLineAnsi, render_from. now rewrite Z.sub_0_r.
    + unfold renderBufferLineAnsi. rewrite render_loop_appends.
      eexists. rewrite <- app_assoc. reflexivity.
Qed.

(** C9 (1) at a row of two bold cells with palette colour 1: one sequence,
    [ESC[0;1;38;5;1m], for the two cells. *)
Lemma render_row_properties_witness :
  let line := Some [bold_red_cell "a" 1; bold_red_cell "b" 1] in
  renderBufferLineAnsi line 2
  = RESET ++ (ESC :: str "[0;1;38;5;1m") ++ str "ab" ++ RESET.
Proof.
  intros line.
  refine (proj1 (proj2 (proj1 render_row_properties line 2
                          (cellStyleKey (bold_red_cell "a" 1)) (bold_red_cell "a" 1)
                          _ _ eq_refl eq_refl eq_refl))).
  - intros x Hx. assert (Hc : x = 0 \/ x = 1) by lia.
    destruct Hc as [-> | ->]; eexists; (split; [reflexivity|]);
      (split; [reflexivity | simpl; lia]).
  - vm_compute. discriminate.
Defined.

(** C9 (2) against the wording of the specification, by which a cell of
    width zero is consumed without advancing a column: a row that starts
    with such a cell shows one column less than the same row without it.
    Of the cells a, b, c behind the cell of width zero, a row of width 3
    shows a and b only. *)
Lemma zero_width_cell_takes_a_column :
  renderBufferLineAnsi
    (Some [zero_width_cell; plain_cell "a"; plain_cell "b"; plain_cell "c"]) 3
  = RESET ++ str "ab" ++ RESET
  /\ renderBufferLineAnsi (Some [plain_cell "a"; plain_cell "b"; plain_cell "c"]) 3
     = RESET ++ str "abc" ++ RESET
  /\ renderBufferLineAnsi
       (Some [zero_width_cell; plain_cell "a"; plain_cell "b"; plain_cell "c"]) 3
     <> renderBufferLineAnsi (Some [plain_cell "a"; plain_cell "b"; plain_cell "c"]) 3.
Proof.
  split; [reflexivity|]. split; [reflexivity|]. vm_compute. discriminate.
Qed.

(** ** Sessions: what every run preserves *)

Section SessionFacts.

Context {B : Type} {emu : Emulator B} {host : Host}.

Lemma setup_Inv (p : Params) (spawn : SpawnOutcome) : Inv p (setup p spawn).
Proof.
  unfold Inv. destruct spawn as [|msg]; cbn.
  - unfold initial_disposables.
    destruct (p_timeoutMs p), (p_signal p); cbn;
      repeat split; try discriminate; try tauto; auto.
  - repeat split; try discriminate; try tauto; auto; try constructor.
Qed.

Ltac open_session s :=
  destruct s as [[dis tmo fin pty ds] [buf q st ec wired]
                 [onD onE tmr onA ab wr ki re ca di rs]].

(** [finish] on a session that has not finished yet. *)
Lemma finish_open (p : Params) (r : InteractiveTermExecutionResult) (s : Session (B := B)) :
  v_finished (vars s) = false ->
  v_disposables (vars s) = initial_disposables p ->
  (w_timer (world s) = true -> p_timeoutMs p <> None) ->
  (w_onAbort (world s) = true -> p_signal p <> None) ->
  w_disposed (world s) = [] ->
  finish r s
  = {| vars := set_disposables [] (set_finished true (vars s));
       comp := comp s;
       world := finished_world p r (world s) |}.
Proof.
  open_session s. cbn. intros Hf Hds Ht Ha Hdi. subst fin ds di.
  unfold finish, initial_disposables, finished_world. cbn.
  destruct (p_timeoutMs p), (p_signal p); cbn;
    destruct tmr; try (exfalso; now apply Ht);
    destruct onA; try (exfalso; now apply Ha);
    reflexivity.
Qed.

Lemma finish_closed (r : InteractiveTermExecutionResult) (s : Session (B := B)) :
  v_finished (vars s) = true -> finish r s = s.
Proof. intros Hf. unfold finish. now rewrite Hf. Qed.

Lemma initial_disposables_NoDup (p : Params) : NoDup (initial_disposables p).
Proof.
  unfold initial_disposables.
  destruct (p_timeoutMs p), (p_signal p); cbn;
    repeat (constructor; [cbn; intuition discriminate|]); constructor.
Qed.

Lemma flush_callback_eq (cb : FlushCallback) (s : Session (B := B)) :
  flush_callback cb s
  = if v_finished (vars s) then s
    else finish (captured (c_buffer (comp s)) cb (v_timedOut (vars s))
                   (v_dismissedByUser (vars s)))
           (with_world log_capture s).
Proof. reflexivity. Qed.

Arguments initial_disposables : simpl never.
Arguments finish : simpl never.
Arguments captured : simpl never.

Ltac closed_absurd H :=
  specialize (H eq_refl); decompose [and] H; discriminate.

Ltac kill_goals :=
  repeat split; try tauto; try discriminate;
  try (apply Forall_app; split; [assumption | now repeat constructor]);
  try (intros; apply in_or_app; right; now left).

Lemma step_Inv (p : Params) (s : Session (B := B)) (ev : Event) :
  Inv p s -> Inv p (step s ev).
Proof.
  open_session s. unfold Inv. cbn.
  intros (Hopen & Hclosed & Htmr & HonA & Hki & Hpty & Hdis & Hcb).
  destruct ev as [chunk|code| | |data|]; cbn.
  - (* data *)
    destruct onD; cbn; [|tauto].
    destruct fin; [closed_absurd Hclosed|].
    repeat split; try tauto; try discriminate.
    intros Hst. apply Forall_app. split; [tauto|]. now repeat constructor.
  - (* exit *)
    destruct onE; cbn; [|tauto].
    destruct fin; [closed_absurd Hclosed|].
    repeat split; try tauto; try discriminate.
    intros Hst. exfalso. destruct tmo, dis; cbn in Hst; discriminate.
  - (* timer *)
    destruct tmr; cbn; [|tauto].
    destruct fin; [closed_absurd Hclosed|].
    unfold onTimeout, killPty; cbn. destruct pty; cbn; kill_goals.
  - (* abort *)
    destruct ab as [[|]|]; cbn; try tauto.
    destruct onA; cbn; [|tauto].
    destruct fin; [closed_absurd Hclosed|].
    unfold onAbort, killPty; cbn. destruct pty; cbn; kill_goals.
  - (* input *)
    unfold handleInput, is_running; cbn.
    destruct st; cbn; try tauto.
    destruct (is_escape data); cbn.
    + destruct wired; cbn; [|tauto].
      unfold onDismiss, killPty; cbn. destruct dis; cbn; [tauto|].
      destruct pty; cbn; kill_goals.
    + destruct wired; cbn; [|tauto].
      unfold onInput; cbn. destruct pty; cbn; tauto.
  - (* parse *)
    unfold parse_next; cbn. destruct q as [|[d [cb|]] q']; cbn; try tauto.
    + rewrite flush_callback_eq. cbn [vars comp world with_comp with_world v_finished].
      destruct fin.
      * cbn. repeat split; try tauto.
      * destruct Hopen as (Hds & Hdi & Hrs & Hca & HoD & HoE & Hwi); [reflexivity|].
        subst ds wired.
        assert (Hst : st <> running).
        { intros Hst. specialize (Hcb Hst). inversion Hcb as [|? ? Hn _].
          discriminate Hn. }
        subst di rs ca.
        rewrite (finish_open (p := p)) by (cbn; tauto).
        unfold finished_world. cbn.
        repeat split; try discriminate; try tauto; try lia.
        apply initial_disposables_NoDup.
    + repeat split; try tauto.
      intros Hst. specialize (Hcb Hst). now inversion Hcb.
Qed.


Lemma run_Inv (p : Params) (tr : list Event) (s : Session (B := B)) :
  Inv p s -> Inv p (run s tr).
Proof.
  revert s. induction tr as [|ev tr IH]; intros s Hs; [exact Hs|].
  cbn. apply IH. now apply step_Inv.
Qed.

Lemma reachable_Inv (p : Params) (spawn : SpawnOutcome) (tr : list Event) :
  Inv p (run (setup p spawn) tr).
Proof. apply run_Inv, setup_Inv. Qed.


(** *** Once finished, always finished *)

Lemma step_finished (s : Session (B := B)) (ev : Event) :
  v_finished (vars s) = true -> v_finished (vars (step s ev)) = true.
Proof.
  open_session s. cbn. intros ->.
  destruct ev as [chunk|code| | |data|]; cbn.
  - destruct onD; reflexivity.
  - destruct onE; reflexivity.
  - destruct tmr; reflexivity.
  - destruct ab as [[|]|]; try reflexivity. destruct onA; reflexivity.
  - unfold handleInput, is_running, onDismiss, onInput, killPty; cbn.
    destruct st; cbn; try reflexivity.
    destruct (is_escape data), wired; cbn; try reflexivity.
    + destruct dis; cbn; [reflexivity|]. destruct pty; reflexivity.
    + destruct pty; reflexivity.
  - unfold parse_next; cbn. destruct q as [|[d [cb|]] q']; reflexivity.
Qed.

Lemma run_finished (tr : list Event) (s : Session (B := B)) :
  v_finished (vars s) = true -> v_finished (vars (run s tr)) = true.
Proof.
  revert s. induction tr as [|ev tr IH]; intros s Hs; [exact Hs|].
  cbn. apply IH. now apply step_finished.
Qed.

Lemma finished_history_closed (tr : list Event) (s : Session (B := B)) :
  v_finished (vars s) = true ->
  finished_history s tr = repeat true (S (length tr)).
Proof.
  revert s. induction tr as [|ev tr IH]; intros s Hf; cbn [finished_history].
  - now rewrite Hf.
  - rewrite Hf, (IH (step s ev) (step_finished s ev Hf)). reflexivity.
Qed.

(** The flag is [false] for a while and [true] from then on. *)
Lemma finished_history_shape (tr : list Event) (s : Session (B := B)) :
  exists k m, finished_history s tr = repeat false k ++ repeat true m.
Proof.
  revert s. induction tr as [|ev tr IH]; intros s.
  - cbn. destruct (v_finished (vars s)).
    + exists 0%nat, 1%nat. reflexivity.
    + exists 1%nat, 0%nat. reflexivity.
  - destruct (v_finished (vars s)) eqn:Hf.
    + exists 0%nat, (S (length (ev :: tr))). now apply finished_history_closed.
    + destruct (IH (step s ev)) as [k [m Hkm]]. exists (S k), m.
      cbn [finished_history]. rewrite Hf, Hkm. reflexivity.
Qed.

(** After [finished] is set, no turn reads the buffer for a capture, hands
    over a result or disposes of anything. *)
Lemma step_closed (p : Params) (s : Session (B := B)) (ev : Event) :
  Inv p s -> v_finished (vars s) = true ->
  let s' := step s ev in
  w_results (world s') = w_results (world s)
  /\ w_captures (world s') = w_captures (world s)
  /\ w_disposed (world s') = w_disposed (world s)
  /\ v_disposables (vars s') = v_disposables (vars s).
Proof.
  open_session s. unfold Inv. cbn.
  intros (_ & Hclosed & _) ->. specialize (Hclosed eq_refl).
  destruct Hclosed as (_ & _ & _ & _ & -> & -> & -> & -> & Hst).
  destruct ev as [chunk|code| | |data|]; cbn; try tauto.
  - destruct ab as [[|]|]; cbn; tauto.
  - unfold handleInput, is_running; cbn. destruct st; cbn; tauto.
  - unfold parse_next; cbn. destruct q as [|[d [cb|]] q']; cbn; tauto.
Qed.

Lemma run_closed (p : Params) (tr : list Event) (s : Session (B := B)) :
  Inv p s -> v_finished (vars s) = true ->
  w_results (world (run s tr)) = w_results (world s)
  /\ w_captures (world (run s tr)) = w_captures (world s)
  /\ w_disposed (world (run s tr)) = w_disposed (world s).
Proof.
  revert s. induction tr as [|ev tr IH]; intros s HI Hf; [tauto|].
  cbn [run fold_left].
  destruct (step_closed ev HI Hf) as (Hr & Hc & Hd & _).
  destruct (IH (step s ev) (step_Inv ev HI) (step_finished s ev Hf)) as (Hr' & Hc' & Hd').
  unfold run in *. rewrite Hr', Hc', Hd'. tauto.
Qed.

(** *** Every queued flush callback gets its turn *)

Lemma parse_plain (s : Session (B := B)) (d : text) (q' : list WriteItem) :
  c_queue (comp s) = {| w_data := d; w_callback := None |} :: q' ->
  step s EvParse = with_comp (fun c => set_term (em_feed (c_buffer c) d) q' c) s.
Proof. intros Hq. cbn. unfold parse_next. now rewrite Hq. Qed.

Lemma parse_callback (s : Session (B := B)) (d : text) (cb : FlushCallback)
    (q' : list WriteItem) :
  c_queue (comp s) = {| w_data := d; w_callback := Some cb |} :: q' ->
  step s EvParse
  = flush_callback cb (with_comp (fun c => set_term (em_feed (c_buffer c) d) q' c) s).
Proof. intros Hq. cbn. unfold parse_next. now rewrite Hq. Qed.

Lemma parse_callback_finishes (p : Params) (s : Session (B := B)) (d : text)
    (cb : FlushCallback) (q' : list WriteItem) :
  Inv p s ->
  c_queue (comp s) = {| w_data := d; w_callback := Some cb |} :: q' ->
  v_finished (vars (step s EvParse)) = true.
Proof.
  intros HI Hq. rewrite (parse_callback s Hq), flush_callback_eq.
  cbn [vars with_comp with_world].
  destruct (v_finished (vars s)) eqn:Hf; [exact Hf|].
  destruct HI as (Hopen & _ & Ht & Ha & _). specialize (Hopen Hf).
  rewrite (finish_open (p := p)); cbn; tauto.
Qed.

Lemma drain_finishes (p : Params) (q : list WriteItem) :
  forall s : Session (B := B),
    Inv p s -> c_queue (comp s) = q -> Exists has_callback q ->
    v_finished (vars (run s (repeat EvParse (length q)))) = true.
Proof.
  induction q as [|[d [cb|]] q' IH]; intros s HI Hq Hex.
  - inversion Hex.
  - cbn [length repeat run fold_left]. apply run_finished.
    eapply parse_callback_finishes; eassumption.
  - cbn [length repeat run fold_left]. apply IH.
    + now apply step_Inv.
    + rewrite (parse_plain s Hq). reflexivity.
    + inversion Hex as [? ? Hh|]; [|assumption]. now contradiction Hh.
Qed.

(** Whatever has happened so far: once the PTY reports the exit and the
    emulator has parsed what is queued, exactly one result has been handed
    over. *)
Lemma exit_then_settle (p : Params) (s : Session (B := B)) (c : option Z) :
  Inv p s ->
  length (w_results (world (settle (step s (EvExit c))))) = 1%nat
  /\ v_finished (vars (settle (step s (EvExit c)))) = true.
Proof.
  intros HI. unfold settle.
  assert (HI' : Inv p (step s (EvExit c))) by now apply step_Inv.
  destruct (v_finished (vars s)) eqn:Hf.
  - assert (Hf' := step_finished s (EvExit c) Hf). split.
    + destruct (run_closed (repeat EvParse (length (c_queue (comp (step s (EvExit c))))))
                  HI' Hf') as (-> & _).
      now apply HI'.
    + now apply run_finished.
  - assert (Hfin : v_finished
                     (vars (run (step s (EvExit c))
                              (repeat EvParse
                                 (length (c_queue (comp (step s (EvExit c)))))))) = true).
    { apply (drain_finishes HI' eq_refl).
      destruct HI as (Hopen & _). destruct (Hopen Hf) as (_ & _ & _ & _ & _ & HoE & _).
      cbn. rewrite HoE. cbn. apply Exists_app. right. constructor. discriminate. }
    split; [|exact Hfin].
    pose proof (run_Inv (repeat EvParse (length (c_queue (comp (step s (EvExit c)))))) HI')
      as HI''.
    now apply HI''.
Qed.

Lemma run_app (s : Session (B := B)) (a b : list Event) :
  run s (a ++ b) = run (run s a) b.
Proof. unfold run. apply fold_left_app. Qed.

Section Teardown.

Arguments flush_callback : simpl never.

(** The turn in which the session finishes reads the buffer for the one
    capture and disposes of every disposable, in the order of
    registration. *)
Lemma step_finishing_once (p : Params) (s : Session (B := B)) (ev : Event) :
  Inv p s -> v_finished (vars s) = false -> v_finished (vars (step s ev)) = true ->
  w_captures (world (step s ev)) = 1%nat
  /\ w_disposed (world (step s ev)) = initial_disposables p.
Proof.
  intros (Hopen & _ & Htm & Hab & _) Hf.
  destruct (Hopen Hf) as (Hds & Hdi & _ & Hca & _).
  revert Hf Hds Hdi Hca Htm Hab. open_session s. cbn. intros -> -> -> -> Htm Hab.
  destruct ev as [chunk|code| | |data|]; cbn.
  - destruct onD; cbn; discriminate.
  - destruct onE; cbn; discriminate.
  - destruct tmr; cbn; [|discriminate]. unfold onTimeout, killPty; cbn.
    destruct pty; cbn; discriminate.
  - destruct ab as [[|]|]; cbn; try discriminate. destruct onA; cbn; [|discriminate].
    unfold onAbort, killPty; cbn. destruct pty; cbn; discriminate.
  - unfold handleInput, is_running, onDismiss, onInput, killPty; cbn.
    destruct st; cbn; try discriminate.
    destruct (is_escape data), wired; cbn; try discriminate.
    + destruct dis; cbn; [discriminate|]. destruct pty; cbn; discriminate.
    + destruct pty; cbn; discriminate.
  - unfold parse_next; cbn. destruct q as [|[d [cb|]] q']; cbn; try discriminate.
    rewrite flush_callback_eq. cbn.
    rewrite (finish_open (p := p)) by (cbn; tauto). cbn. tauto.
Qed.

End Teardown.

(** The captures and the disposals of a session that has finished: one
    capture and every disposable after a successful spawn; none of either
    after a failed one, where [finish] runs before anything is registered
    and without a capture. *)
Lemma finished_teardown (p : Params) (spawn : SpawnOutcome) (tr : list Event) :
  v_finished (vars (run (setup p spawn) tr)) = true ->
  w_captures (world (run (setup p spawn) tr))
  = match spawn with Spawned => 1%nat | SpawnThrows _ => 0%nat end
  /\ w_disposed (world (run (setup p spawn) tr))
     = match spawn with Spawned => initial_disposables p | SpawnThrows _ => [] end.
Proof.
  induction tr as [|ev tr IH] using rev_ind.
  - destruct spawn; [discriminate|]. intros _. split; reflexivity.
  - rewrite run_app. cbn [run fold_left]. intros Hf.
    destruct (v_finished (vars (run (setup p spawn) tr))) eqn:Hprev.
    + destruct (step_closed ev (reachable_Inv p spawn tr) Hprev) as (_ & Hc & Hd & _).
      rewrite Hc, Hd. now apply IH.
    + destruct spawn as [|msg].
      * apply (step_finishing_once ev (reachable_Inv p Spawned tr) Hprev Hf).
      * assert (Ht : v_finished (vars (run (setup p (SpawnThrows msg)) tr)) = true)
          by (apply run_finished; reflexivity).
        congruence.
Qed.

(** C1.  In every run of a session, however its triggers interleave:
    at most one result is handed over, the final buffer is read for a
    capture at most once and no disposable is disposed of twice; the flag
    [finished] is false up to some turn and true from then on; once it is
    true, no turn (a late flush callback included) reads the buffer for a
    capture, hands over a result or disposes of anything; and once the PTY
    reports the exit and the emulator has parsed its queue, exactly one
    result has been handed over.  The sequence does run: while [finished]
    is false nothing has been captured, disposed of or handed over; once
    it is true, after a successful spawn the buffer has been read for
    exactly one capture, every disposable registered at the start has been
    disposed of exactly once, in the order of registration, the list of
    disposables is empty and no listener and no timer is left (after a
    failed spawn [finish] has run on the empty list, without a capture);
    and this is the state once the PTY has reported the exit and the
    emulator has parsed its queue. *)
Theorem finalize_exactly_once (p : Params) (spawn : SpawnOutcome) (tr : list Event) :
  let s := run (setup p spawn) tr in
  ((length (w_results (world s)) <= 1)%nat
   /\ (w_captures (world s) <= 1)%nat
   /\ NoDup (w_disposed (world s))
   /\ (v_finished (vars s) = true <-> length (w_results (world s)) = 1%nat))
  /\ (exists k m, finished_history (setup p spawn) tr = repeat false k ++ repeat true m)
  /\ (v_finished (vars s) = true ->
      forall ev,
        v_finished (vars (step s ev)) = true
        /\ w_results (world (step s ev)) = w_results (world s)
        /\ w_captures (world (step s ev)) = w_captures (world s)
        /\ w_disposed (world (step s ev)) = w_disposed (world s))
  /\ (forall c,
        length (w_results (world (settle (step s (EvExit c))))) = 1%nat)
  /\ (v_finished (vars s) = false ->
      w_captures (world s) = 0%nat /\ w_disposed (world s) = []
      /\ w_results (world s) = [])
  /\ (v_finished (vars s) = true ->
      w_captures (world s)
      = match spawn with Spawned => 1%nat | SpawnThrows _ => 0%nat end
      /\ w_disposed (world s)
         = match spawn with Spawned => initial_disposables p | SpawnThrows _ => [] end
      /\ v_disposables (vars s) = []
      /\ w_onData (world s) = false /\ w_onExit (world s) = false
      /\ w_timer (world s) = false /\ w_onAbort (world s) = false)
  /\ (forall c,
        spawn = Spawned ->
        let s' := settle (step s (EvExit c)) in
        v_finished (vars s') = true
        /\ w_captures (world s') = 1%nat
        /\ w_disposed (world s') = initial_disposables p
        /\ (2 <= length (w_disposed (world s')))%nat).
Proof.
  intros s. pose proof (reachable_Inv p spawn tr) as HI. fold s in HI.
  split; [|split; [|split; [|split; [|split; [|split]]]]].
  - destruct HI as (Hopen & Hclosed & _).
    destruct (v_finished (vars s)) eqn:Hf.
    + destruct (Hclosed eq_refl) as (_ & Hnd & Hlen & Hca & _).
      rewrite Hlen. repeat split; auto.
    + destruct (Hopen eq_refl) as (_ & -> & -> & -> & _). cbn.
      repeat split; try lia; try constructor; discriminate.
  - apply finished_history_shape.
  - intros Hf ev. split; [now apply step_finished|].
    destruct (step_closed ev HI Hf) as (Hr & Hc & Hd & _). tauto.
  - intros c. now apply (exit_then_settle c HI).
  - intros Hf. destruct HI as (Hopen & _).
    destruct (Hopen Hf) as (_ & Hdi & Hrs & Hca & _). tauto.
  - intros Hf. destruct (finished_teardown p spawn tr Hf) as (Hca & Hdi).
    destruct HI as (_ & Hclosed & _).
    destruct (Hclosed Hf) as (Hds & _ & _ & _ & HoD & HoE & Htm & HoA & _).
    fold s in Hca, Hdi. tauto.
  - intros c -> s'.
    assert (Hfin : v_finished (vars s') = true) by apply (exit_then_settle c HI).
    assert (Hrun : s' = run (setup p Spawned)
                         (tr ++ EvExit c
                             :: repeat EvParse
                                  (length (c_queue (comp (step s (EvExit c))))))).
    { subst s' s. unfold settle. now rewrite run_app. }
    rewrite Hrun in Hfin. destruct (finished_teardown p Spawned _ Hfin) as (Hca & Hdi).
    rewrite <- Hrun in Hfin, Hca, Hdi. rewrite Hdi.
    split; [exact Hfin|]. split; [exact Hca|]. split; [reflexivity|].
    unfold initial_disposables. destruct (p_timeoutMs p), (p_signal p); cbn; lia.
Qed.

(** *** Before the first exit event *)

Lemma chunks_of_app (a b : list Event) : chunks_of (a ++ b) = chunks_of a ++ chunks_of b.
Proof. unfold chunks_of. now rewrite flat_map_app. Qed.

Lemma setup_BeforeExit (p : Params) : BeforeExit p [] (setup p Spawned).
Proof.
  split; [apply setup_Inv|]. cbn. repeat split.
  intros Ht. left. destruct (p_timeoutMs p); [reflexivity | now contradiction Ht].
Qed.

Lemma pending_buffer_push (s : Session (B := B)) (d : text) (cb : option FlushCallback) :
  pending_buffer (term_write d cb s) = em_feed (pending_buffer s) d.
Proof.
  unfold pending_buffer, term_write. cbn.
  now rewrite map_app, fold_left_app.
Qed.

Lemma step_BeforeExit (p : Params) (chunks : list text) (s : Session (B := B)) (ev : Event) :
  BeforeExit p chunks s -> (forall c, ev <> EvExit c) ->
  BeforeExit p (chunks ++ chunks_of [ev]) (step s ev).
Proof.
  intros (HI & Hf & Hst & Hb & Ht) Hev.
  split; [now apply step_Inv|].
  destruct HI as (Hopen & _ & _ & _ & _ & _ & _ & Hcb).
  destruct (Hopen Hf) as (_ & _ & _ & _ & HoD & _ & Hwi). specialize (Hcb Hst).
  revert Hf Hst Hb Ht HoD Hwi Hcb. unfold buffer_of, pending_buffer.
  open_session s. cbn. intros -> -> Hb Ht -> -> Hcb.
  destruct ev as [chunk|code| | |data|]; cbn.
  - rewrite map_app, !fold_left_app, Hb. cbn. tauto.
  - now contradiction (Hev code).
  - rewrite app_nil_r. destruct tmr; cbn; [|tauto].
    unfold onTimeout, killPty; cbn. destruct pty; cbn; tauto.
  - rewrite app_nil_r. destruct ab as [[|]|]; cbn; try tauto.
    destruct onA; cbn; [|tauto].
    unfold onAbort, killPty; cbn. destruct pty; cbn; tauto.
  - rewrite app_nil_r. unfold handleInput, is_running; cbn.
    destruct (is_escape data); cbn.
    + unfold onDismiss, killPty; cbn. destruct dis; cbn; [tauto|].
      destruct pty; cbn; tauto.
    + unfold onInput; cbn. destruct pty; cbn; tauto.
  - rewrite app_nil_r. unfold parse_next; cbn.
    destruct q as [|[d [cb|]] q']; cbn; try tauto.
    inversion Hcb as [|? ? Hn _]. discriminate Hn.
Qed.

Lemma run_BeforeExit (p : Params) (tr : list Event) :
  forall chunks (s : Session (B := B)),
    BeforeExit p chunks s -> no_exit tr ->
    BeforeExit p (chunks ++ chunks_of tr) (run s tr).
Proof.
  induction tr as [|ev tr IH]; intros chunks s Hs Hne.
  - cbn. now rewrite app_nil_r.
  - cbn [run fold_left].
    change (ev :: tr) with ([ev] ++ tr). rewrite chunks_of_app, app_assoc.
    apply IH.
    + apply step_BeforeExit; [exact Hs|].
      intros c Hc. apply (Hne c). left. exact Hc.
    + intros c Hc. apply (Hne c). right. exact Hc.
Qed.

Lemma reachable_BeforeExit (p : Params) (pre : list Event) :
  no_exit pre -> BeforeExit p (chunks_of pre) (run (setup p Spawned) pre).
Proof. intros Hne. apply (run_BeforeExit (setup_BeforeExit p) Hne). Qed.

(** *** From the first exit event on *)

Lemma exit_AfterExit (p : Params) (chunks : list text) (s : Session (B := B))
    (c : option Z) (T : Prop) :
  BeforeExit p chunks s ->
  AfterExit (pending_buffer s) (exit_callback s c)
    (v_dismissedByUser (vars s)) (v_timedOut (vars s)) T (step s (EvExit c)).
Proof.
  intros (HI & Hf & Hst & _ & _).
  destruct HI as (Hopen & _ & _ & _ & _ & _ & _ & Hcb).
  destruct (Hopen Hf) as (_ & _ & _ & _ & _ & HoE & _). specialize (Hcb Hst).
  revert Hf Hst HoE Hcb. unfold AfterExit, pending_buffer, exit_callback, aborted_now.
  open_session s. cbn. intros -> -> -> Hcb.
  repeat split; try tauto.
  - destruct tmo, dis; cbn; discriminate.
  - left. split; [reflexivity|]. exists q, []. tauto.
Qed.

Lemma step_AfterExit (p : Params) (b : B) (cb : FlushCallback) (d0 t0 : bool)
    (T : Prop) (s : Session (B := B)) (ev : Event) :
  Inv p s -> AfterExit b cb d0 t0 T s -> (ev = EvTimer -> T) ->
  AfterExit b cb d0 t0 T (step s ev).
Proof.
  intros HI (Hdis & Ht1 & Ht2 & Hst & Hcase) HT.
  destruct Hcase as [(Hf & q1 & q2 & Hq & Hq1 & Hb) | (Hf & tmo' & Hr & Hclosed)].
  - (* the flush callback is still queued *)
    destruct HI as (Hopen & _ & Htm & Hab & _).
    destruct (Hopen Hf) as (Hds & Hdi & Hrs & Hca & HoD & HoE & Hwi).
    revert Hdis Ht1 Ht2 Hst Hf Hq Hb Hds Hdi Hrs Hca HoD HoE Hwi Htm Hab.
    unfold AfterExit. open_session s. cbn.
    intros <- Ht1 Ht2 Hst -> -> Hb -> -> -> -> -> -> -> Htm Hab.
    destruct ev as [chunk|code| | |data|]; cbn.
    + repeat split; try tauto. left. split; [reflexivity|].
      exists q1, (q2 ++ [{| w_data := chunk; w_callback := None |}]).
      rewrite <- app_assoc. cbn. tauto.
    + repeat split; try tauto.
      * destruct tmo, dis; cbn; discriminate.
      * left. split; [reflexivity|].
        eexists q1, (q2 ++ [_]). rewrite <- app_assoc. cbn. split; [reflexivity|tauto].
    + destruct tmr; cbn.
      * unfold onTimeout, killPty; cbn. destruct pty; cbn;
          (repeat split; try tauto; left; split; [reflexivity|]; exists q1, q2; tauto).
      * repeat split; try tauto. left. split; [reflexivity|]. exists q1, q2. tauto.
    + destruct ab as [[|]|]; cbn;
        try (repeat split; try tauto; left; split; [reflexivity|]; exists q1, q2; tauto).
      destruct onA; cbn.
      * unfold onAbort, killPty; cbn. destruct pty; cbn;
          (repeat split; try tauto; left; split; [reflexivity|]; exists q1, q2; tauto).
      * repeat split; try tauto. left. split; [reflexivity|]. exists q1, q2. tauto.
    + unfold handleInput, is_running; cbn. destruct st; cbn; try tauto;
        (repeat split; try tauto; try discriminate;
         left; split; [reflexivity|]; exists q1, q2; tauto).
    + unfold parse_next. cbn [comp c_queue].
      destruct q1 as [|[d [cb1|]] q1']; cbn [app w_callback w_data].
      * (* the flush callback runs *)
        cbn in Hb. subst b. rewrite flush_callback_eq.
        cbn [vars comp world with_comp with_world v_finished].
        rewrite (finish_open (p := p)) by (cbn; tauto).
        cbn. rewrite em_feed_nil. repeat split; try tauto.
        right. split; [reflexivity|]. exists tmo. tauto.
      * inversion Hq1 as [|? ? Hn _]. discriminate Hn.
      * cbn. repeat split; try tauto. left. split; [reflexivity|].
        exists q1', q2. inversion Hq1. tauto.
  - (* the session has finished *)
    destruct (step_closed ev HI Hf) as (Hr' & _).
    assert (Hf' := step_finished s ev Hf).
    destruct HI as (_ & Hcl & _). destruct (Hcl Hf) as (_ & _ & _ & _ & HoD & HoE & Htm & HoA & _).
    unfold AfterExit. rewrite Hr', Hf'.
    assert (Hsame : v_dismissedByUser (vars (step s ev)) = v_dismissedByUser (vars s)
                    /\ v_timedOut (vars (step s ev)) = v_timedOut (vars s)
                    /\ c_state (comp (step s ev)) = c_state (comp s)).
    { revert Hf HoD HoE Htm HoA Hst. clear. open_session s. cbn.
      intros -> -> -> -> -> Hst.
      destruct ev as [chunk|code| | |data|]; cbn; try tauto.
      - destruct ab as [[|]|]; cbn; tauto.
      - unfold handleInput, is_running; cbn. destruct st; cbn; tauto.
      - unfold parse_next; cbn. destruct q as [|[d [cb1|]] q']; cbn; tauto. }
    destruct Hsame as (-> & -> & ->).
    repeat split; try tauto. right. split; [reflexivity|]. exists tmo'. tauto.
Qed.

Lemma run_AfterExit (p : Params) (b : B) (cb : FlushCallback) (d0 t0 : bool)
    (T : Prop) (tr : list Event) :
  (In EvTimer tr -> T) ->
  forall s : Session (B := B),
    Inv p s -> AfterExit b cb d0 t0 T s -> AfterExit b cb d0 t0 T (run s tr).
Proof.
  induction tr as [|ev tr IH]; intros HT s HI HA; [exact HA|].
  cbn [run fold_left]. apply IH.
  - intros Hin. apply HT. now right.
  - now apply step_Inv.
  - eapply step_AfterExit; try eassumption. intros ->. apply HT. now left.
Qed.

(** Without an exit event nothing is handed over. *)
Lemma no_exit_no_result (p : Params) (tr : list Event) :
  no_exit tr -> w_results (world (run (setup p Spawned) tr)) = [].
Proof.
  intros Hne. destruct (reachable_BeforeExit p Hne) as (HI & Hf & _).
  destruct HI as (Hopen & _). now apply Hopen.
Qed.

(** A trace has no exit event, or a first one. *)
Lemma first_exit (tr : list Event) :
  no_exit tr
  \/ exists pre c post, tr = pre ++ EvExit c :: post /\ no_exit pre.
Proof.
  induction tr as [|ev tr IH].
  - left. intros c [].
  - destruct ev as [chunk|code| | |data|];
      try (destruct IH as [Hne | (pre & c & post & -> & Hne)];
           [ left; intros c [Hc|Hc]; [discriminate | now apply (Hne c)]
           | right;
             match goal with
             | |- context [?e :: pre ++ _] => exists (e :: pre), c, post
             end;
             split; [reflexivity|];
             intros c' [Hc|Hc]; [discriminate | now apply (Hne c')] ]).
    right. exists [], code, tr. split; [reflexivity|]. intros c [].
Qed.

(** The result of a session is decided when its first exit event is
    handled: the exit code and [abortedBySignal] are the constants computed
    then, [dismissedByUser] is the variable as it is then, the texts are
    read from the buffer of all chunks delivered before, and [timedOut] is
    the variable as it is then unless the timer fires afterwards. *)
Lemma first_exit_decides (p : Params) (pre post : list Event) (c : option Z)
    (r : InteractiveTermExecutionResult) :
  no_exit pre ->
  In r (w_results (world (run (setup p Spawned) (pre ++ EvExit c :: post)))) ->
  let s1 := run (setup p Spawned) pre in
  exists tmo',
    r = captured (buffer_of p (chunks_of pre)) (exit_callback s1 c) tmo'
          (v_dismissedByUser (vars s1))
    /\ (v_timedOut (vars s1) = true -> tmo' = true)
    /\ (tmo' = true -> v_timedOut (vars s1) = true \/ In EvTimer post).
Proof.
  intros Hne Hin s1.
  pose proof (reachable_BeforeExit p Hne) as HB. fold s1 in HB.
  pose proof (exit_AfterExit c (In EvTimer post) HB) as HA.
  assert (HI : Inv p (step s1 (EvExit c))) by (apply step_Inv, HB).
  pose proof (run_AfterExit post (fun H => H) HI HA) as HA'.
  rewrite run_app in Hin. fold s1 in Hin. cbn [run fold_left] in Hin.
  change (fold_left step post (step s1 (EvExit c)))
    with (run (step s1 (EvExit c)) post) in Hin.
  destruct HB as (_ & _ & _ & Hb & _). cbn in Hb.
  destruct HA' as (_ & _ & _ & _ & [(Hf & _) | (Hf & tmo' & Hr & H1 & H2)]).
  - pose proof (run_Inv post HI) as (Hopen & _).
    destruct (Hopen Hf) as (_ & _ & Hrs & _). rewrite Hrs in Hin. destruct Hin.
  - rewrite Hr in Hin. destruct Hin as [<-|[]].
    exists tmo'. rewrite <- Hb. tauto.
Qed.

(** Only a turn of the emulator hands over a result or reads the buffer for
    a capture. *)
Lemma step_not_parse (s : Session (B := B)) (ev : Event) :
  ev <> EvParse ->
  w_results (world (step s ev)) = w_results (world s)
  /\ w_captures (world (step s ev)) = w_captures (world s).
Proof.
  intros Hev. open_session s.
  destruct ev as [chunk|code| | |data|]; cbn; try tauto.
  - destruct onD; cbn; tauto.
  - destruct onE; cbn; tauto.
  - destruct tmr; cbn; [|tauto]. unfold onTimeout, killPty; cbn.
    destruct fin; cbn; [tauto|]. destruct pty; cbn; tauto.
  - destruct ab as [[|]|]; cbn; try tauto. destruct onA; cbn; [|tauto].
    unfold onAbort, killPty; cbn. destruct fin; cbn; [tauto|]. destruct pty; cbn; tauto.
  - unfold handleInput, is_running, onDismiss, onInput, killPty; cbn.
    destruct st; cbn; try tauto.
    destruct (is_escape data), wired; cbn; try tauto.
    + destruct dis; cbn; [tauto|]. destruct pty; cbn; tauto.
    + destruct pty; cbn; tauto.
Qed.

(** C2.  The final state of the buffer is read in the flush callback, which
    is a turn of the emulator: no other turn hands over a result or reads
    the buffer for one.  The scrollback and the snapshot of a result are
    read from the buffer that has parsed every chunk the PTY delivered
    before the exit event, also a chunk delivered right before it; when the
    PTY delivers "hi", a line feed and "root" and reports the exit at once,
    both texts end with "root". *)
Theorem capture_after_flush (p : Params) :
  (forall (s : Session (B := B)) ev,
      ev <> EvParse ->
      w_results (world (step s ev)) = w_results (world s)
      /\ w_captures (world (step s ev)) = w_captures (world s))
  /\ (forall pre c post r,
        no_exit pre ->
        In r (w_results (world (run (setup p Spawned) (pre ++ EvExit c :: post)))) ->
        let b := buffer_of p (chunks_of pre) in
        scrollback r
        = content (truncateTail (fst (getScrollback b SCROLLBACK_MAX_LINES))
                     {| maxLines := None; maxBytes := Some CAPTURE_MAX_BYTES |})
        /\ screenSnapshot r
           = content (truncateTail (getSnapshot b SCREEN_SNAPSHOT_MAX_LINES)
                        {| maxLines := Some SCREEN_SNAPSHOT_MAX_LINES;
                           maxBytes := Some SCREEN_SNAPSHOT_MAX_BYTES |}))
  /\ (forall pre c,
        no_exit pre ->
        exists r,
          w_results (world (settle (run (setup p Spawned) (pre ++ [EvExit c])))) = [r])
  /\ w_results (world (demo Spawned
                         [EvData (str "hi" ++ [NL]); EvData (str "root");
                          EvExit (Some 0); EvParse; EvParse; EvParse]))
     = [{| exitCode := Some 0;
           scrollback := str "hi" ++ [NL] ++ str "root";
           screenSnapshot := str "hi" ++ [NL] ++ str "root";
           timedOut := false; dismissedByUser := false;
           scrollbackTruncated := false; abortedBySignal := false |}].
Proof.
  split; [|split; [|split]]; [| | |vm_compute; reflexivity].
  - intros s ev. apply step_not_parse.
  - intros pre c post r Hne Hin b.
    destruct (@first_exit_decides p pre post c r Hne Hin) as (tmo' & -> & _).
    split; reflexivity.
  - intros pre c Hne. rewrite run_app. cbn [run fold_left].
    destruct (exit_then_settle c (reachable_Inv p Spawned pre)) as (Hlen & _).
    destruct (w_results _) as [|r [|r' rs]]; try discriminate.
    now exists r.
Qed.

(** *** The variables [timedOut] and [dismissedByUser] are never reset *)

Lemma dispose_all_frame (ds : list Disposable) (s : Session (B := B)) :
  vars (fold_left (fun st d => dispose d st) ds s) = vars s
  /\ comp (fold_left (fun st d => dispose d st) ds s) = comp s.
Proof.
  revert s. induction ds as [|d ds IH]; intros s; cbn; [tauto|].
  destruct (IH (dispose d s)) as (-> & ->). destruct d; cbn; tauto.
Qed.

Lemma finish_frame (r : InteractiveTermExecutionResult) (s : Session (B := B)) :
  v_dismissedByUser (vars (finish r s)) = v_dismissedByUser (vars s)
  /\ v_timedOut (vars (finish r s)) = v_timedOut (vars s)
  /\ v_pty (vars (finish r s)) = v_pty (vars s)
  /\ comp (finish r s) = comp s.
Proof.
  unfold finish. destruct (v_finished (vars s)); [tauto|]. cbn.
  match goal with
  | |- context [fold_left ?f ?ds ?s0] => destruct (dispose_all_frame ds s0) as (-> & ->)
  end.
  cbn. tauto.
Qed.

Lemma step_timedOut (s : Session (B := B)) (ev : Event) :
  v_timedOut (vars s) = true -> v_timedOut (vars (step s ev)) = true.
Proof.
  open_session s. cbn. intros ->.
  destruct ev as [chunk|code| | |data|]; cbn.
  - destruct onD; reflexivity.
  - destruct onE; reflexivity.
  - destruct tmr; cbn; [|reflexivity]. unfold onTimeout, killPty; cbn.
    destruct fin; cbn; [reflexivity|]. destruct pty; reflexivity.
  - destruct ab as [[|]|]; try reflexivity. destruct onA; cbn; [|reflexivity].
    unfold onAbort, killPty; cbn. destruct fin; cbn; [reflexivity|].
    destruct pty; reflexivity.
  - unfold handleInput, is_running, onDismiss, onInput, killPty; cbn.
    destruct st; cbn; try reflexivity.
    destruct (is_escape data), wired; cbn; try reflexivity.
    + destruct dis; cbn; [reflexivity|]. destruct pty; reflexivity.
    + destruct pty; reflexivity.
  - unfold parse_next; cbn. destruct q as [|[d [cb|]] q']; cbn; try reflexivity.
    rewrite flush_callback_eq. cbn. destruct fin; [reflexivity|].
    match goal with
    | |- context [finish ?r ?s0] => destruct (finish_frame r s0) as (_ & -> & _)
    end.
    reflexivity.
Qed.

Lemma run_timedOut (tr : list Event) (s : Session (B := B)) :
  v_timedOut (vars s) = true -> v_timedOut (vars (run s tr)) = true.
Proof.
  revert s. induction tr as [|ev tr IH]; intros s Hs; [exact Hs|].
  cbn. apply IH. now apply step_timedOut.
Qed.

Lemma step_dismissed (s : Session (B := B)) (ev : Event) :
  v_dismissedByUser (vars s) = true -> v_dismissedByUser (vars (step s ev)) = true.
Proof.
  open_session s. cbn. intros ->.
  destruct ev as [chunk|code| | |data|]; cbn.
  - destruct onD; reflexivity.
  - destruct onE; reflexivity.
  - destruct tmr; cbn; [|reflexivity]. unfold onTimeout, killPty; cbn.
    destruct fin; cbn; [reflexivity|]. destruct pty; reflexivity.
  - destruct ab as [[|]|]; try reflexivity. destruct onA; cbn; [|reflexivity].
    unfold onAbort, killPty; cbn. destruct fin; cbn; [reflexivity|].
    destruct pty; reflexivity.
  - unfold handleInput, is_running, onDismiss, onInput, killPty; cbn.
    destruct st; cbn; try reflexivity.
    destruct (is_escape data), wired; cbn; try reflexivity.
    destruct pty; reflexivity.
  - unfold parse_next; cbn. destruct q as [|[d [cb|]] q']; cbn; try reflexivity.
    rewrite flush_callback_eq. cbn. destruct fin; [reflexivity|].
    match goal with
    | |- context [finish ?r ?s0] => destruct (finish_frame r s0) as (-> & _)
    end.
    reflexivity.
Qed.

Lemma run_dismissed (tr : list Event) (s : Session (B := B)) :
  v_dismissedByUser (vars s) = true -> v_dismissedByUser (vars (run s tr)) = true.
Proof.
  revert s. induction tr as [|ev tr IH]; intros s Hs; [exact Hs|].
  cbn. apply IH. now apply step_dismissed.
Qed.

(** Only the timer sets [timedOut]. *)
Lemma step_not_timer (s : Session (B := B)) (ev : Event) :
  ev <> EvTimer -> v_timedOut (vars (step s ev)) = v_timedOut (vars s).
Proof.
  intros Hev. open_session s.
  destruct ev as [chunk|code| | |data|]; cbn; try tauto.
  - destruct onD; reflexivity.
  - destruct onE; reflexivity.
  - destruct ab as [[|]|]; try reflexivity. destruct onA; cbn; [|reflexivity].
    unfold onAbort, killPty; cbn. destruct fin; cbn; [reflexivity|].
    destruct pty; reflexivity.
  - unfold handleInput, is_running, onDismiss, onInput, killPty; cbn.
    destruct st; cbn; try reflexivity.
    destruct (is_escape data), wired; cbn; try reflexivity.
    + destruct dis; cbn; [reflexivity|]. destruct pty; reflexivity.
    + destruct pty; reflexivity.
  - unfold parse_next; cbn. destruct q as [|[d [cb|]] q']; cbn; try reflexivity.
    rewrite flush_callback_eq. cbn. destruct fin; [reflexivity|].
    match goal with
    | |- context [finish ?r ?s0] => destruct (finish_frame r s0) as (_ & -> & _)
    end.
    reflexivity.
Qed.

Lemma run_no_timer (tr : list Event) (s : Session (B := B)) :
  ~ In EvTimer tr -> v_timedOut (vars (run s tr)) = v_timedOut (vars s).
Proof.
  revert s. induction tr as [|ev tr IH]; intros s Hn; [reflexivity|].
  cbn [run fold_left]. unfold run in IH. rewrite IH.
  - apply step_not_timer. intros ->. apply Hn. now left.
  - intros Hin. apply Hn. now right.
Qed.

(** While the session runs, a timer that the parameters ask for sets
    [timedOut] when it fires (if it has not done so before). *)
Lemma timer_sets_timedOut (p : Params) (chunks : list text) (s : Session (B := B)) :
  BeforeExit p chunks s -> p_timeoutMs p <> None ->
  v_timedOut (vars (step s EvTimer)) = true.
Proof.
  intros (_ & Hf & _ & _ & Ht) Hp. specialize (Ht Hp). revert Hf Ht.
  open_session s. cbn. intros -> [-> | ->]; cbn.
  - unfold onTimeout, killPty. cbn. destruct pty; reflexivity.
  - destruct tmr; cbn; [|reflexivity].
    unfold onTimeout, killPty. cbn. destruct pty; reflexivity.
Qed.

Lemma no_exit_app (a b : list Event) : no_exit a -> no_exit b -> no_exit (a ++ b).
Proof.
  intros Ha Hb c Hin. apply in_app_or in Hin. destruct Hin; [now apply (Ha c) | now apply (Hb c)].
Qed.

Lemma no_exit_cons (ev : Event) (a : list Event) :
  (forall c, ev <> EvExit c) -> no_exit a -> no_exit (ev :: a).
Proof. intros He Ha c [Hc|Hin]; [now apply (He c) | now apply (Ha c)]. Qed.

(** C3.  With a timeout configured: when the timer fires before the PTY
    has reported an exit, every result that the session hands over has no
    exit code and [timedOut] set, whatever exit code the PTY reports for
    the killed child; and once the PTY has reported the exit and the
    emulator has parsed its queue, such a result has been handed over. *)
Theorem timeout_result (p : Params) (ms : Z) (pre : list Event) :
  p_timeoutMs p = Some ms -> no_exit pre ->
  (forall post r,
      In r (w_results (world (run (setup p Spawned) (pre ++ EvTimer :: post)))) ->
      exitCode r = None /\ timedOut r = true)
  /\ (forall c,
        exists r,
          w_results (world (settle (run (setup p Spawned) (pre ++ [EvTimer; EvExit c])))) = [r]
          /\ exitCode r = None /\ timedOut r = true).
Proof.
  intros Hp Hne.
  assert (Hmain : forall post r,
             In r (w_results (world (run (setup p Spawned) (pre ++ EvTimer :: post)))) ->
             exitCode r = None /\ timedOut r = true).
  { intros post r Hin.
    destruct (first_exit post) as [Hne' | (mid & c & rest & -> & Hmid)].
    - rewrite no_exit_no_result in Hin; [destruct Hin|].
      apply no_exit_app; [exact Hne|]. apply no_exit_cons; [discriminate | exact Hne'].
    - assert (Hne1 : no_exit (pre ++ EvTimer :: mid)).
      { apply no_exit_app; [exact Hne|]. apply no_exit_cons; [discriminate | exact Hmid]. }
      replace (pre ++ EvTimer :: mid ++ EvExit c :: rest)
        with ((pre ++ EvTimer :: mid) ++ EvExit c :: rest) in Hin
        by (rewrite <- app_assoc; reflexivity).
      destruct (@first_exit_decides p _ rest c r Hne1 Hin) as (tmo' & -> & Ht & _).
      assert (Htmo : v_timedOut (vars (run (setup p Spawned) (pre ++ EvTimer :: mid))) = true).
      { rewrite run_app. cbn [run fold_left]. apply run_timedOut.
        eapply timer_sets_timedOut; [apply (reachable_BeforeExit p Hne)|].
        rewrite Hp. discriminate. }
      unfold captured, exit_callback. cbn [exitCode timedOut cb_exitCode].
      rewrite Htmo. split; [reflexivity | now apply Ht]. }
  split; [exact Hmain|].
  intros c.
  pose proof (exit_then_settle c (reachable_Inv p Spawned (pre ++ [EvTimer]))) as (Hlen & _).
  replace (pre ++ [EvTimer; EvExit c]) with ((pre ++ [EvTimer]) ++ [EvExit c])
    by (rewrite <- app_assoc; reflexivity).
  rewrite (run_app _ (pre ++ [EvTimer]) [EvExit c]). cbn [run fold_left].
  change (fold_left step (pre ++ [EvTimer]) (setup p Spawned))
    with (run (setup p Spawned) (pre ++ [EvTimer])).
  destruct (w_results _) as [|r [|r' rs]] eqn:Hr; try discriminate.
  exists r. split; [reflexivity|].
  apply (Hmain (EvExit c :: repeat EvParse
                  (length (c_queue (comp (step (run (setup p Spawned) (pre ++ [EvTimer]))
                                            (EvExit c))))))).
  replace (pre ++ EvTimer :: EvExit c :: repeat EvParse
             (length (c_queue (comp (step (run (setup p Spawned) (pre ++ [EvTimer]))
                                       (EvExit c))))))
    with ((pre ++ [EvTimer]) ++ EvExit c :: repeat EvParse
            (length (c_queue (comp (step (run (setup p Spawned) (pre ++ [EvTimer]))
                                      (EvExit c))))))
    by (rewrite <- app_assoc; reflexivity).
  rewrite run_app. cbn [run fold_left].
  unfold settle, run in Hr. unfold run. rewrite Hr. now left.
Qed.

(** *** The abort signal *)

Lemma dispose_all_aborted (ds : list Disposable) (s : Session (B := B)) :
  w_aborted (world (fold_left (fun st d => dispose d st) ds s)) = w_aborted (world s).
Proof.
  revert s. induction ds as [|d ds IH]; intros s; cbn; [reflexivity|].
  rewrite IH. destruct d; reflexivity.
Qed.

Lemma finish_aborted (r : InteractiveTermExecutionResult) (s : Session (B := B)) :
  w_aborted (world (finish r s)) = w_aborted (world s).
Proof.
  unfold finish. destruct (v_finished (vars s)); [reflexivity|]. cbn.
  now rewrite dispose_all_aborted.
Qed.

Lemma step_not_abort (s : Session (B := B)) (ev : Event) :
  ev <> EvAbort -> w_aborted (world (step s ev)) = w_aborted (world s).
Proof.
  intros Hev. open_session s.
  destruct ev as [chunk|code| | |data|]; cbn; try tauto.
  - destruct onD; reflexivity.
  - destruct onE; reflexivity.
  - destruct tmr; cbn; [|reflexivity]. unfold onTimeout, killPty; cbn.
    destruct fin; cbn; [reflexivity|]. destruct pty; reflexivity.
  - unfold handleInput, is_running, onDismiss, onInput, killPty; cbn.
    destruct st; cbn; try reflexivity.
    destruct (is_escape data), wired; cbn; try reflexivity.
    + destruct dis; cbn; [reflexivity|]. destruct pty; reflexivity.
    + destruct pty; reflexivity.
  - unfold parse_next; cbn. destruct q as [|[d [cb|]] q']; cbn; try reflexivity.
    rewrite flush_callback_eq. cbn. destruct fin; [reflexivity|].
    now rewrite finish_aborted.
Qed.

(** The signal counts as aborted only if it was so at the call or has
    aborted since. *)
Lemma run_aborted (tr : list Event) (s : Session (B := B)) :
  w_aborted (world (run s tr)) = Some true ->
  w_aborted (world s) = Some true \/ In EvAbort tr.
Proof.
  revert s. induction tr as [|ev tr IH]; intros s Hab; [now left|].
  cbn [run fold_left] in Hab. destruct (IH (step s ev) Hab) as [Hs|Hin].
  - destruct ev as [chunk|code| | |data|];
      try (rewrite step_not_abort in Hs by discriminate; now left).
    right. now left.
  - right. now right.
Qed.

(** *** After a failed spawn *)

(** Once finished, no turn changes the variables or the status of the
    overlay. *)
Lemma step_closed_status (p : Params) (s : Session (B := B)) (ev : Event) :
  Inv p s -> v_finished (vars s) = true ->
  v_dismissedByUser (vars (step s ev)) = v_dismissedByUser (vars s)
  /\ v_timedOut (vars (step s ev)) = v_timedOut (vars s)
  /\ c_state (comp (step s ev)) = c_state (comp s)
  /\ c_exitCode (comp (step s ev)) = c_exitCode (comp s).
Proof.
  intros (_ & Hcl & _) Hf.
  destruct (Hcl Hf) as (_ & _ & _ & _ & HoD & HoE & Htm & HoA & Hst).
  revert Hf HoD HoE Htm HoA Hst. clear. open_session s. cbn.
  intros -> -> -> -> -> Hst.
  destruct ev as [chunk|code| | |data|]; cbn; try tauto.
  - destruct ab as [[|]|]; cbn; tauto.
  - unfold handleInput, is_running; cbn. destruct st; cbn; tauto.
  - unfold parse_next; cbn. destruct q as [|[d [cb1|]] q']; cbn; tauto.
Qed.

Lemma run_closed_status (p : Params) (tr : list Event) (s : Session (B := B)) :
  Inv p s -> v_finished (vars s) = true ->
  c_state (comp (run s tr)) = c_state (comp s)
  /\ c_exitCode (comp (run s tr)) = c_exitCode (comp s).
Proof.
  revert s. induction tr as [|ev tr IH]; intros s HI Hf; [tauto|].
  cbn [run fold_left].
  destruct (step_closed_status ev HI Hf) as (_ & _ & Hs & He).
  destruct (IH (step s ev) (step_Inv ev HI) (step_finished s ev Hf)) as (Hs' & He').
  unfold run in *. rewrite Hs', He'. tauto.
Qed.

Lemma spawn_failure_run (p : Params) (msg : text) (tr : list Event) :
  let s := run (setup p (SpawnThrows msg)) tr in
  w_results (world s) = [spawn_failure msg]
  /\ v_finished (vars s) = true
  /\ c_state (comp s) = complete
  /\ c_exitCode (comp s) = None.
Proof.
  intros s. pose proof (setup_Inv p (SpawnThrows msg)) as HI.
  assert (Hf : v_finished (vars (setup p (SpawnThrows msg))) = true) by reflexivity.
  destruct (run_closed tr HI Hf) as (Hr & _).
  destruct (run_closed_status tr HI Hf) as (Hs & He).
  subst s. rewrite Hr, Hs, He. repeat split. now apply run_finished.
Qed.

(** C4.  When the spawn throws, [setup] returns the component all the
    same; the session has finished with one result, which has no exit
    code, carries the message of the failure in its scrollback text and has
    none of its four flags set; [execute] returns it and does not throw.
    The overlay has been told to show the message, a render has been
    requested, and its status is [complete] without an exit code, in this
    state and after any further turns. *)
Theorem spawn_failure_result (p : Params) (msg : text) :
  let s0 := setup p (SpawnThrows msg) in
  let r := spawn_failure msg in
  (exitCode r = None
   /\ scrollback r = str "Failed to spawn PTY: " ++ msg
   /\ timedOut r = false /\ dismissedByUser r = false
   /\ scrollbackTruncated r = false /\ abortedBySignal r = false)
  /\ (exists details body, execute_outcome r = Returned details body)
  /\ (c_queue (comp s0)
      = [{| w_data := NL :: str "Failed to spawn PTY: " ++ msg ++ [NL];
            w_callback := None |}]
      /\ w_renders (world s0) = 1%nat)
  /\ (forall tr,
        let s := run s0 tr in
        w_results (world s) = [r]
        /\ v_finished (vars s) = true
        /\ c_state (comp s) = complete
        /\ c_exitCode (comp s) = None).
Proof.
  intros s0 r. split; [|split; [|split]].
  - cbn. tauto.
  - eexists _, _. reflexivity.
  - split; reflexivity.
  - intros tr. apply spawn_failure_run.
Qed.

(** [execute] throws [ToolAbortError] exactly when the result it is
    handed has [abortedBySignal] set.  A result has the flag set only in a
    session whose spawn succeeded and in which, when the first exit event
    was handled, the signal was aborted (it was so at the call, or aborted
    before that event) and neither [timedOut] nor [dismissedByUser] was
    set; such a result has [dismissedByUser] unset, and [timedOut] unset
    unless the timer fires between the exit event and the flush
    callback. *)
Theorem abort_is_surfaced (p : Params) :
  (forall r,
      (exists m, execute_outcome r = ThrownToolAbortError m) <-> abortedBySignal r = true)
  /\ (forall spawn tr r,
        In r (w_results (world (run (setup p spawn) tr))) ->
        abortedBySignal r = true ->
        spawn = Spawned
        /\ exists pre c post,
            tr = pre ++ EvExit c :: post /\ no_exit pre
            /\ let s1 := run (setup p Spawned) pre in
               w_aborted (world s1) = Some true
               /\ (p_signal p = Some true \/ In EvAbort pre)
               /\ v_dismissedByUser (vars s1) = false
               /\ v_timedOut (vars s1) = false
               /\ dismissedByUser r = false
               /\ (~ In EvTimer post -> timedOut r = false)).
Proof.
  split.
  - intros r. unfold execute_outcome. destruct (abortedBySignal r); split.
    + reflexivity.
    + intros _. eexists. reflexivity.
    + intros [m Hm]. discriminate.
    + discriminate.
  - intros spawn tr r Hin Hab. destruct spawn as [|msg].
    + split; [reflexivity|].
      destruct (first_exit tr) as [Hne | (pre & c & post & -> & Hne)].
      * rewrite (no_exit_no_result p Hne) in Hin. destruct Hin.
      * exists pre, c, post. split; [reflexivity|]. split; [exact Hne|].
        destruct (@first_exit_decides p pre post c r Hne Hin) as (tmo' & -> & H1 & H2).
        revert Hab. unfold captured, exit_callback, aborted_now.
        cbn [abortedBySignal cb_abortedBySignal dismissedByUser timedOut].
        intros Hab. apply andb_prop in Hab. destruct Hab as (Hab & Ht).
        apply andb_prop in Hab. destruct Hab as (Hab & Hd).
        apply negb_true_iff in Ht, Hd.
        assert (Ha : w_aborted (world (run (setup p Spawned) pre)) = Some true).
        { destruct (w_aborted _) as [[|]|]; try discriminate. reflexivity. }
        repeat split; try assumption.
        -- destruct (run_aborted pre _ Ha) as [Hs|Hi]; [left; exact Hs | now right].
        -- intros Hnt. destruct tmo'; [|reflexivity].
           destruct (H2 eq_refl) as [Ht'|Hi]; [congruence | contradiction].
    + exfalso.
      destruct (spawn_failure_run p msg tr) as (Hr & _).
      rewrite Hr in Hin. destruct Hin as [<-|[]]. discriminate.
Qed.

(** *** Keystrokes *)

Lemma step_not_running (s : Session (B := B)) (ev : Event) :
  is_running s = false -> is_running (step s ev) = false.
Proof.
  unfold is_running. open_session s. cbn. intros Hst.
  destruct ev as [chunk|code| | |data|]; cbn.
  - destruct onD; exact Hst.
  - destruct onE; cbn; [|exact Hst]. destruct tmo, dis; reflexivity.
  - destruct tmr; cbn; [|exact Hst]. unfold onTimeout, killPty; cbn.
    destruct fin; cbn; [exact Hst|]. destruct pty; exact Hst.
  - destruct ab as [[|]|]; try exact Hst. destruct onA; cbn; [|exact Hst].
    unfold onAbort, killPty; cbn. destruct fin; cbn; [exact Hst|].
    destruct pty; exact Hst.
  - unfold handleInput, is_running; cbn. destruct st; cbn; try exact Hst. discriminate.
  - unfold parse_next; cbn. destruct q as [|[d [cb|]] q']; cbn; try exact Hst.
    rewrite flush_callback_eq. cbn. destruct fin; [exact Hst|].
    match goal with
    | |- context [finish ?r ?s0] => destruct (finish_frame r s0) as (_ & _ & _ & ->)
    end.
    exact Hst.
Qed.

Lemma exit_stops_running (p : Params) (s : Session (B := B)) (c : option Z) :
  Inv p s -> is_running (step s (EvExit c)) = false.
Proof.
  intros (Hopen & Hclosed & _). unfold is_running.
  destruct (v_finished (vars s)) eqn:Hf.
  - destruct (Hclosed eq_refl) as (_ & _ & _ & _ & _ & HoE & _ & _ & Hst).
    cbn. rewrite HoE. destruct (c_state (comp s)); try reflexivity. now contradiction Hst.
  - destruct (Hopen eq_refl) as (_ & _ & _ & _ & _ & HoE & _).
    cbn. rewrite HoE. cbn.
    destruct (v_timedOut (vars s)), (v_dismissedByUser (vars s)); reflexivity.
Qed.

(** When exits follow kills at once, a running overlay still holds its
    PTY. *)
Lemma prompt_exits_hold_pty (p : Params) (n : nat) :
  forall (tr : list Event) (s : Session (B := B)),
    (length tr <= n)%nat -> Inv p s ->
    (is_running s = true -> v_pty (vars s) = true) ->
    prompt_exits s tr ->
    is_running (run s tr) = true -> v_pty (vars (run s tr)) = true.
Proof.
  induction n as [|n IH]; intros tr s Hlen HI HK Hp.
  - destruct tr; [exact HK | cbn in Hlen; lia].
  - destruct tr as [|ev tr']; [exact HK|].
    cbn [prompt_exits] in Hp. cbn [run fold_left].
    destruct (is_running (step s ev) && v_pty (vars s) && negb (v_pty (vars (step s ev))))
      eqn:Hkill.
    + destruct tr' as [|[chunk|c| | |data|] tr'']; try contradiction.
      cbn [fold_left]. apply (IH tr'' (step (step s ev) (EvExit c))).
      * cbn in Hlen. lia.
      * now apply step_Inv, step_Inv.
      * rewrite (exit_stops_running c (step_Inv ev HI)). discriminate.
      * exact Hp.
    + apply (IH tr' (step s ev)).
      * cbn in Hlen. lia.
      * now apply step_Inv.
      * intros Hrun. rewrite Hrun in Hkill. cbn in Hkill.
        destruct (v_pty (vars (step s ev))); [reflexivity|].
        destruct (v_pty (vars s)) eqn:Hpty; [discriminate|].
        destruct (is_running s) eqn:Hs; [specialize (HK eq_refl); congruence|].
        rewrite (step_not_running s ev Hs) in Hrun. discriminate.
      * exact Hp.
Qed.

Lemma handleInput_escape (p : Params) (s : Session (B := B)) (data : text) :
  Inv p s -> v_finished (vars s) = false ->
  is_running s = true -> is_escape data = true ->
  let s' := step s (EvInput data) in
  v_dismissedByUser (vars s') = true
  /\ v_pty (vars s') = false
  /\ In SIGKILL (w_kills (world s'))
  /\ (v_pty (vars s) = true -> w_kills (world s') = w_kills (world s) ++ [SIGKILL])
  /\ w_writes (world s') = w_writes (world s).
Proof.
  intros (Hopen & _ & _ & _ & _ & Hpty & Hdis & _) Hf Hrun Hesc.
  destruct (Hopen Hf) as (_ & _ & _ & _ & _ & _ & Hwi).
  revert Hf Hrun Hwi Hpty Hdis. unfold is_running. open_session s. cbn.
  intros -> Hrun -> Hpty Hdis. unfold handleInput, is_running. cbn.
  destruct st; try discriminate. cbn. rewrite Hesc. cbn.
  unfold onDismiss, killPty. cbn. destruct dis; cbn.
  - rewrite (Hdis eq_refl) in *. repeat split; try tauto. discriminate.
  - destruct pty; cbn; repeat split; try tauto; try discriminate.
    apply in_or_app. right. now left.
Qed.

(** C6.  A keystroke that reaches the overlay of a session:
    (1) while the overlay runs, the escape key dismisses: [dismissedByUser]
        is set, the PTY handle is given up after a SIGKILL (sent now, or
        by the timeout or the abort before), and nothing is written to
        the PTY;
    (2) while the overlay runs, any other keystroke is passed unchanged to
        the input handler, which writes it to the PTY as long as the handle
        is held and otherwise ignores it; the handle of a running overlay
        is held whenever the PTY reports each exit right after the kill;
    (3) once the overlay does not run (in any session, also after a failed
        spawn), a keystroke changes nothing. *)
Theorem input_routing (p : Params) (tr : list Event) (data : text) :
  let s := run (setup p Spawned) tr in
  let s' := step s (EvInput data) in
  (is_running s = true -> is_escape data = true ->
     v_dismissedByUser (vars s') = true
     /\ v_pty (vars s') = false
     /\ In SIGKILL (w_kills (world s'))
     /\ (v_pty (vars s) = true -> w_kills (world s') = w_kills (world s) ++ [SIGKILL])
     /\ w_writes (world s') = w_writes (world s))
  /\ (is_running s = true -> is_escape data = false ->
      s' = onInput data s
      /\ (v_pty (vars s) = true ->
          s' = with_world (log_write data) s
          /\ w_writes (world s') = w_writes (world s) ++ [data])
      /\ (v_pty (vars s) = false -> s' = s)
      /\ (prompt_exits (setup p Spawned) tr -> v_pty (vars s) = true))
  /\ (forall s0 : Session (B := B),
        is_running s0 = false -> step s0 (EvInput data) = s0).
Proof.
  intros s s'. pose proof (reachable_Inv p Spawned tr) as HI. fold s in HI.
  assert (Hopen : is_running s = true -> v_finished (vars s) = false).
  { intros Hrun. destruct (v_finished (vars s)) eqn:Hf; [|reflexivity].
    destruct HI as (_ & Hcl & _). destruct (Hcl Hf) as (_ & _ & _ & _ & _ & _ & _ & _ & Hst).
    unfold is_running in Hrun. destruct (c_state (comp s)); try discriminate.
    now contradiction Hst. }
  split; [|split].
  - intros Hrun Hesc. now apply (handleInput_escape data HI (Hopen Hrun)).
  - intros Hrun Hesc.
    assert (Hwi : c_wired (comp s) = true).
    { destruct HI as (Ho & _). now apply (Ho (Hopen Hrun)). }
    assert (Heq : s' = onInput data s).
    { subst s'. cbn. unfold handleInput. now rewrite Hrun, Hesc, Hwi. }
    split; [exact Heq|]. rewrite Heq. unfold onInput.
    split; [|split].
    + intros ->. split; reflexivity.
    + intros ->. reflexivity.
    + intros Hp.
      apply (prompt_exits_hold_pty (p := p) (n := length tr) tr (s := setup p Spawned));
        try assumption; try apply setup_Inv; try reflexivity; auto.
  - intros s0 Hrun. cbn. unfold handleInput. rewrite Hrun. reflexivity.
Qed.

(** *** Dismissal *)

(** C7, amended.  In a session without a timer event, when the user
    presses escape before the PTY has reported an exit, every result that
    the session hands over has the exit code that the PTY reports in its
    exit event (none only when the PTY reports none), [dismissedByUser] set
    and [timedOut] unset; and once the PTY has reported the exit and the
    emulator has parsed its queue, such a result has been handed over. *)
Theorem dismiss_result (p : Params) (pre mid : list Event) (data : text) (c : option Z) :
  no_exit pre -> no_exit mid -> is_escape data = true ->
  ~ In EvTimer (pre ++ mid) ->
  (forall post r,
      ~ In EvTimer post ->
      In r (w_results (world (run (setup p Spawned)
                                (pre ++ EvInput data :: mid ++ EvExit c :: post)))) ->
      exitCode r = c /\ dismissedByUser r = true /\ timedOut r = false)
  /\ (exists r,
        w_results (world (settle (run (setup p Spawned)
                                    (pre ++ EvInput data :: mid ++ [EvExit c])))) = [r]
        /\ exitCode r = c /\ dismissedByUser r = true /\ timedOut r = false).
Proof.
  intros Hpre Hmid Hesc Hnt.
  assert (Hne1 : no_exit (pre ++ EvInput data :: mid)).
  { apply no_exit_app; [exact Hpre|]. apply no_exit_cons; [discriminate | exact Hmid]. }
  set (s1 := run (setup p Spawned) (pre ++ EvInput data :: mid)).
  assert (Hd : v_dismissedByUser (vars s1) = true).
  { unfold s1. rewrite run_app. cbn [run fold_left]. apply run_dismissed.
    destruct (reachable_BeforeExit p Hpre) as (HI & Hf & Hst & _).
    apply (handleInput_escape data HI Hf); [|exact Hesc].
    unfold is_running. now rewrite Hst. }
  assert (Ht : v_timedOut (vars s1) = false).
  { unfold s1. rewrite run_no_timer; [reflexivity|].
    intros Hin. apply Hnt. apply in_app_or in Hin. apply in_or_app.
    destruct Hin as [Hin|[Hin|Hin]]; [now left | discriminate | now right]. }
  assert (Hmain : forall post r,
             ~ In EvTimer post ->
             In r (w_results (world (run (setup p Spawned)
                                       (pre ++ EvInput data :: mid ++ EvExit c :: post)))) ->
             exitCode r = c /\ dismissedByUser r = true /\ timedOut r = false).
  { intros post r Hpost Hin.
    replace (pre ++ EvInput data :: mid ++ EvExit c :: post)
      with ((pre ++ EvInput data :: mid) ++ EvExit c :: post) in Hin
      by (rewrite <- app_assoc; reflexivity).
    destruct (@first_exit_decides p _ post c r Hne1 Hin) as (tmo' & -> & _ & H2).
    fold s1 in H2 |- *. unfold captured, exit_callback.
    cbn [exitCode dismissedByUser timedOut cb_exitCode]. rewrite Ht, Hd.
    repeat split. destruct tmo'; [|reflexivity].
    destruct (H2 eq_refl) as [H|H]; [congruence | contradiction]. }
  split; [exact Hmain|].
  pose proof (exit_then_settle c (reachable_Inv p Spawned (pre ++ EvInput data :: mid)))
    as (Hlen & _).
  fold s1 in Hlen.
  replace (pre ++ EvInput data :: mid ++ [EvExit c])
    with ((pre ++ EvInput data :: mid) ++ [EvExit c])
    by (rewrite <- app_assoc; reflexivity).
  rewrite run_app. fold s1. cbn [run fold_left].
  destruct (w_results _) as [|r [|r' rs]] eqn:Hr; try discriminate.
  exists r. split; [reflexivity|].
  apply (Hmain (repeat EvParse (length (c_queue (comp (step s1 (EvExit c))))))).
  - intros Hin. apply repeat_spec in Hin. discriminate.
  - replace (pre ++ EvInput data :: mid ++ EvExit c :: repeat EvParse
               (length (c_queue (comp (step s1 (EvExit c))))))
      with ((pre ++ EvInput data :: mid) ++ EvExit c :: repeat EvParse
              (length (c_queue (comp (step s1 (EvExit c))))))
      by (rewrite <- app_assoc; reflexivity).
    rewrite run_app. fold s1. cbn [run fold_left].
    unfold settle, run in Hr. rewrite Hr. now left.
Qed.

(** *** Bounds of the capture *)

(** C8.  In the result of a session whose PTY was spawned,
    [scrollbackTruncated] is set exactly when the buffer holds more than
    2000 rows (history and viewport together) at the capture.  The snapshot
    text is an end of the text made of the last 200 rows of the buffer at
    most, blank rows at both ends dropped, and it has at most 40KB in
    UTF-8. *)
Theorem capture_bounds (p : Params) (pre post : list Event) (c : option Z)
    (r : InteractiveTermExecutionResult) :
  no_exit pre ->
  In r (w_results (world (run (setup p Spawned) (pre ++ EvExit c :: post)))) ->
  let b := buffer_of p (chunks_of pre) in
  let lastY := Z.max 0 (em_baseY b + em_rows b - 1) in
  (scrollbackTruncated r = true <-> 2000 < em_baseY b + em_rows b)
  /\ (exists kept,
         suffix_of (screenSnapshot r) (join_lines kept)
         /\ stripped (map (line_text b) (snapshot_rows b 200)) kept
         /\ (length (snapshot_rows b 200) <= 200)%nat
         /\ (forall y, In y (snapshot_rows b 200) -> lastY - 200 < y <= lastY))
  /\ byteLength (screenSnapshot r) <= 40 * 1024.
Proof.
  intros Hne Hin b lastY.
  destruct (@first_exit_decides p pre post c r Hne Hin) as (tmo' & -> & _).
  fold b. unfold captured. cbn [scrollbackTruncated screenSnapshot].
  split; [|split].
  - cbn. apply Z.ltb_lt.
  - exists (trim_blank_lines (map (line_text b) (snapshot_rows b 200))).
    split; [|split; [|split]].
    + unfold getSnapshot, SCREEN_SNAPSHOT_MAX_LINES.
      rewrite <- (getPlainLines_lines b (n := 200)) by lia.
      apply truncateTail_spec.
    + apply trim_blank_lines_stripped.
    + apply (snapshot_rows_length b (n := 200)). lia.
    + intros y Hy. unfold snapshot_rows in Hy. apply in_for_range in Hy.
      fold lastY in Hy. lia.
  - apply (proj2 (truncateTail_spec _ _) SCREEN_SNAPSHOT_MAX_BYTES); [reflexivity|].
    unfold SCREEN_SNAPSHOT_MAX_BYTES. lia.
Qed.

End SessionFacts.

(** ** Runs on concrete input *)

#[local] Existing Instance plain_host.

(** C1 on a run where the timeout fires and the PTY reports the exit
    twice: after the first flush callback the session has finished, with
    one capture and each of the four disposables disposed of once; the
    second flush callback, run by the next turn of the emulator, changes
    nothing. *)
Lemma finalize_exactly_once_witness :
  let tr := [EvTimer; EvExit (Some 137); EvExit (Some 0); EvParse] in
  let s := demo Spawned tr in
  v_finished (vars s) = true
  /\ (exists cb, c_queue (comp s) = [{| w_data := []; w_callback := Some cb |}])
  /\ w_results (world (step s EvParse)) = w_results (world s)
  /\ w_captures (world s) = 1%nat
  /\ w_disposed (world s)
     = [DataSubscription; ExitSubscription; TimeoutClear; AbortUnlisten].
Proof.
  intros tr s. split; [reflexivity|]. split; [eexists; reflexivity|].
  destruct (finalize_exactly_once (B := LineTerm.t) demo_params Spawned tr)
    as (_ & _ & Hstay & _ & _ & Hdone & _).
  split; [exact (proj1 (proj2 (Hstay eq_refl EvParse)))|].
  destruct (Hdone eq_refl) as (H1 & H2 & _). split; [exact H1 | exact H2].
Defined.

(** C2 on a run where the last chunk arrives right before the exit event:
    the texts of the result are read from the buffer that has parsed it. *)
Lemma capture_after_flush_witness :
  let pre := [EvData (str "hi" ++ [NL]); EvData (str "root")] in
  let post := [EvParse; EvParse; EvParse] in
  let r := {| exitCode := Some 0;
              scrollback := str "hi" ++ [NL] ++ str "root";
              screenSnapshot := str "hi" ++ [NL] ++ str "root";
              timedOut := false; dismissedByUser := false;
              scrollbackTruncated := false; abortedBySignal := false |} in
  let b := buffer_of (B := LineTerm.t) demo_params (chunks_of pre) in
  scrollback r
  = content (truncateTail (fst (getScrollback b SCROLLBACK_MAX_LINES))
               {| maxLines := None;
                  maxBytes := Some (CAPTURE_MAX_BYTES (host := plain_host)) |})
  /\ screenSnapshot r
     = content (truncateTail (getSnapshot b SCREEN_SNAPSHOT_MAX_LINES)
                  {| maxLines := Some SCREEN_SNAPSHOT_MAX_LINES;
                     maxBytes := Some SCREEN_SNAPSHOT_MAX_BYTES |}).
Proof.
  intros pre post r b.
  refine (proj1 (proj2 (capture_after_flush demo_params))
            pre (Some 0) post r _ _).
  - intros c Hin. cbn in Hin. intuition discriminate.
  - vm_compute. left. reflexivity.
Defined.

Lemma no_exit_data (chunk : text) : no_exit [EvData chunk].
Proof. intros c [Hc|[]]. discriminate. Qed.

Lemma no_exit_nil : no_exit [].
Proof. intros c []. Qed.

(** C3 on a run where the timer fires after some output and the PTY then
    reports status 137 for the killed child. *)
Lemma timeout_result_witness :
  exists r,
    w_results (world (settle (host := plain_host)
                        (run (setup (B := LineTerm.t) demo_params Spawned)
                           ([EvData (str "x")] ++ [EvTimer; EvExit (Some 137)])))) = [r]
    /\ exitCode r = None /\ timedOut r = true.
Proof.
  exact (proj2 (timeout_result (B := LineTerm.t) demo_params (ms := 2000)
                  (pre := [EvData (str "x")]) eq_refl (@no_exit_data (str "x")))
           (Some 137)).
Defined.


(** The general statement on a run where the signal aborts, the PTY reports
    the exit of the killed child and the emulator parses the flush. *)
Lemma abort_is_surfaced_witness :
  let tr := [EvAbort; EvExit (Some 137); EvParse] in
  let r := {| exitCode := Some 137; scrollback := []; screenSnapshot := [];
              timedOut := false; dismissedByUser := false;
              scrollbackTruncated := false; abortedBySignal := true |} in
  In r (w_results (world (demo Spawned tr)))
  /\ abortedBySignal r = true
  /\ (exists m, execute_outcome r = ThrownToolAbortError m)
  /\ Spawned = Spawned.
Proof.
  intros tr r.
  assert (Hin : In r (w_results (world (demo Spawned tr)))) by (vm_compute; left; reflexivity).
  split; [exact Hin|]. split; [reflexivity|]. split.
  - exact (proj2 (proj1 (abort_is_surfaced (B := LineTerm.t)
                           demo_params) r) eq_refl).
  - exact (proj1 (proj2 (abort_is_surfaced (B := LineTerm.t)
                           demo_params) Spawned tr r Hin eq_refl)).
Defined.

(** C6 (1) on a running session: the escape key dismisses and nothing is
    written to the PTY. *)
Lemma input_routing_witness :
  let s := demo Spawned [EvData (str "x")] in
  let s' := step s (EvInput [ESC]) in
  is_running s = true
  /\ is_escape [ESC] = true
  /\ v_dismissedByUser (vars s') = true
  /\ v_pty (vars s') = false
  /\ In SIGKILL (w_kills (world s'))
  /\ (v_pty (vars s) = true -> w_kills (world s') = w_kills (world s) ++ [SIGKILL])
  /\ w_writes (world s') = w_writes (world s).
Proof.
  intros s s'. split; [reflexivity|]. split; [reflexivity|].
  exact (proj1 (input_routing (B := LineTerm.t) demo_params
                  [EvData (str "x")] [ESC]) eq_refl eq_refl).
Defined.

(** C7 as the specification has it fails: the user dismisses a running
    session, no timer fires, the PTY reports status 137 for the killed
    child, and the result carries that exit code, not none. *)
Lemma dismiss_exit_code_counterexample :
  exists r,
    w_results (world (demo Spawned [EvInput [ESC]; EvExit (Some 137); EvParse])) = [r]
    /\ dismissedByUser r = true /\ timedOut r = false
    /\ exitCode r = Some 137 /\ exitCode r <> None.
Proof.
  eexists. split; [vm_compute; reflexivity|].
  cbn. repeat split. discriminate.
Qed.

(** C7, amended, on that run. *)
Lemma dismiss_result_witness :
  exists r,
    w_results (world (settle (host := plain_host)
                        (run (setup (B := LineTerm.t) demo_params Spawned)
                           ([] ++ EvInput [ESC] :: [] ++ [EvExit (Some 137)])))) = [r]
    /\ exitCode r = Some 137 /\ dismissedByUser r = true /\ timedOut r = false.
Proof.
  refine (proj2 (dismiss_result (B := LineTerm.t) demo_params
                   (pre := []) (mid := []) [ESC] (Some 137)
                   no_exit_nil no_exit_nil eq_refl _)).
  intros [].
Defined.

(** C8 on a short run. *)
Lemma capture_bounds_witness :
  let pre := [EvData (str "hi" ++ [NL])] in
  let r := {| exitCode := Some 0; scrollback := str "hi"; screenSnapshot := str "hi";
              timedOut := false; dismissedByUser := false;
              scrollbackTruncated := false; abortedBySignal := false |} in
  let b := buffer_of (B := LineTerm.t) demo_params (chunks_of pre) in
  (scrollbackTruncated r = true <-> 2000 < em_baseY b + em_rows b)
  /\ byteLength (screenSnapshot r) <= 40 * 1024.
Proof.
  intros pre r b.
  assert (Hin : In r (w_results (world (run (host := plain_host)
                                          (setup (B := LineTerm.t) demo_params Spawned)
                                          (pre ++ EvExit (Some 0) :: [EvParse; EvParse])))))
    by (vm_compute; left; reflexivity).
  pose proof (capture_bounds (B := LineTerm.t) demo_params (pre := pre)
                [EvParse; EvParse] (Some 0) r (@no_exit_data (str "hi" ++ [NL])) Hin)
    as (H1 & _ & H3).
  split; [exact H1 | exact H3].
Defined.

(** The hypothesis of C3 that the timer fires before the exit event is
    needed: a timer that fires between the exit event and the flush
    callback sets [timedOut] in a result that keeps the reported exit
    code. *)
Remark late_timer_keeps_exit_code :
  w_results (world (demo Spawned [EvExit (Some 0); EvTimer; EvParse]))
  = [{| exitCode := Some 0; scrollback := []; screenSnapshot := [];
        timedOut := true; dismissedByUser := false;
        scrollbackTruncated := false; abortedBySignal := false |}].
Proof. vm_compute. reflexivity. Qed.

(** * Further properties of the session *)

Section MoreSessionFacts.

Context {B : Type} {emu : Emulator B} {host : Host}.

Ltac open_session s :=
  destruct s as [[dis tmo fin pty ds] [buf q st ec wired]
                 [onD onE tmr onA ab wr ki re ca di rs]].

Arguments finish : simpl never.
Arguments captured : simpl never.
Arguments flush_callback : simpl never.

Lemma dispose_all_log (ds : list Disposable) (s : Session (B := B)) :
  let s' := fold_left (fun st d => dispose d st) ds s in
  w_writes (world s') = w_writes (world s)
  /\ w_kills (world s') = w_kills (world s)
  /\ w_renders (world s') = w_renders (world s).
Proof.
  revert s. induction ds as [|d ds IH]; intros s; cbn; [tauto|].
  destruct (IH (dispose d s)) as (-> & -> & ->). destruct d; cbn; tauto.
Qed.

Lemma finish_log (r : InteractiveTermExecutionResult) (s : Session (B := B)) :
  w_writes (world (finish r s)) = w_writes (world s)
  /\ w_kills (world (finish r s)) = w_kills (world s).
Proof.
  unfold finish. destruct (v_finished (vars s)); [tauto|]. cbn.
  match goal with
  | |- context [fold_left ?f ?ds ?s0] => destruct (dispose_all_log ds s0) as (-> & -> & _)
  end.
  cbn. tauto.
Qed.

(** What a turn does to the PTY handle and to the two logs of the PTY:
    the handle is never taken up again, a kill happens only as the handle
    is given up, and a write only while it is held. *)
Lemma step_pty (s : Session (B := B)) (ev : Event) :
  let s' := step s ev in
  (v_pty (vars s) = false ->
     v_pty (vars s') = false
     /\ w_kills (world s') = w_kills (world s)
     /\ w_writes (world s') = w_writes (world s))
  /\ (v_pty (vars s) = true ->
      (v_pty (vars s') = true /\ w_kills (world s') = w_kills (world s))
      \/ (v_pty (vars s') = false /\ w_kills (world s') = w_kills (world s) ++ [SIGKILL]))
  /\ (w_writes (world s') = w_writes (world s)
      \/ exists d, ev = EvInput d /\ is_escape d = false
                   /\ w_writes (world s') = w_writes (world s) ++ [d]).
Proof.
  open_session s. cbn.
  destruct ev as [chunk|code| | |data|]; cbn.
  - destruct onD; cbn; tauto.
  - destruct onE; cbn; tauto.
  - destruct tmr; cbn; [|tauto]. unfold onTimeout, killPty; cbn.
    destruct fin; cbn; [tauto|]. destruct pty; cbn; intuition congruence.
  - destruct ab as [[|]|]; cbn; try tauto. destruct onA; cbn; [|tauto].
    unfold onAbort, killPty; cbn. destruct fin; cbn; [tauto|].
    destruct pty; cbn; intuition congruence.
  - unfold handleInput, is_running, onDismiss, onInput, killPty; cbn.
    destruct st; cbn; try tauto.
    destruct (is_escape data) eqn:Hesc, wired; cbn; try tauto.
    + destruct dis; cbn; [tauto|]. destruct pty; cbn; intuition congruence.
    + destruct pty; cbn; [|tauto].
      split; [discriminate|]. split; [tauto|]. right. exists data. tauto.
  - unfold parse_next; cbn. destruct q as [|[d [cb|]] q']; cbn; try tauto.
    rewrite flush_callback_eq. cbn. destruct fin; cbn; [tauto|].
    match goal with
    | |- context [finish ?r ?s0] =>
        destruct (finish_frame r s0) as (_ & _ & -> & _);
        destruct (finish_log r s0) as (-> & ->)
    end.
    cbn. tauto.
Qed.

(** X1.  The PTY is sent at most one signal in a session, and that signal
    is SIGKILL; after a successful spawn the session has given up its
    handle exactly when it has sent the signal. *)
Theorem pty_killed_at_most_once (p : Params) (spawn : SpawnOutcome) (tr : list Event) :
  let s := run (setup p spawn) tr in
  (length (w_kills (world s)) <= 1)%nat
  /\ Forall (eq SIGKILL) (w_kills (world s))
  /\ (spawn = Spawned ->
      (v_pty (vars s) = true /\ w_kills (world s) = [])
      \/ (v_pty (vars s) = false /\ w_kills (world s) = [SIGKILL])).
Proof.
  intros s.
  assert (HK : (v_pty (vars s) = true /\ w_kills (world s) = [])
               \/ (v_pty (vars s) = false
                   /\ (w_kills (world s) = [SIGKILL]
                       \/ (spawn <> Spawned /\ w_kills (world s) = [])))).
  { subst s. induction tr as [|ev tr IH] using rev_ind.
    - destruct spawn; cbn; [left; tauto | right; split; [reflexivity|]].
      right. split; [discriminate | reflexivity].
    - rewrite run_app. cbn [run fold_left].
      destruct (step_pty (run (setup p spawn) tr) ev) as (Hoff & Hon & _).
      destruct IH as [(Hp & Hk) | (Hp & Hk)].
      + destruct (Hon Hp) as [(Hp' & Hk') | (Hp' & Hk')].
        * left. split; [exact Hp'|]. unfold run in *. now rewrite Hk', Hk.
        * right. split; [exact Hp'|]. left. unfold run in *. now rewrite Hk', Hk.
      + destruct (Hoff Hp) as (Hp' & Hk' & _).
        right. split; [exact Hp'|]. unfold run in *. rewrite Hk'. exact Hk. }
  destruct HK as [(Hp & Hk) | (Hp & [Hk | (Hs & Hk)])]; rewrite Hk; cbn.
  - split; [lia|]. split; [constructor|]. intros _. left. tauto.
  - split; [lia|]. split; [repeat constructor|]. intros _. right. tauto.
  - split; [lia|]. split; [constructor|]. intros Hsp. contradiction.
Qed.

Lemma subseq_refl {A : Type} (l : list A) : subseq l l.
Proof. induction l; [apply subseq_nil | now apply subseq_keep]. Qed.

Lemma subseq_app {A : Type} (a b c d : list A) :
  subseq a b -> subseq c d -> subseq (a ++ c) (b ++ d).
Proof.
  induction 1; intros Hcd; cbn;
    [exact Hcd | apply subseq_skip; auto | apply subseq_keep; auto].
Qed.

Lemma keys_of_app (a b : list Event) : keys_of (a ++ b) = keys_of a ++ keys_of b.
Proof. unfold keys_of. now rewrite flat_map_app. Qed.

(** X2.  What is written to the PTY is made of keystrokes of the run, in
    their order and unchanged, none of them the dismiss key; and once the
    session has given up its PTY handle, nothing more is written or
    signalled, whatever happens next. *)
Theorem writes_are_keystrokes (p : Params) (spawn : SpawnOutcome) (tr : list Event) :
  let s := run (setup p spawn) tr in
  subseq (w_writes (world s)) (keys_of tr)
  /\ Forall (fun d => is_escape d = false) (w_writes (world s))
  /\ (v_pty (vars s) = false ->
      forall tr',
        w_writes (world (run s tr')) = w_writes (world s)
        /\ w_kills (world (run s tr')) = w_kills (world s)
        /\ v_pty (vars (run s tr')) = false).
Proof.
  intros s. split; [|split].
  - subst s. induction tr as [|ev tr IH] using rev_ind.
    + destruct spawn; cbn; constructor.
    + rewrite run_app, keys_of_app. cbn [run fold_left].
      destruct (step_pty (run (setup p spawn) tr) ev) as (_ & _ & [Hw | (d & -> & He & Hw)]);
        unfold run in *; rewrite Hw.
      * rewrite <- (app_nil_r (w_writes _)). apply subseq_app; [exact IH|].
        clear. induction (keys_of [ev]); [apply subseq_nil | now apply subseq_skip].
      * apply subseq_app; [exact IH|]. cbn. apply subseq_refl.
  - subst s. induction tr as [|ev tr IH] using rev_ind.
    + destruct spawn; cbn; constructor.
    + rewrite run_app. cbn [run fold_left].
      destruct (step_pty (run (setup p spawn) tr) ev) as (_ & _ & [Hw | (d & -> & He & Hw)]);
        unfold run in *; rewrite Hw; [exact IH|].
      apply Forall_app. split; [exact IH|]. now repeat constructor.
  - intros Hp tr'. generalize dependent s. intros s. revert s.
    induction tr' as [|ev tr' IH]; intros s Hp; [tauto|].
    cbn [run fold_left].
    destruct (step_pty s ev) as (Hoff & _). destruct (Hoff Hp) as (Hp' & Hk & Hw).
    destruct (IH (step s ev) Hp') as (Hw' & Hk' & Hp'').
    unfold run in *. rewrite Hw', Hk', Hw, Hk. tauto.
Qed.

Lemma run_not_running (tr : list Event) (s : Session (B := B)) :
  is_running s = false -> is_running (run s tr) = false.
Proof.
  revert s. induction tr as [|ev tr IH]; intros s Hs; [exact Hs|].
  cbn [run fold_left]. apply IH. now apply step_not_running.
Qed.

(** X3.  After a successful spawn the overlay runs exactly as long as no
    exit event has been handled, and never runs again afterwards.  The
    status it takes at the first exit event is [timed_out] when the timer
    has fired before, else [killed] when the user has dismissed before,
    else [complete]; the exit code it shows is none after a timeout and
    the reported one otherwise. *)
Theorem overlay_runs_until_exit (p : Params) (tr : list Event) :
  (is_running (run (setup p Spawned) tr) = true <-> no_exit tr)
  /\ (forall pre c post,
        tr = pre ++ EvExit c :: post -> no_exit pre ->
        let s1 := run (setup p Spawned) pre in
        let s2 := step s1 (EvExit c) in
        c_state (comp s2)
        = final_state (v_timedOut (vars s1)) (v_dismissedByUser (vars s1))
        /\ c_exitCode (comp s2) = (if v_timedOut (vars s1) then None else c)
        /\ is_running (run (setup p Spawned) tr) = false).
Proof.
  assert (Hafter : forall pre c post,
             no_exit pre ->
             is_running (run (setup p Spawned) (pre ++ EvExit c :: post)) = false).
  { intros pre c post Hne. rewrite run_app. cbn [run fold_left].
    apply run_not_running. apply (exit_stops_running (p := p)). apply reachable_Inv. }
  split; [split|].
  - intros Hrun. destruct (first_exit tr) as [Hne | (pre & c & post & -> & Hne)];
      [exact Hne|].
    rewrite (Hafter pre c post Hne) in Hrun. discriminate.
  - intros Hne. destruct (reachable_BeforeExit p Hne) as (_ & _ & Hst & _).
    unfold is_running. now rewrite Hst.
  - intros pre c post -> Hne s1 s2. split; [|split].
    + destruct (reachable_BeforeExit p Hne) as (HI & Hf & _).
      destruct HI as (Hopen & _). destruct (Hopen Hf) as (_ & _ & _ & _ & _ & HoE & _).
      subst s2. fold s1 in HoE. cbn. rewrite HoE. reflexivity.
    + destruct (reachable_BeforeExit p Hne) as (HI & Hf & _).
      destruct HI as (Hopen & _). destruct (Hopen Hf) as (_ & _ & _ & _ & _ & HoE & _).
      subst s2. fold s1 in HoE. cbn. rewrite HoE. reflexivity.
    + now apply Hafter.
Qed.

Lemma step_finishing (p : Params) (s : Session (B := B)) (ev : Event) :
  Inv p s -> v_finished (vars s) = false -> v_finished (vars (step s ev)) = true ->
  w_disposed (world (step s ev)) = initial_disposables p.
Proof.
  intros (Hopen & _ & Htm & Hab & _) Hf. destruct (Hopen Hf) as (Hds & Hdi & _).
  revert Hf Hds Hdi Htm Hab. open_session s. cbn. intros -> -> -> Htm Hab.
  destruct ev as [chunk|code| | |data|]; cbn.
  - destruct onD; cbn; discriminate.
  - destruct onE; cbn; discriminate.
  - destruct tmr; cbn; [|discriminate]. unfold onTimeout, killPty; cbn.
    destruct pty; cbn; discriminate.
  - destruct ab as [[|]|]; cbn; try discriminate. destruct onA; cbn; [|discriminate].
    unfold onAbort, killPty; cbn. destruct pty; cbn; discriminate.
  - unfold handleInput, is_running, onDismiss, onInput, killPty; cbn.
    destruct st; cbn; try discriminate.
    destruct (is_escape data), wired; cbn; try discriminate.
    + destruct dis; cbn; [discriminate|]. destruct pty; cbn; discriminate.
    + destruct pty; cbn; discriminate.
  - unfold parse_next; cbn. destruct q as [|[d [cb|]] q']; cbn; try discriminate.
    rewrite flush_callback_eq. cbn.
    rewrite (finish_open (p := p)) by (cbn; tauto). reflexivity.
Qed.

(** X4.  After a successful spawn: until the session finishes, the data
    and the exit listener stay registered and nothing is disposed of; once
    it has finished, the list of disposables is empty, each of its entries
    has been disposed of, in the order of registration, and no listener and
    no timer is left. *)
Theorem finish_releases_everything (p : Params) (tr : list Event) :
  let s := run (setup p Spawned) tr in
  (v_finished (vars s) = false ->
     w_onData (world s) = true /\ w_onExit (world s) = true
     /\ v_disposables (vars s) = initial_disposables p
     /\ w_disposed (world s) = [])
  /\ (v_finished (vars s) = true ->
      w_onData (world s) = false /\ w_onExit (world s) = false
      /\ w_timer (world s) = false /\ w_onAbort (world s) = false
      /\ v_disposables (vars s) = []
      /\ w_disposed (world s) = initial_disposables p).
Proof.
  intros s. pose proof (reachable_Inv p Spawned tr) as HI. fold s in HI. split.
  - intros Hf. destruct HI as (Hopen & _). destruct (Hopen Hf); tauto.
  - intros Hf. destruct HI as (_ & Hcl & _).
    destruct (Hcl Hf) as (Hds & _ & _ & _ & HoD & HoE & Htm & HoA & _).
    repeat split; try assumption.
    subst s. clear - Hf. induction tr as [|ev tr IH] using rev_ind; [discriminate Hf|].
    rewrite run_app in *. cbn [run fold_left] in *.
    destruct (v_finished (vars (run (setup p Spawned) tr))) eqn:Hprev.
    + destruct (step_closed ev (reachable_Inv p Spawned tr) Hprev) as (_ & _ & Hd & _).
      unfold run in *. rewrite Hd. now apply IH.
    + apply (step_finishing ev (reachable_Inv p Spawned tr) Hprev Hf).
Qed.

End MoreSessionFacts.

(** * Parameters of the tool *)

Lemma Qle_bool_inject (a b : Z) :
  QArith_base.Qle_bool (QArith_base.inject_Z a) (QArith_base.inject_Z b) = (a <=? b).
Proof. unfold QArith_base.Qle_bool. cbn. now rewrite !Z.mul_1_r. Qed.

Lemma jmin_num (a b : Z) : jmin (num a) (num b) = num (Z.min a b).
Proof.
  unfold jmin, num. rewrite Qle_bool_inject.
  destruct (a <=? b) eqn:E; [apply Z.leb_le in E | apply Z.leb_gt in E];
    f_equal; f_equal; lia.
Qed.

Lemma jmax_num (a b : Z) : jmax (num a) (num b) = num (Z.max a b).
Proof.
  unfold jmax, num. rewrite Qle_bool_inject.
  destruct (a <=? b) eqn:E; [apply Z.leb_le in E | apply Z.leb_gt in E];
    f_equal; f_equal; lia.
Qed.

Lemma clamp_num (v lo hi : Z) : clamp (num v) (num lo) (num hi) = num (Z.max lo (Z.min hi v)).
Proof. unfold clamp. now rewrite jmin_num, jmax_num. Qed.

Lemma parseOptionalTimeout_finite (q : QArith_base.Q) :
  parseOptionalTimeout (Some (Fin q))
  = if QArith_base.Qle_bool q (QArith_base.inject_Z 0) then
      ToolError (str "timeout must be greater than 0 seconds")
    else Value (Some (num (Z.max 1 (Z.min 3600 (Qround.Qfloor q))))).
Proof.
  unfold parseOptionalTimeout. now rewrite clamp_num.
Qed.

(** X5.  [parseOptionalTimeout] returns a number exactly for a finite
    timeout above zero, and that number is whole and between 1 and 3600:
    the timeout rounded down, raised to 1 or lowered to 3600 where needed.
    It returns [undefined] exactly for an absent timeout, and throws for
    every other one. *)
Theorem parseOptionalTimeout_range (rawTimeout : option JsNum) :
  (forall v,
      parseOptionalTimeout rawTimeout = Value (Some v) <->
      exists q,
        rawTimeout = Some (Fin q)
        /\ QArith_base.Qlt (QArith_base.inject_Z 0) q
        /\ v = num (Z.max 1 (Z.min 3600 (Qround.Qfloor q))))
  /\ (parseOptionalTimeout rawTimeout = Value None <-> rawTimeout = None)
  /\ (forall q, rawTimeout = Some (Fin q) ->
        QArith_base.Qlt (QArith_base.inject_Z 0) q ->
        1 <= Z.max 1 (Z.min 3600 (Qround.Qfloor q)) <= 3600)
  /\ ((exists m, parseOptionalTimeout rawTimeout = ToolError m) <->
      exists n, rawTimeout = Some n
                /\ (forall q, n = Fin q -> QArith_base.Qle q (QArith_base.inject_Z 0))).
Proof.
  destruct rawTimeout as [[| | |q]|]; [| | |rewrite parseOptionalTimeout_finite|];
    cbn [parseOptionalTimeout].
  - repeat split; try discriminate; try (intros; lia).
    + intros (q & Hq & _). discriminate.
    + intros _. exists NaN. split; [reflexivity | discriminate].
    + intros _. eexists. reflexivity.
  - repeat split; try discriminate; try (intros; lia).
    + intros (q & Hq & _). discriminate.
    + intros _. exists PosInf. split; [reflexivity | discriminate].
    + intros _. eexists. reflexivity.
  - repeat split; try discriminate; try (intros; lia).
    + intros (q & Hq & _). discriminate.
    + intros _. exists NegInf. split; [reflexivity | discriminate].
    + intros _. eexists. reflexivity.
  - destruct (QArith_base.Qle_bool q (QArith_base.inject_Z 0)) eqn:E.
    + apply QArith_base.Qle_bool_iff in E.
      repeat split; try discriminate; try (intros; lia).
      * intros (q' & Hq & Hpos & _). inversion Hq. subst q'.
        exfalso. apply (QArith_base.Qlt_not_le _ _ Hpos E).
      * intros _. exists (Fin q). split; [reflexivity|].
        intros q' Hq. inversion Hq. subst q'. exact E.
      * intros _. eexists. reflexivity.
    + assert (Hpos : QArith_base.Qlt (QArith_base.inject_Z 0) q).
      { apply QArith_base.Qnot_le_lt. intros Hle.
        apply QArith_base.Qle_bool_iff in Hle. congruence. }
      repeat split; try discriminate; try (intros; lia).
      * intros Hv. inversion Hv. exists q. tauto.
      * intros (q' & Hq & _ & ->). inversion Hq. reflexivity.
      * intros (m & Hm). discriminate.
      * intros (n & Hn & Hle). inversion Hn. subst n.
        exfalso. apply (QArith_base.Qlt_not_le _ _ Hpos (Hle q eq_refl)).
  - repeat split; try discriminate; try (intros; lia).
    + intros (q & Hq & _). discriminate.
    + intros (m & Hm). discriminate.
    + intros (n & Hn & _). discriminate.
Qed.

Lemma Qle_bool_false_lt (a b : QArith_base.Q) :
  QArith_base.Qle_bool a b = false -> QArith_base.Qlt b a.
Proof.
  intros E. apply QArith_base.Qnot_le_lt. intros Hle.
  apply QArith_base.Qle_bool_iff in Hle. congruence.
Qed.

Lemma inject_Z_le (a b : Z) :
  a <= b -> QArith_base.Qle (QArith_base.inject_Z a) (QArith_base.inject_Z b).
Proof. intros H. unfold QArith_base.Qle. cbn. lia. Qed.

(** [clamp] between two whole bounds in order yields a finite number
    between them, for every value but [NaN]. *)
Lemma clamp_bounds (c : JsNum) (lo hi : Z) :
  c <> NaN -> lo <= hi ->
  exists q,
    clamp c (num lo) (num hi) = Fin q
    /\ QArith_base.Qle (QArith_base.inject_Z lo) q
    /\ QArith_base.Qle q (QArith_base.inject_Z hi).
Proof.
  intros Hc Hle. unfold clamp. destruct c as [| | |q].
  - now contradiction Hc.
  - cbn [jmin num]. fold (num hi) (num lo). rewrite jmax_num.
    exists (QArith_base.inject_Z (Z.max lo hi)). split; [reflexivity|].
    split; apply inject_Z_le; lia.
  - cbn. exists (QArith_base.inject_Z lo). split; [reflexivity|].
    split; [apply QArith_base.Qle_refl | now apply inject_Z_le].
  - unfold num, jmin, jmax.
    destruct (QArith_base.Qle_bool (QArith_base.inject_Z hi) q) eqn:E1.
    + rewrite Qle_bool_inject. replace (lo <=? hi) with true by (symmetry; apply Z.leb_le; lia).
      exists (QArith_base.inject_Z hi). split; [reflexivity|].
      split; [now apply inject_Z_le | apply QArith_base.Qle_refl].
    + apply Qle_bool_false_lt in E1.
      destruct (QArith_base.Qle_bool (QArith_base.inject_Z lo) q) eqn:E2.
      * apply QArith_base.Qle_bool_iff in E2. exists q. split; [reflexivity|].
        split; [exact E2 | now apply QArith_base.Qlt_le_weak].
      * exists (QArith_base.inject_Z lo). split; [reflexivity|].
        split; [apply QArith_base.Qle_refl | now apply inject_Z_le].
Qed.

Lemma truthy_not_NaN (c : JsNum) : truthy c = true -> c <> NaN.
Proof. intros Ht ->. discriminate. Qed.

(** X6.  The size that [execute] gives the PTY and the overlay is finite,
    with at least 20 columns and 5 rows.  A size that the caller asks for
    (any number but zero and [NaN], the infinities included) is brought
    into the terminal's bounds: at most [max(20, columns - 2)] columns and
    [max(5, rows - 4)] rows; a whole size within these bounds is kept. *)
Theorem initial_size_bounds {fa : FloatArith} (size_cols size_rows : option JsNum)
    (columns rows : Z) :
  (exists q,
      initialCols size_cols columns = Fin q
      /\ QArith_base.Qle (QArith_base.inject_Z 20) q
      /\ (forall c, size_cols = Some c -> truthy c = true ->
            QArith_base.Qle q (QArith_base.inject_Z (Z.max 20 (columns - 2)))))
  /\ (exists q,
         initialRows size_rows rows = Fin q
         /\ QArith_base.Qle (QArith_base.inject_Z 5) q
         /\ (forall r, size_rows = Some r -> truthy r = true ->
               QArith_base.Qle q (QArith_base.inject_Z (Z.max 5 (rows - 4)))))
  /\ (forall n, size_cols = Some (num n) -> 20 <= n <= Z.max 20 (columns - 2) ->
        initialCols size_cols columns = num n)
  /\ (forall n, size_rows = Some (num n) -> 5 <= n <= Z.max 5 (rows - 4) ->
        initialRows size_rows rows = num n).
Proof.
  assert (Hdefault : forall lo v,
             exists q, jmax (num lo) (num v) = Fin q
                       /\ QArith_base.Qle (QArith_base.inject_Z lo) q).
  { intros lo v. rewrite jmax_num. eexists. split; [reflexivity|].
    apply inject_Z_le. lia. }
  split; [|split; [|split]].
  - unfold initialCols. rewrite jmax_num.
    destruct size_cols as [c|].
    + destruct (truthy c) eqn:Ht.
      * destruct (clamp_bounds (lo := 20) (hi := Z.max 20 (columns - 2))
                    (truthy_not_NaN Ht)) as (q & Hq & H1 & H2); [lia|].
        exists q. split; [exact Hq|]. split; [exact H1|]. intros; exact H2.
      * destruct (Hdefault 20 (floor_mul columns (QArith_base.Qmake 9 10) - 2))
          as (q & Hq & H1).
        exists q. split; [exact Hq|]. split; [exact H1|].
        intros c' Hc' Ht'. inversion Hc'. subst c'. congruence.
    + destruct (Hdefault 20 (floor_mul columns (QArith_base.Qmake 9 10) - 2))
        as (q & Hq & H1).
      exists q. split; [exact Hq|]. split; [exact H1|]. discriminate.
  - unfold initialRows. rewrite jmax_num.
    destruct size_rows as [c|].
    + destruct (truthy c) eqn:Ht.
      * destruct (clamp_bounds (lo := 5) (hi := Z.max 5 (rows - 4))
                    (truthy_not_NaN Ht)) as (q & Hq & H1 & H2); [lia|].
        exists q. split; [exact Hq|]. split; [exact H1|]. intros; exact H2.
      * destruct (Hdefault 5 (floor_mul rows (QArith_base.Qmake 8 10) - 4))
          as (q & Hq & H1).
        exists q. split; [exact Hq|]. split; [exact H1|].
        intros c' Hc' Ht'. inversion Hc'. subst c'. congruence.
    + destruct (Hdefault 5 (floor_mul rows (QArith_base.Qmake 8 10) - 4))
        as (q & Hq & H1).
      exists q. split; [exact Hq|]. split; [exact H1|]. discriminate.
  - intros n -> Hn. unfold initialCols. rewrite jmax_num.
    assert (Ht : truthy (num n) = true).
    { unfold truthy, num, QArith_base.Qeq_bool. cbn. rewrite Z.mul_1_r.
      apply negb_true_iff. apply Z.eqb_neq. lia. }
    rewrite Ht, clamp_num. f_equal. lia.
  - intros n -> Hn. unfold initialRows. rewrite jmax_num.
    assert (Ht : truthy (num n) = true).
    { unfold truthy, num, QArith_base.Qeq_bool. cbn. rewrite Z.mul_1_r.
      apply negb_true_iff. apply Z.eqb_neq. lia. }
    rewrite Ht, clamp_num. f_equal. lia.
Qed.

(** * The text of the tool result *)

Lemma str_inj (a b : string) : str a = str b -> a = b.
Proof.
  unfold str. intros H.
  rewrite <- (string_of_list_ascii_of_string a), <- (string_of_list_ascii_of_string b).
  f_equal. revert H.
  generalize (list_ascii_of_string a) (list_ascii_of_string b).
  induction l as [|x l IH]; intros [|y l'] H; cbn in H; try discriminate; [reflexivity|].
  inversion H as [[Hx Hl]]. f_equal; [|now apply IH].
  rewrite <- (ascii_N_embedding x), <- (ascii_N_embedding y). now rewrite Hx.
Qed.

Lemma to_int_proper (z : Z) : Z.to_int z <> Decimal.Pos Decimal.Nil
                              /\ Z.to_int z <> Decimal.Neg Decimal.Nil.
Proof.
  destruct z as [|p|p]; cbn; split; try discriminate;
    intros H; inversion H as [Hp]; now apply DecimalPos.Unsigned.to_uint_nonnil in Hp.
Qed.

(** [dec] can be read back. *)
Lemma dec_inj (a b : Z) : dec a = dec b -> a = b.
Proof.
  unfold dec. intros H. apply str_inj in H.
  destruct (to_int_proper a) as (Ha1 & Ha2). destruct (to_int_proper b) as (Hb1 & Hb2).
  pose proof (NilZero.isi (Z.to_int a) Ha1 Ha2) as Ia.
  pose proof (NilZero.isi (Z.to_int b) Hb1 Hb2) as Ib.
  rewrite H in Ia. rewrite Ia in Ib. inversion Ib as [Hab].
  rewrite <- (DecimalZ.of_to a), <- (DecimalZ.of_to b). now rewrite Hab.
Qed.

Lemma dec_no_NL (z : Z) : ~ In NL (dec z).
Proof.
  intros Hin. pose proof (dec_chars z) as Hc. rewrite Forall_forall in Hc.
  specialize (Hc NL Hin). unfold dec_char, NL in Hc. lia.
Qed.

Lemma dec_not_null (z : Z) : dec z <> str "null".
Proof.
  intros H. pose proof (dec_chars z) as Hc. rewrite H in Hc.
  inversion Hc as [|? ? Hn _]. unfold dec_char in Hn. lia.
Qed.

(** A text is cut at its first line feed in one way only. *)
Lemma first_line_unique (a a' b b' : text) :
  ~ In NL a -> ~ In NL a' -> a ++ NL :: b = a' ++ NL :: b' -> a = a' /\ b = b'.
Proof.
  revert a'. induction a as [|x a IH]; intros [|y a'] Ha Ha' H; cbn in *.
  - inversion H. tauto.
  - inversion H. subst y. exfalso. apply Ha'. now left.
  - inversion H. subst x. exfalso. apply Ha. now left.
  - inversion H. subst y. destruct (IH a') as (-> & ->); try tauto.
Qed.

Lemma join_lines_cons (l : text) (ls : list text) :
  ls <> [] -> join_lines (l :: ls) = l ++ NL :: join_lines ls.
Proof. destruct ls; [congruence | reflexivity]. Qed.

Lemma response_shape (r : InteractiveTermExecutionResult) :
  exists rest,
    formatInteractiveTermResponse r
    = (str "Exit code: " ++ code_text (exitCode r)) ++ NL ::
      (str "Timed out: " ++ bool_text (timedOut r)) ++ NL ::
      (str "Dismissed by user: " ++ bool_text (dismissedByUser r)) ++ NL :: rest
    /\ hd_error rest = Some (if scrollbackTruncated r then 79%N else NL).
Proof.
  unfold formatInteractiveTermResponse, code_text.
  destruct (scrollbackTruncated r); eexists; split; reflexivity.
Qed.

Lemma bool_text_no_NL (b : bool) : ~ In NL (bool_text b).
Proof. destruct b; cbn; unfold NL; intuition discriminate. Qed.

Lemma bool_text_inj (a b : bool) : bool_text a = bool_text b -> a = b.
Proof. destruct a, b; cbn; intros H; try reflexivity; discriminate. Qed.

Lemma code_text_no_NL (c : option Z) : ~ In NL (code_text c).
Proof.
  destruct c as [c|]; [apply dec_no_NL|]. cbn. unfold NL. intuition discriminate.
Qed.

Lemma code_text_inj (a b : option Z) : code_text a = code_text b -> a = b.
Proof.
  destruct a as [a|], b as [b|]; cbn; intros H.
  - f_equal. now apply dec_inj.
  - now apply dec_not_null in H.
  - symmetry in H. now apply dec_not_null in H.
  - reflexivity.
Qed.

Lemma no_NL_app (a b : text) : ~ In NL a -> ~ In NL b -> ~ In NL (a ++ b).
Proof. intros Ha Hb Hin. apply in_app_or in Hin. tauto. Qed.

Lemma label_no_NL (s : string) :
  forallb (fun c => negb (c =? NL)%N) (str s) = true -> ~ In NL (str s).
Proof.
  intros H Hin. rewrite forallb_forall in H. specialize (H NL Hin).
  now rewrite N.eqb_refl in H.
Qed.

(** X7.  The text that the tool returns tells the status of the run: two
    results whose texts are equal have the same exit code (absent or not,
    and which), the same [timedOut], the same [dismissedByUser] and the
    same [scrollbackTruncated]. *)
Theorem response_tells_status (r1 r2 : InteractiveTermExecutionResult) :
  formatInteractiveTermResponse r1 = formatInteractiveTermResponse r2 ->
  exitCode r1 = exitCode r2
  /\ timedOut r1 = timedOut r2
  /\ dismissedByUser r1 = dismissedByUser r2
  /\ scrollbackTruncated r1 = scrollbackTruncated r2.
Proof.
  intros H.
  destruct (response_shape r1) as (t1 & E1 & H1).
  destruct (response_shape r2) as (t2 & E2 & H2).
  rewrite E1, E2 in H. clear E1 E2.
  apply first_line_unique in H;
    try (apply no_NL_app; [now apply label_no_NL | apply code_text_no_NL]).
  destruct H as (Hc & H). apply app_inv_head in Hc. apply code_text_inj in Hc.
  apply first_line_unique in H;
    try (apply no_NL_app; [now apply label_no_NL | apply bool_text_no_NL]).
  destruct H as (Ht & H). apply app_inv_head in Ht. apply bool_text_inj in Ht.
  apply first_line_unique in H;
    try (apply no_NL_app; [now apply label_no_NL | apply bool_text_no_NL]).
  destruct H as (Hd & H). apply app_inv_head in Hd. apply bool_text_inj in Hd.
  subst t2. rewrite H1 in H2.
  repeat split; try assumption.
  destruct (scrollbackTruncated r1), (scrollbackTruncated r2);
    try reflexivity; inversion H2.
Qed.

(** ** The further properties on concrete input *)

(** X1 on a run where the timer fires and the signal aborts afterwards:
    one SIGKILL, handle given up. *)
Lemma pty_killed_at_most_once_witness :
  let s := demo Spawned [EvTimer; EvAbort] in
  v_pty (vars s) = false /\ w_kills (world s) = [SIGKILL].
Proof.
  intros s.
  destruct (proj2 (proj2 (pty_killed_at_most_once (B := LineTerm.t) (host := plain_host)
                            demo_params Spawned [EvTimer; EvAbort])) eq_refl)
    as [[H _]|H].
  - vm_compute in H. discriminate H.
  - exact H.
Defined.

(** X2 on a run where a key is typed, the timer fires and another key is
    typed: the second key is not written. *)
Lemma writes_are_keystrokes_witness :
  let s := demo Spawned [EvInput (str "a"); EvTimer] in
  w_writes (world (run (host := plain_host) s [EvInput (str "b")])) = w_writes (world s).
Proof.
  intros s.
  exact (proj1 (proj2 (proj2 (writes_are_keystrokes (B := LineTerm.t) (host := plain_host)
                                demo_params Spawned [EvInput (str "a"); EvTimer]))
                 eq_refl [EvInput (str "b")])).
Defined.

Lemma no_exit_timer : no_exit [EvTimer].
Proof. intros c [Hc|[]]. discriminate. Qed.

(** X3 on a run where the timer fires before the PTY reports status 137. *)
Lemma overlay_runs_until_exit_witness :
  let s2 := demo Spawned [EvTimer; EvExit (Some 137)] in
  c_state (comp s2) = timed_out /\ c_exitCode (comp s2) = None.
Proof.
  intros s2.
  destruct (proj2 (overlay_runs_until_exit (B := LineTerm.t) (host := plain_host)
                     demo_params [EvTimer; EvExit (Some 137); EvParse])
              [EvTimer] (Some 137) [EvParse] eq_refl no_exit_timer)
    as (H1 & H2 & _).
  split; [exact H1 | exact H2].
Defined.

(** X4 on a run that ends with the exit event and the flush. *)
Lemma finish_releases_everything_witness :
  let s := demo Spawned [EvData (str "x"); EvExit (Some 0); EvParse; EvParse] in
  v_disposables (vars s) = []
  /\ w_disposed (world s) = initial_disposables demo_params.
Proof.
  intros s.
  destruct (proj2 (finish_releases_everything (B := LineTerm.t) (host := plain_host)
                     demo_params [EvData (str "x"); EvExit (Some 0); EvParse; EvParse])
              eq_refl)
    as (_ & _ & _ & _ & H1 & H2).
  split; [exact H1 | exact H2].
Defined.

(** X5 on a timeout of two and a half seconds. *)
Lemma parseOptionalTimeout_range_witness :
  parseOptionalTimeout (Some (Fin (QArith_base.Qmake 5 2))) = Value (Some (num 2)).
Proof.
  apply (proj2 (proj1 (parseOptionalTimeout_range (Some (Fin (QArith_base.Qmake 5 2))))
                  (num 2))).
  exists (QArith_base.Qmake 5 2). split; [reflexivity|]. split; reflexivity.
Defined.

(** X6 on a terminal of 120 columns, the caller asking for 100. *)
Lemma initial_size_bounds_witness :
  initialCols (fa := exact_arith) (Some (num 100)) 120 = num 100.
Proof.
  apply (proj1 (proj2 (proj2 (initial_size_bounds (fa := exact_arith)
                                (Some (num 100)) None 120 40))) 100 eq_refl).
  vm_compute. split; discriminate.
Defined.

(** X7 on two results that differ in their scrollback only, one empty and
    one holding the placeholder of the empty one. *)
Lemma response_tells_status_witness :
  let r1 := {| exitCode := Some 0; scrollback := []; screenSnapshot := [];
               timedOut := false; dismissedByUser := true;
               scrollbackTruncated := false; abortedBySignal := false |} in
  let r2 := {| exitCode := Some 0; scrollback := str "(no stdout captured)";
               screenSnapshot := []; timedOut := false; dismissedByUser := true;
               scrollbackTruncated := false; abortedBySignal := false |} in
  formatInteractiveTermResponse r1 = formatInteractiveTermResponse r2
  /\ exitCode r1 = exitCode r2 /\ dismissedByUser r1 = dismissedByUser r2.
Proof.
  intros r1 r2.
  assert (H : formatInteractiveTermResponse r1 = formatInteractiveTermResponse r2)
    by reflexivity.
  split; [exact H|].
  destruct (response_tells_status H) as (H1 & _ & H3 & _).
  split; [exact H1 | exact H3].
Defined.

(** * Strings by code unit *)

Lemma slice_zero (a : jstring) : slice a 0 None = a.
Proof.
  unfold slice. cbn [Z.ltb Z.compare].
  rewrite Z.min_l by lia. cbn [Z.to_nat skipn].
  rewrite Z.sub_0_r, Nat2Z.id. apply firstn_all.
Qed.

Lemma slice_tail (a : jstring) (T : Z) :
  0 < T -> slice a (- T) None = skipn (Z.to_nat (Z.of_nat (length a) - T)) a.
Proof.
  intros HT. unfold slice.
  destruct (Z.ltb_spec (- T) 0) as [_|]; [|lia].
  replace (Z.to_nat (Z.max (Z.of_nat (length a) + - T) 0))
    with (Z.to_nat (Z.of_nat (length a) - T)) by lia.
  apply firstn_all2. rewrite length_skipn. lia.
Qed.

Lemma slice_tail_short (a : jstring) (T : Z) :
  0 <= T -> Z.of_nat (length a) <= T -> slice a (- T) None = a.
Proof.
  intros HT Hlen. destruct (Z.eq_dec T 0) as [->|].
  - apply slice_zero.
  - rewrite slice_tail by lia.
    replace (Z.to_nat (Z.of_nat (length a) - T)) with 0%nat by lia. reflexivity.
Qed.

Lemma slice_tail_length (a : jstring) (T : Z) :
  0 < T -> Z.of_nat (length (slice a (- T) None)) = Z.min T (Z.of_nat (length a)).
Proof. intros HT. rewrite slice_tail by lia. rewrite length_skipn. lia. Qed.

Lemma slice_tail_app (a d : jstring) (T : Z) :
  0 <= T -> T < Z.of_nat (length a) ->
  slice (slice a (- T) None ++ d) (- T) None = slice (a ++ d) (- T) None.
Proof.
  intros HT Hlen. destruct (Z.eq_dec T 0) as [->|].
  - cbn [Z.opp]. now rewrite !slice_zero.
  - rewrite !slice_tail by lia.
    rewrite !length_app, length_skipn.
    replace (Z.to_nat (Z.of_nat (length a - Z.to_nat (Z.of_nat (length a) - T)
                                 + length d) - T))
      with (length d) by lia.
    replace (Z.to_nat (Z.of_nat (length a + length d) - T))
      with (length d + Z.to_nat (Z.of_nat (length a) - T))%nat by lia.
    rewrite <- skipn_skipn. f_equal.
    rewrite skipn_app.
    replace (Z.to_nat (Z.of_nat (length a) - T) - length a)%nat with 0%nat by lia.
    reflexivity.
Qed.

(** * The output sink *)

Lemma pushSanitized_holds (o : OutputSink.Options) (all data : jstring)
    (st : OutputSink.State) :
  0 <= OutputSink.spillThreshold o ->
  sink_holds o all st ->
  sink_holds o (all ++ data) (OutputSink.pushSanitized o data st)
  /\ OutputSink.chunks (OutputSink.pushSanitized o data st)
     = OutputSink.chunks st ++ [data].
Proof.
  intros HT (Hbuf & Hfile).
  destruct st as [buf fl chs n]. cbn in Hbuf, Hfile. subst buf.
  unfold OutputSink.pushSanitized. cbn [OutputSink.onChunk OutputSink.buffer OutputSink.file
    OutputSink.chunks OutputSink.allocated].
  set (T := OutputSink.spillThreshold o) in *.
  destruct fl as [f|].
  - destruct Hfile as (Hlen & Hw & Hp & Hn). cbn [orb].
    unfold OutputSink.fileSink, OutputSink.sink_write, OutputSink.set_buffer.
    cbn [OutputSink.buffer OutputSink.file OutputSink.chunks OutputSink.allocated].
    destruct (Z.gtb_spec (Z.of_nat (length data)
                          + Z.of_nat (length (slice all (- T) None))) T) as [Hov|Hov];
      cbn [OutputSink.buffer OutputSink.file OutputSink.chunks OutputSink.allocated
           OutputSink.path OutputSink.written];
      (split; [|reflexivity]); unfold sink_holds;
      cbn [OutputSink.buffer OutputSink.file OutputSink.chunks OutputSink.allocated
           OutputSink.path OutputSink.written]; fold T.
    + split; [apply slice_tail_app; lia|].
      rewrite length_app. repeat split; try assumption; try lia. now rewrite Hw.
    + assert (HT0 : 0 < T).
      { destruct (Z.eq_dec T 0) as [E|]; [|lia].
        rewrite E in Hov. cbn [Z.opp] in Hov. rewrite slice_zero in Hov. lia. }
      rewrite slice_tail_length in Hov by lia.
      assert (Hd : data = []) by (destruct data; [reflexivity | cbn [length] in Hov; lia]).
      subst data. rewrite !app_nil_r.
      split; [reflexivity|]. repeat split; try assumption. now rewrite app_nil_r.
  - destruct Hfile as (Hlen & Hn). cbn [orb].
    rewrite (slice_tail_short all) by lia.
    destruct (Z.gtb_spec (Z.of_nat (length data) + Z.of_nat (length all)) T) as [Hov|Hov];
      unfold OutputSink.fileSink, OutputSink.sink_write, OutputSink.set_buffer;
      cbn [OutputSink.buffer OutputSink.file OutputSink.chunks OutputSink.allocated
           OutputSink.path OutputSink.written];
      (split; [|reflexivity]); unfold sink_holds;
      cbn [OutputSink.buffer OutputSink.file OutputSink.chunks OutputSink.allocated
           OutputSink.path OutputSink.written]; fold T.
    + split; [reflexivity|]. rewrite length_app, Hn. repeat split; lia.
    + rewrite slice_tail_short by (try rewrite length_app; lia).
      split; [reflexivity|]. rewrite length_app. split; [lia | assumption].
Qed.

Lemma pushes_hold (sanitizeText : jstring -> jstring) (o : OutputSink.Options)
    (cs : list jstring) (all : jstring) (st : OutputSink.State) :
  0 <= OutputSink.spillThreshold o ->
  sink_holds o all st ->
  sink_holds o (all ++ concat (map sanitizeText cs)) (OutputSink.pushes sanitizeText o cs st)
  /\ OutputSink.chunks (OutputSink.pushes sanitizeText o cs st)
     = OutputSink.chunks st ++ map sanitizeText cs.
Proof.
  intros HT. revert all st. induction cs as [|c cs IH]; intros all st Hst.
  - cbn. rewrite !app_nil_r. tauto.
  - change (OutputSink.pushes sanitizeText o (c :: cs) st)
      with (OutputSink.pushes sanitizeText o cs
              (OutputSink.pushSanitized o (sanitizeText c) st)).
    cbn [map concat].
    destruct (pushSanitized_holds (sanitizeText c) HT Hst) as (H1 & H2).
    destruct (IH _ _ H1) as (H3 & H4).
    rewrite app_assoc. split; [exact H3|].
    rewrite H4, H2, <- app_assoc. reflexivity.
Qed.

Lemma create_holds (o : OutputSink.Options) :
  0 <= OutputSink.spillThreshold o -> sink_holds o [] OutputSink.create.
Proof.
  intros HT. split; cbn.
  - now rewrite slice_tail_short by (cbn; lia).
  - split; [lia | reflexivity].
Qed.

(** X8.  After any pushes, each awaited, into a new sink with a threshold
    of at least zero: the buffer is [all.slice(-threshold)] of all the
    sanitized text pushed so far, which is its last [threshold] code units
    for a threshold above zero and the whole of it for the threshold zero;
    the file exists exactly when the text is longer than the threshold, and
    then holds the whole text under the first allocated path;
    [allocateFilePath] is called once at most; [onChunk] has been given
    the sanitized chunks in order. *)
Theorem sink_keeps_tail (sanitizeText : jstring -> jstring) (o : OutputSink.Options)
    (cs : list jstring) :
  0 <= OutputSink.spillThreshold o ->
  let T := OutputSink.spillThreshold o in
  let all := concat (map sanitizeText cs) in
  let st := OutputSink.pushes sanitizeText o cs OutputSink.create in
  OutputSink.buffer st = slice all (- T) None
  /\ (0 < T ->
      OutputSink.buffer st = skipn (Z.to_nat (Z.of_nat (length all) - T)) all
      /\ Z.of_nat (length (OutputSink.buffer st)) = Z.min T (Z.of_nat (length all)))
  /\ (T = 0 -> OutputSink.buffer st = all)
  /\ (OutputSink.file st = None <-> Z.of_nat (length all) <= T)
  /\ (forall f, OutputSink.file st = Some f ->
        OutputSink.written f = all
        /\ OutputSink.path f = OutputSink.allocateFilePath o 0)
  /\ (OutputSink.allocated st <= 1)%nat
  /\ OutputSink.chunks st = map sanitizeText cs.
Proof.
  intros HT T all st.
  destruct (pushes_hold sanitizeText cs HT (create_holds o HT)) as ((Hbuf & Hfile) & Hch).
  cbn [app] in Hbuf, Hfile, Hch. fold all st T in Hbuf, Hfile, Hch.
  split; [exact Hbuf|].
  split; [intros H0; rewrite Hbuf; split;
          [now apply slice_tail | now apply slice_tail_length]|].
  split; [intros H0; rewrite Hbuf, H0; apply slice_zero|].
  destruct (OutputSink.file st) as [f|].
  - destruct Hfile as (Hlen & Hw & Hp & Hn).
    split; [split; [discriminate | lia]|].
    split; [intros f' [= <-]; tauto|]. split; [lia | exact Hch].
  - destruct Hfile as (Hlen & Hn).
    split; [tauto|]. split; [discriminate|]. split; [lia | exact Hch].
Qed.

(** X9.  [dump] after any pushes into a new sink with a threshold of at
    least zero: the result is marked truncated exactly when the sanitized
    text is longer than the threshold.  If it is not, the output is the
    notice line and the whole text, with no path and no artifact; if it
    is, the output is the notice line, three dots and [all.slice(-threshold)],
    the path is the allocated one, and the artifact is what the saver
    returns for the whole text (none without a saver or when it throws). *)
Theorem dump_reports_spill (sanitizeText : jstring -> jstring) (o : OutputSink.Options)
    (cs : list jstring) (notice : option jstring) :
  0 <= OutputSink.spillThreshold o ->
  let T := OutputSink.spillThreshold o in
  let all := concat (map sanitizeText cs) in
  let r := OutputSink.dump o notice (OutputSink.pushes sanitizeText o cs OutputSink.create) in
  OutputSink.truncated r = (T <? Z.of_nat (length all))
  /\ (OutputSink.truncated r = false ->
      OutputSink.output r = OutputSink.noticeLine notice ++ all
      /\ OutputSink.fullOutputPath r = None
      /\ OutputSink.artifactId r = None)
  /\ (OutputSink.truncated r = true ->
      OutputSink.output r
      = OutputSink.noticeLine notice ++ str "..." ++ slice all (- T) None
      /\ OutputSink.fullOutputPath r = Some (OutputSink.allocateFilePath o 0)
      /\ OutputSink.artifactId r
         = match OutputSink.saveArtifact o with
           | Some save => save all
           | None => None
           end).
Proof.
  intros HT T all r.
  destruct (pushes_hold sanitizeText cs HT (create_holds o HT)) as ((Hbuf & Hfile) & _).
  cbn [app] in Hbuf, Hfile. fold all T in Hbuf, Hfile.
  subst r. unfold OutputSink.dump.
  destruct (OutputSink.file _) as [f|];
    cbn [OutputSink.truncated OutputSink.output OutputSink.fullOutputPath
         OutputSink.artifactId].
  - destruct Hfile as (Hlen & Hw & Hp & Hn).
    split; [symmetry; apply Z.ltb_lt; exact Hlen|].
    split; [discriminate|]. intros _. rewrite Hbuf, Hw, Hp. tauto.
  - destruct Hfile as (Hlen & Hn).
    split; [symmetry; apply Z.ltb_ge; exact Hlen|].
    split; [|discriminate]. intros _. rewrite Hbuf.
    rewrite slice_tail_short by assumption. tauto.
Qed.

Lemma small_sink_threshold : 0 <= OutputSink.spillThreshold small_sink.
Proof. cbn. lia. Qed.

(** X8 on two pushes of three code units into a sink that keeps four. *)
Lemma sink_keeps_tail_witness :
  let st := OutputSink.pushes (fun s => s) small_sink [str "abc"; str "def"]
              OutputSink.create in
  OutputSink.buffer st = str "cdef"
  /\ (forall f, OutputSink.file st = Some f -> OutputSink.written f = str "abcdef").
Proof.
  intros st.
  destruct (sink_keeps_tail (fun s => s) small_sink [str "abc"; str "def"]
              small_sink_threshold) as (H1 & _ & _ & _ & H2 & _).
  split; [exact H1|]. intros f Hf. exact (proj1 (H2 f Hf)).
Defined.

(** X9 on the same pushes. *)
Lemma dump_reports_spill_witness :
  let r := OutputSink.dump small_sink (Some (str "killed"))
             (OutputSink.pushes (fun s => s) small_sink [str "abc"; str "def"]
                OutputSink.create) in
  OutputSink.output r = str "[killed]" ++ [NL] ++ str "...cdef"
  /\ OutputSink.artifactId r = Some (str "artifact-1").
Proof.
  intros r.
  destruct (proj2 (proj2 (dump_reports_spill (fun s => s) small_sink
                            [str "abc"; str "def"] (Some (str "killed"))
                            small_sink_threshold)) eq_refl) as (H1 & _ & H3).
  split; [exact H1 | exact H3].
Defined.

(** * Regular expressions of secrets *)

Lemma trailing_backslashes_snoc (p : jstring) (c : N) :
  trailing_backslashes (p ++ [c])
  = if (c =? BACKSLASH)%N then S (trailing_backslashes p) else 0%nat.
Proof. unfold trailing_backslashes. rewrite rev_app_distr. reflexivity. Qed.

Lemma slashes_escaped_snoc (p : jstring) (c : N) :
  slashes_escaped p ->
  (c = SLASH -> Nat.odd (trailing_backslashes p) = true) ->
  slashes_escaped (p ++ [c]).
Proof.
  intros Hp Hc a b E.
  induction b as [|x b' _] using rev_ind.
  - apply app_inj_tail in E. destruct E as (-> & ->). now apply Hc.
  - change (a ++ SLASH :: b' ++ [x]) with (a ++ (SLASH :: b') ++ [x]) in E.
    rewrite app_assoc in E. apply app_inj_tail in E. destruct E as (-> & _).
    now apply (Hp a b').
Qed.

Lemma scan_spec (rest pre : jstring) :
  slashes_escaped pre ->
  let k := scan rest (1 + Z.of_nat (length pre)) (Nat.odd (trailing_backslashes pre)) in
  (k = -1 /\ slashes_escaped (pre ++ rest))
  \/ (exists a b,
         rest = a ++ SLASH :: b
         /\ k = 1 + Z.of_nat (length pre) + Z.of_nat (length a)
         /\ Nat.odd (trailing_backslashes (pre ++ a)) = false
         /\ slashes_escaped (pre ++ a)).
Proof.
  revert pre. induction rest as [|c r IH]; intros pre Hpre k.
  - left. subst k. cbn. rewrite app_nil_r. tauto.
  - assert (Hnext : forall e,
               Nat.odd (trailing_backslashes (pre ++ [c])) = e ->
               slashes_escaped (pre ++ [c]) ->
               k = scan r (1 + Z.of_nat (length pre) + 1) e ->
               (k = -1 /\ slashes_escaped (pre ++ c :: r))
               \/ (exists a b,
                      c :: r = a ++ SLASH :: b
                      /\ k = 1 + Z.of_nat (length pre) + Z.of_nat (length a)
                      /\ Nat.odd (trailing_backslashes (pre ++ a)) = false
                      /\ slashes_escaped (pre ++ a))).
    { intros e He Hesc Hk. specialize (IH (pre ++ [c]) Hesc). cbn zeta in IH.
      rewrite He, length_app in IH. cbn [length] in IH.
      replace (1 + Z.of_nat (length pre + 1)) with (1 + Z.of_nat (length pre) + 1) in IH by lia.
      rewrite <- Hk in IH. rewrite <- app_assoc in IH. cbn [app] in IH.
      destruct IH as [IH|(a & b & E & Hka & Hodd & Ha)]; [left; exact IH|].
      right. exists (c :: a), b. subst r. split; [reflexivity|].
      rewrite <- app_assoc in Hodd, Ha. cbn [app] in Hodd, Ha.
      cbn [length]. split; [lia|]. tauto. }
    subst k. cbn [scan] in *.
    destruct (Nat.odd (trailing_backslashes pre)) eqn:Hodd.
    + apply (Hnext false); [| |reflexivity].
      * rewrite trailing_backslashes_snoc.
        destruct (c =? BACKSLASH)%N; [|reflexivity].
        rewrite Nat.odd_succ, <- Nat.negb_odd, Hodd. reflexivity.
      * apply slashes_escaped_snoc; [assumption | intros _; assumption].
    + destruct (N.eqb_spec c BACKSLASH) as [Hb|Hb].
      * apply (Hnext true); [| |reflexivity].
        -- rewrite trailing_backslashes_snoc. subst c. cbn [N.eqb BACKSLASH Pos.eqb].
           rewrite Nat.odd_succ, <- Nat.negb_odd, Hodd. reflexivity.
        -- apply slashes_escaped_snoc; [assumption | subst c; discriminate].
      * destruct (N.eqb_spec c SLASH) as [Hs|Hs].
        -- right. exists [], r. subst c. rewrite app_nil_r. cbn [length app].
           split; [reflexivity|]. split; [lia|]. tauto.
        -- apply (Hnext false); [| |reflexivity].
           ++ rewrite trailing_backslashes_snoc.
              destruct (N.eqb_spec c BACKSLASH); [contradiction | reflexivity].
           ++ apply slashes_escaped_snoc; [assumption | contradiction].
Qed.

Lemma slashes_escaped_nil : slashes_escaped [].
Proof. intros a b E. destruct a; discriminate. Qed.

Lemma first_unescaped_unique (p f a b : jstring) :
  p ++ SLASH :: f = a ++ SLASH :: b ->
  slashes_escaped p -> Nat.odd (trailing_backslashes p) = false ->
  slashes_escaped a -> Nat.odd (trailing_backslashes a) = false ->
  p = a /\ f = b.
Proof.
  intros E Hp Ep Ha Ea.
  apply app_eq_app in E. destruct E as (l & [(E1 & E2) | (E1 & E2)]).
  - destruct l as [|x l].
    + rewrite app_nil_r in E1. cbn in E2. injection E2 as <-. tauto.
    + cbn in E2. injection E2 as <- _. specialize (Hp a l E1). congruence.
  - destruct l as [|x l].
    + rewrite app_nil_r in E1. cbn in E2. injection E2 as <-. split; congruence.
    + cbn in E2. injection E2 as <- _. specialize (Ha p l E1). congruence.
Qed.

Lemma slice_pattern (p f : jstring) :
  slice (SLASH :: p ++ SLASH :: f) 1 (Some (1 + Z.of_nat (length p))) = p.
Proof.
  unfold slice. cbn [Z.ltb Z.compare].
  destruct (Z.ltb_spec (1 + Z.of_nat (length p)) 0) as [|_]; [lia|].
  cbn [length]. rewrite length_app. cbn [length].
  rewrite !Z.min_l by lia.
  replace (Z.to_nat (1 + Z.of_nat (length p) - 1)) with (length p + 0)%nat by lia.
  change (Z.to_nat 1) with 1%nat. cbn [skipn].
  rewrite firstn_app_2. cbn. apply app_nil_r.
Qed.

Lemma slice_flags (p f : jstring) :
  slice (SLASH :: p ++ SLASH :: f) (1 + Z.of_nat (length p) + 1) None = f.
Proof.
  unfold slice.
  destruct (Z.ltb_spec (1 + Z.of_nat (length p) + 1) 0) as [|_]; [lia|].
  cbn [length]. rewrite length_app. cbn [length].
  rewrite Z.min_l by lia.
  replace (Z.to_nat (1 + Z.of_nat (length p) + 1)) with (S (length p + 1)) by lia.
  cbn [skipn]. rewrite skipn_app.
  rewrite skipn_all2 by lia.
  replace (length p + 1 - length p)%nat with 1%nat by lia. cbn [skipn app].
  apply firstn_all2. lia.
Qed.

Lemma startsWith_slash (content : jstring) :
  startsWith content (str "/") = true <-> exists q, content = SLASH :: q.
Proof.
  unfold startsWith. rewrite text_eqb_eq. cbn [str length list_ascii_of_string map].
  destruct content as [|c q]; cbn [firstn].
  - split; [discriminate | intros (q & E); discriminate].
  - split.
    + intros [= ->]. now exists q.
    + intros (q' & [= -> _]). reflexivity.
Qed.

(** X10.  [parseSecretRegex] on a text that does not start with a slash
    returns it whole as the pattern, with no flags.  On a text that starts
    with a slash it returns [pattern] and [flags] exactly when the text is
    slash, [pattern], slash, [flags], where the closing slash is the first
    one that follows an even number of backslashes (none included); it
    throws exactly when every slash after the first follows an odd number
    of backslashes. *)
Theorem parseSecretRegex_literal (content : jstring) :
  (forall r,
      parseSecretRegex content = Return r <->
      ((forall q, content <> SLASH :: q) /\ r = {| pattern := content; flags := [] |})
      \/ (content = SLASH :: pattern r ++ SLASH :: flags r
          /\ slashes_escaped (pattern r)
          /\ Nat.even (trailing_backslashes (pattern r)) = true))
  /\ ((exists m, parseSecretRegex content = Throw m) <->
      exists q, content = SLASH :: q /\ slashes_escaped q).
Proof.
  unfold parseSecretRegex.
  destruct (startsWith content (str "/")) eqn:Hs; cbn [negb].
  - apply startsWith_slash in Hs. destruct Hs as (q & ->). cbn [skipn].
    pose proof (scan_spec q slashes_escaped_nil) as Hk. cbn [length app] in Hk.
    change (1 + Z.of_nat 0) with 1 in Hk.
    change (Nat.odd (trailing_backslashes [])) with false in Hk. cbn zeta in Hk.
    destruct Hk as [(Hk & Hq) | (a & b & -> & Hk & Hodd & Ha)].
    + rewrite Hk. cbn [Z.eqb]. split.
      * intros r. split; [discriminate|].
        intros [(Hno & _) | (E & Hp & Hev)]; [now destruct (Hno q)|].
        injection E as E. specialize (Hq _ _ E).
        rewrite <- Nat.negb_odd, Hq in Hev. discriminate.
      * split; [intros _; now exists q | intros _; eexists; reflexivity].
    + rewrite Hk. destruct (Z.eqb_spec (1 + Z.of_nat (length a)) (-1)) as [|_]; [lia|].
      rewrite slice_pattern, slice_flags. split.
      * intros r. split.
        -- intros H. injection H as H. subst r. right. cbn [pattern flags].
           split; [reflexivity|]. split; [assumption|].
           now rewrite <- Nat.negb_odd, Hodd.
        -- intros [(Hno & _) | (E & Hp & Hev)]; [now destruct (Hno (a ++ SLASH :: b))|].
           injection E as E. rewrite <- Nat.negb_odd in Hev.
           apply negb_true_iff in Hev.
           destruct (@first_unescaped_unique _ _ _ _ E Ha Hodd Hp Hev) as (Ea & Eb).
           destruct r as [rp rf]. cbn [pattern flags] in Ea, Eb. now subst.
      * split; [intros (m & Hm); discriminate|].
        intros (q & [= <-] & Hq). specialize (Hq a b eq_refl). congruence.
  - assert (Hno : forall q, content <> SLASH :: q).
    { intros q ->. assert (startsWith (SLASH :: q) (str "/") = true)
        by (apply startsWith_slash; now exists q). congruence. }
    split.
    + intros r. split.
      * intros H. injection H as H. subst r. left. tauto.
      * intros [(_ & ->) | (E & _)]; [reflexivity | now destruct (Hno _ E)].
    + split; [intros (m & Hm); discriminate | intros (q & E & _); now destruct (Hno _ E)].
Qed.

Lemma parseSecretRegex_literal_witness :
  parseSecretRegex (str "/a\/b/gi") = Return {| pattern := str "a\/b"; flags := str "gi" |}
  /\ slashes_escaped (str "a\/b").
Proof.
  split; [reflexivity|].
  destruct (proj1 (proj1 (parseSecretRegex_literal (str "/a\/b/gi")) _) eq_refl)
    as [(Hno & _)|(_ & H & _)].
  - destruct (Hno _ eq_refl).
  - exact H.
Defined.

Lemma concat_code_points (s : jstring) : concat (code_points s) = s.
Proof.
  enough (H : concat (code_points s) = s
              /\ forall u, concat (code_points (u :: s)) = u :: s) by apply H.
  induction s as [|v r (IH1 & IH2)].
  - split; [reflexivity | intros u; reflexivity].
  - split; [apply IH2|]. intros u. cbn [code_points].
    destruct (is_high_surrogate u && is_low_surrogate v).
    + cbn [concat app]. now rewrite IH1.
    + cbn [concat app]. f_equal. apply IH2.
Qed.

Lemma code_points_plain (s : jstring) :
  Forall (fun u => is_surrogate u = false) s ->
  code_points s = map (fun u => [u]) s.
Proof.
  induction 1 as [|u r Hu Hr IH]; [reflexivity|].
  cbn [code_points map]. rewrite <- IH.
  unfold is_surrogate in Hu. apply orb_false_iff in Hu. destruct Hu as (Hu & _).
  rewrite Hu. destruct r; reflexivity.
Qed.

Lemma Set_has (x : jstring) (set : list jstring) :
  existsb (text_eqb x) set = true <-> In x set.
Proof.
  rewrite existsb_exists. split.
  - intros (y & Hy & E). apply text_eqb_eq in E. now subst.
  - intros H. exists x. split; [assumption | apply text_eqb_refl].
Qed.

Lemma Set_fold_In (items acc : list jstring) (x : jstring) :
  In x (fold_left Set_add items acc) <-> In x acc \/ In x items.
Proof.
  revert acc. induction items as [|y items IH]; intros acc; cbn [fold_left].
  - cbn. tauto.
  - rewrite IH. unfold Set_add. destruct (existsb (text_eqb y) acc) eqn:E.
    + apply Set_has in E. cbn. split; [tauto|]. intros [H|[<-|H]]; tauto.
    + rewrite in_app_iff. cbn. tauto.
Qed.

Lemma Set_fold_NoDup (items acc : list jstring) :
  NoDup acc -> NoDup (fold_left Set_add items acc).
Proof.
  revert acc. induction items as [|y items IH]; intros acc Hacc; cbn [fold_left].
  - assumption.
  - apply IH. unfold Set_add. destruct (existsb (text_eqb y) acc) eqn:E; [assumption|].
    apply NoDup_app; [assumption | repeat constructor; intros [] |].
    intros z Hz [<-|[]]. apply Set_has in Hz. congruence.
Qed.

Lemma NoDup_concat_singletons (l : list jstring) :
  (forall x, In x l -> exists u, x = [u]) -> NoDup l -> NoDup (concat l).
Proof.
  intros Hs Hl. induction Hl as [|x l Hx Hl IH]; [constructor|].
  destruct (Hs x (or_introl eq_refl)) as (u & ->). cbn [concat app].
  constructor.
  - intros Hin. apply in_concat in Hin. destruct Hin as (y & Hy & Hu).
    destruct (Hs y (or_intror Hy)) as (w & ->). destruct Hu as [->|[]]. contradiction.
  - apply IH. intros y Hy. apply Hs. now right.
Qed.

Lemma deduplicateFlags_units (s : jstring) (u : N) :
  In u (deduplicateFlags s) <-> In u s.
Proof.
  unfold deduplicateFlags, new_Set. rewrite <- (concat_code_points s) at 2.
  rewrite !in_concat. split; intros (x & Hx & Hu); exists x; split; try assumption.
  - apply Set_fold_In in Hx. destruct Hx as [[]|Hx]. assumption.
  - apply Set_fold_In. now right.
Qed.

Lemma deduplicateFlags_NoDup (s : jstring) :
  Forall (fun u => is_surrogate u = false) s -> NoDup (deduplicateFlags s).
Proof.
  intros Hs. unfold deduplicateFlags, new_Set.
  apply NoDup_concat_singletons; [|apply Set_fold_NoDup; constructor].
  intros x Hx. apply Set_fold_In in Hx. destruct Hx as [[]|Hx].
  rewrite (code_points_plain Hs) in Hx. apply in_map_iff in Hx.
  destruct Hx as (u & <- & _). now exists u.
Qed.

Lemma includes_g_In (f : jstring) : includes_g f = true <-> In 103%N f.
Proof.
  unfold includes_g. rewrite existsb_exists. split.
  - intros (y & Hy & E). apply N.eqb_eq in E. now subst.
  - intros H. exists 103%N. split; [assumption | reflexivity].
Qed.

Lemma enforceGlobalFlag_units (f : jstring) (u : N) :
  In u (enforceGlobalFlag f) <-> In u f \/ u = 103%N.
Proof.
  unfold enforceGlobalFlag. destruct (includes_g f) eqn:E.
  - apply includes_g_In in E. split; [tauto | intros [H| ->]; assumption].
  - rewrite in_app_iff. cbn. intuition congruence.
Qed.

Lemma enforceGlobalFlag_NoDup (f : jstring) : NoDup f -> NoDup (enforceGlobalFlag f).
Proof.
  intros Hf. unfold enforceGlobalFlag. destruct (includes_g f) eqn:E; [assumption|].
  apply NoDup_app; [assumption | repeat constructor; intros [] |].
  intros z Hz [<-|[]]. apply includes_g_In in Hz. congruence.
Qed.

(** X11.  [compileSecretRegex] throws what [parseSecretRegex] throws, and
    otherwise is the call of [new RegExp] with the parsed pattern and with
    flags that hold [g]: it returns or throws as the constructor does for
    them.  The code units of these flags are those of the flags of the
    literal and of [extraFlags], and [g].  With [extraFlags] given and not
    empty, and no surrogate among the flags, no flag is repeated; without,
    the flags of the literal are passed on as they are, repetitions
    included, followed by [g] where it is missing. *)
Theorem compileSecretRegex_flags (RegExp : Type)
    (new_RegExp : jstring -> jstring -> Except RegExp)
    (content : jstring) (extraFlags : option jstring) :
  (forall m, parseSecretRegex content = Throw m ->
             compileSecretRegex new_RegExp content extraFlags = Throw m)
  /\ (forall parsed,
         parseSecretRegex content = Return parsed ->
         exists fl,
           compileSecretRegex new_RegExp content extraFlags
           = new_RegExp (pattern parsed) fl
           /\ In 103%N fl
           /\ (forall u, In u fl
                         <-> In u (flags parsed) \/ In u (units_of extraFlags) \/ u = 103%N)
           /\ (units_of extraFlags <> [] ->
               Forall (fun u => is_surrogate u = false)
                 (flags parsed ++ units_of extraFlags) ->
               NoDup fl)
           /\ (units_of extraFlags = [] ->
               fl = flags parsed
               \/ (~ In 103%N (flags parsed) /\ fl = flags parsed ++ str "g")))
  /\ ((exists m, compileSecretRegex new_RegExp content extraFlags = Throw m) ->
      (exists m, parseSecretRegex content = Throw m)
      \/ exists parsed fl m,
          parseSecretRegex content = Return parsed
          /\ In 103%N fl
          /\ new_RegExp (pattern parsed) fl = Throw m).
Proof.
  assert (Hret : forall parsed,
         parseSecretRegex content = Return parsed ->
         exists fl,
           compileSecretRegex new_RegExp content extraFlags
           = new_RegExp (pattern parsed) fl
           /\ In 103%N fl
           /\ (forall u, In u fl
                         <-> In u (flags parsed) \/ In u (units_of extraFlags) \/ u = 103%N)
           /\ (units_of extraFlags <> [] ->
               Forall (fun u => is_surrogate u = false)
                 (flags parsed ++ units_of extraFlags) ->
               NoDup fl)
           /\ (units_of extraFlags = [] ->
               fl = flags parsed
               \/ (~ In 103%N (flags parsed) /\ fl = flags parsed ++ str "g"))).
  { intros parsed Hp. unfold compileSecretRegex. rewrite Hp.
    eexists. split; [reflexivity|].
    split; [apply enforceGlobalFlag_units; now right|].
    split; [|split].
    - intros u. rewrite enforceGlobalFlag_units.
      destruct extraFlags as [[|c e]|]; cbn [units_of].
      + cbn. tauto.
      + rewrite deduplicateFlags_units, in_app_iff. tauto.
      + cbn. tauto.
    - intros Hne Hplain. destruct extraFlags as [[|c e]|]; cbn [units_of] in *;
        try congruence.
      apply enforceGlobalFlag_NoDup. now apply deduplicateFlags_NoDup.
    - intros He. destruct extraFlags as [[|c e]|]; cbn [units_of] in *;
        try discriminate;
        unfold enforceGlobalFlag; destruct (includes_g (flags parsed)) eqn:E;
        try (left; reflexivity);
        right; (split; [|reflexivity]); intros Hin; apply includes_g_In in Hin;
        congruence. }
  split; [|split; [exact Hret|]].
  - intros m Hp. unfold compileSecretRegex. now rewrite Hp.
  - intros (m & Hm). destruct (parseSecretRegex content) as [parsed|m'] eqn:Hp.
    + right. destruct (Hret parsed eq_refl) as (fl & Hc & Hg & _).
      exists parsed, fl, m. rewrite Hc in Hm. tauto.
    + left. now exists m'.
Qed.

(** X11 on a literal with the flags [gi], compiled with the extra flags
    [im], and on the literal [/x/zz], which parses and whose flags the
    constructor does not accept. *)
Lemma compileSecretRegex_flags_witness :
  compileSecretRegex checked_RegExp (str "/a\/b/gi") (Some (str "im"))
  = Return {| re_pattern := str "a\/b"; re_flags := str "gim" |}
  /\ (exists fl,
        compileSecretRegex checked_RegExp (str "/a\/b/gi") (Some (str "im"))
        = checked_RegExp (str "a\/b") fl
        /\ In 103%N fl /\ NoDup fl)
  /\ parseSecretRegex (str "/x/zz") = Return {| pattern := str "x"; flags := str "zz" |}
  /\ exists m, compileSecretRegex checked_RegExp (str "/x/zz") None = Throw m.
Proof.
  split; [reflexivity|]. split; [|split; [reflexivity | eexists; reflexivity]].
  destruct (proj1 (proj2 (compileSecretRegex_flags checked_RegExp
                            (str "/a\/b/gi") (Some (str "im"))))
              {| pattern := str "a\/b"; flags := str "gi" |} eq_refl)
    as (fl & Hc & Hg & _ & Hnd & _).
  exists fl. split; [exact Hc|]. split; [exact Hg|].
  apply Hnd.
  - discriminate.
  - repeat constructor.
Defined.

(** * Requests with a timeout and an abort signal *)

Section RequestFacts.

Import RequestOptions.

Variables T V : Type.

Lemma step_Done (o : Outcome T V) (st : State T V) (ev : Event T V) :
  Done o st -> Done o (step st ev) /\ calls (step st ev) = calls st.
Proof.
  intros (Hp & Ht & Hl & Hs). destruct st as [sg w pr c rn tm ls se].
  cbn in Hp, Ht, Hl, Hs. subst pr tm ls.
  destruct ev as [r| |r]; cbn.
  - destruct sg as [[[] rs]|]; cbn; repeat split; cbn; auto.
  - repeat split; cbn; auto.
  - destruct rn; cbn; [|repeat split; cbn; auto].
    destruct w as [| | |ms]; cbn; unfold conclude, settle; cbn;
      try (repeat split; cbn; auto; discriminate).
    rewrite (Hs ms eq_refl). cbn. repeat split; cbn; auto.
Qed.

Lemma run_Done (o : Outcome T V) (tr : list (Event T V)) (st : State T V) :
  Done o st -> Done o (run st tr) /\ calls (run st tr) = calls st.
Proof.
  revert st. induction tr as [|ev tr IH]; intros st H; [split; [exact H | reflexivity]|].
  cbn [run fold_left]. destruct (step_Done ev H) as (H1 & H2).
  destruct (IH _ H1) as (H3 & H4). split; [exact H3|].
  unfold run in H4. congruence.
Qed.

Lemma step_first (options : option (RequestOptions V)) (ev : Event T V) :
  signal_aborted (signal_of options) = false ->
  let st := wrapRequestOptions T options in
  match decision options ev with
  | None => step st ev = st
  | Some o => Done o (step st ev) /\ calls (step st ev) = 1%nat
  end.
Proof.
  intros Hab st. subst st. unfold wrapRequestOptions, decision.
  destruct (signal_of options) as [[ab rs]|] eqn:Hsig; cbn in Hab; [subst ab|];
    cbn [aborted]; destruct (le0 (timeout_of options)) eqn:Hle;
    destruct ev as [r| |r]; cbn; unfold Done; cbn; repeat split; auto;
    try discriminate.
Qed.

Lemma run_first (options : option (RequestOptions V)) (tr : list (Event T V)) :
  signal_aborted (signal_of options) = false ->
  let st := wrapRequestOptions T options in
  match first_decision options tr with
  | None => run st tr = st
  | Some o => Done o (run st tr) /\ calls (run st tr) = 1%nat
  end.
Proof.
  intros Hab st. induction tr as [|ev tr IH]; [reflexivity|].
  cbn [first_decision run fold_left].
  pose proof (step_first options ev Hab) as Hev. cbn zeta in Hev. fold st in Hev.
  destruct (decision options ev) as [o|].
  - destruct Hev as (Hd & Hc). destruct (run_Done tr Hd) as (H1 & H2).
    split; [exact H1 | unfold run in H2; congruence].
  - rewrite Hev. exact IH.
Qed.

Lemma thrown_Done (options : option (RequestOptions V)) :
  signal_aborted (signal_of options) = true ->
  let st := wrapRequestOptions T options in
  Done (Rejected T (abortReason (signal_of options))) st /\ calls st = 0%nat.
Proof.
  intros Hab st. subst st. unfold wrapRequestOptions.
  destruct (signal_of options) as [[ab rs]|]; cbn in Hab; [subst ab | discriminate].
  cbn. unfold Done. cbn. repeat split; auto; discriminate.
Qed.

Lemma wrap_pending (options : option (RequestOptions V)) :
  signal_aborted (signal_of options) = false ->
  let st := wrapRequestOptions T options in
  promise st = None /\ calls st = 1%nat /\ running st = true
  /\ timer st = negb (le0 (timeout_of options))
  /\ listening st = match signal_of options with Some _ => true | None => false end.
Proof.
  intros Hab st. subst st. unfold wrapRequestOptions.
  destruct (signal_of options) as [[ab rs]|]; cbn in Hab; [subst ab|];
    cbn [aborted]; destruct (le0 (timeout_of options)); cbn; tauto.
Qed.

(** X12.  The promise that [wrapRequestOptions] returns is rejected at
    once with [abortReason(signal)] when the signal is aborted already.
    Otherwise it is settled by the first event that counts and by nothing
    after it: the completion of [fn] (its value or its rejection), an abort
    of the signal when there is one (the reason if it is an error, else a
    new error with the reason as cause), the timer when the timeout is above
    zero or [NaN]; before such an event it is pending. *)
Theorem request_settled_by_first_event (options : option (RequestOptions V))
    (tr : list (Event T V)) :
  promise (run (wrapRequestOptions T options) tr)
  = if signal_aborted (signal_of options)
    then Some (Rejected T (abortReason (signal_of options)))
    else first_decision options tr.
Proof.
  destruct (signal_aborted (signal_of options)) eqn:Hab.
  - destruct (thrown_Done options Hab) as (Hd & _).
    destruct (run_Done tr Hd) as ((Hp & _) & _). exact Hp.
  - pose proof (run_first options tr Hab) as H. cbn zeta in H.
    destruct (first_decision options tr) as [o|].
    + destruct H as ((Hp & _) & _). exact Hp.
    + rewrite H. apply (wrap_pending options Hab).
Qed.

(** X13.  [fn] is called once, at the call of [wrapRequestOptions], and
    not at all when the signal is aborted already.  While the promise is
    pending, [fn] is running, the timer is set exactly for a timeout that
    is not at most zero, and the listener is registered exactly when there
    is a signal.  Once the promise is settled, no timer is set and no
    listener is registered, and the promise keeps its outcome whatever
    happens. *)
Theorem request_releases_timer_and_listener (options : option (RequestOptions V))
    (tr : list (Event T V)) :
  let st := run (wrapRequestOptions T options) tr in
  calls st = (if signal_aborted (signal_of options) then 0 else 1)%nat
  /\ (promise st = None ->
      running st = true
      /\ timer st = negb (le0 (timeout_of options))
      /\ listening st = match signal_of options with Some _ => true | None => false end)
  /\ (forall o, promise st = Some o ->
        timer st = false /\ listening st = false
        /\ forall tr', promise (run st tr') = Some o
                       /\ timer (run st tr') = false
                       /\ listening (run st tr') = false).
Proof.
  intros st.
  assert (H : (exists o, Done o st) \/ st = wrapRequestOptions T options
                                        /\ signal_aborted (signal_of options) = false).
  { subst st. destruct (signal_aborted (signal_of options)) eqn:Hab.
    - left. destruct (thrown_Done options Hab) as (Hd & _).
      eexists. apply (run_Done tr Hd).
    - pose proof (run_first options tr Hab) as H. cbn zeta in H.
      destruct (first_decision options tr) as [o|].
      + left. exists o. apply H.
      + right. split; [exact H | reflexivity]. }
  assert (Hc : calls st = (if signal_aborted (signal_of options) then 0 else 1)%nat).
  { subst st. destruct (signal_aborted (signal_of options)) eqn:Hab.
    - destruct (thrown_Done options Hab) as (Hd & Hc).
      destruct (run_Done tr Hd) as (_ & Hc'). congruence.
    - pose proof (run_first options tr Hab) as H'. cbn zeta in H'.
      destruct (first_decision options tr) as [o|].
      + apply H'.
      + rewrite H'. apply (wrap_pending options Hab). }
  split; [exact Hc|]. destruct H as [(o & Hd) | (Hst & Hab)].
  - split.
    + intros Hp. destruct Hd as (Hd & _). congruence.
    + intros o' Ho'. assert (o' = o) by (destruct Hd as (Hd & _); congruence). subst o'.
      split; [apply Hd|]. split; [apply Hd|]. intros tr'.
      destruct (run_Done tr' Hd) as ((H1 & H2 & H3 & _) & _). tauto.
  - rewrite Hst. destruct (wrap_pending options Hab) as (Hp & _ & Hr & Ht & Hl).
    split; [intros _; tauto|]. intros o Ho. congruence.
Qed.

End RequestFacts.

(** X12 on a request whose timer fires before [fn] completes. *)
Lemma request_settled_by_first_event_witness :
  RequestOptions.promise
    (RequestOptions.run (RequestOptions.wrapRequestOptions N timed_request)
       [RequestOptions.TimerFires N N; RequestOptions.Completes (inl 7%N)])
  = Some (RequestOptions.Rejected N (RequestOptions.RequestTimedOut N (num 500))).
Proof.
  exact (request_settled_by_first_event timed_request
           [RequestOptions.TimerFires N N; RequestOptions.Completes (inl 7%N)]).
Defined.

(** X13 on a request whose signal aborts: the timer is cleared, and the
    completion of [fn] afterwards changes nothing. *)
Lemma request_releases_timer_and_listener_witness :
  let st := RequestOptions.run (RequestOptions.wrapRequestOptions N timed_request)
              [RequestOptions.Abort N (RequestOptions.Another 3%N)] in
  RequestOptions.timer st = false
  /\ RequestOptions.promise (RequestOptions.run st [RequestOptions.Completes (inl 7%N)])
     = Some (RequestOptions.Rejected N (RequestOptions.RequestAborted (Some 3%N))).
Proof.
  intros st.
  destruct (proj2 (proj2 (request_releases_timer_and_listener timed_request
                            [RequestOptions.Abort N (RequestOptions.Another 3%N)]))
              _ eq_refl) as (H1 & _ & H3).
  split; [exact H1|]. exact (proj1 (H3 [RequestOptions.Completes (inl 7%N)])).
Defined.

(** * The model of the session title *)

Lemma find_filter_Some {A : Type} (f g : A -> bool) (l : list A) (x : A) :
  find f (filter g l) = Some x -> In x l /\ f x = true /\ g x = true.
Proof.
  intros H. apply find_some in H. destruct H as (Hin & Hf).
  apply filter_In in Hin. tauto.
Qed.

Lemma find_filter_None {A : Type} (f g : A -> bool) (l : list A) :
  find f (filter g l) = None -> forall x, In x l -> g x = true -> f x = false.
Proof.
  intros H x Hin Hg. apply (find_none _ _ H). apply filter_In. tauto.
Qed.

Lemma by_preference_spec (registry : TitleGenerator.ModelRegistry)
    (prefs : list TitleGenerator.Preference) :
  match TitleGenerator.by_preference registry prefs with
  | Some m =>
      exists before pref after,
        prefs = before ++ pref :: after
        /\ In m (TitleGenerator.getAll registry)
        /\ TitleGenerator.has_key registry m = true
        /\ TitleGenerator.preferred pref m = true
        /\ forall pref' m', In pref' before -> In m' (TitleGenerator.getAll registry) ->
                            TitleGenerator.preferred pref' m' = true ->
                            TitleGenerator.has_key registry m' = false
  | None =>
      forall pref' m', In pref' prefs -> In m' (TitleGenerator.getAll registry) ->
                       TitleGenerator.preferred pref' m' = true ->
                       TitleGenerator.has_key registry m' = false
  end.
Proof.
  induction prefs as [|pref prefs IH]; cbn [TitleGenerator.by_preference].
  - intros pref' m' [].
  - destruct (find _ (filter _ _)) as [m|] eqn:Hf.
    + apply find_filter_Some in Hf. destruct Hf as (Hin & Hk & Hp).
      exists [], pref, prefs. repeat split; try assumption. intros pref' m' [].
    + pose proof (find_filter_None _ _ _ Hf) as Hnone.
      destruct (TitleGenerator.by_preference registry prefs) as [m|].
      * destruct IH as (before & p & after & -> & Hin & Hk & Hp & Hfirst).
        exists (pref :: before), p, after. repeat split; try assumption.
        intros pref' m' [<-|Hb] Hm' Hpm'; [now apply Hnone | now apply (Hfirst pref')].
      * intros pref' m' [<-|Hb] Hm' Hpm'; [now apply Hnone | now apply (IH pref')].
Qed.

(** X14.  [findTitleModel] returns a model of the registry that has an API
    key, and returns none only when no model of the registry has one.  If
    some model with a key meets one of the four preferences, the model
    returned meets the earliest preference that any model with a key meets;
    if none does, it is the first model of the registry that has a key. *)
Theorem findTitleModel_prefers (registry : TitleGenerator.ModelRegistry) :
  (forall m, TitleGenerator.findTitleModel registry = Some m ->
     In m (TitleGenerator.getAll registry)
     /\ TitleGenerator.has_key registry m = true)
  /\ (TitleGenerator.findTitleModel registry = None <->
      forall m, In m (TitleGenerator.getAll registry) ->
                TitleGenerator.has_key registry m = false)
  /\ (forall before pref after m',
        TitleGenerator.preferences = before ++ pref :: after ->
        In m' (TitleGenerator.getAll registry) ->
        TitleGenerator.preferred pref m' = true ->
        TitleGenerator.has_key registry m' = true ->
        exists m pref0,
          TitleGenerator.findTitleModel registry = Some m
          /\ In pref0 (before ++ [pref])
          /\ TitleGenerator.preferred pref0 m = true)
  /\ ((forall pref m', In pref TitleGenerator.preferences ->
         In m' (TitleGenerator.getAll registry) ->
         TitleGenerator.preferred pref m' = true ->
         TitleGenerator.has_key registry m' = false) ->
      TitleGenerator.findTitleModel registry
      = find (TitleGenerator.has_key registry) (TitleGenerator.getAll registry)).
Proof.
  unfold TitleGenerator.findTitleModel.
  pose proof (by_preference_spec registry TitleGenerator.preferences) as Hspec.
  destruct (TitleGenerator.by_preference registry TitleGenerator.preferences) as [m0|].
  - destruct Hspec as (b0 & p0 & a0 & E0 & Hin0 & Hk0 & Hp0 & Hfirst).
    split; [intros m [= <-]; tauto|].
    split; [split; [discriminate | intros H; specialize (H m0 Hin0); congruence]|].
    split.
    + intros before pref after m' E Hin Hp Hk.
      exists m0, p0. split; [reflexivity|]. split; [|assumption].
      rewrite E0 in E. apply app_eq_app in E.
      destruct E as (l & [(E1 & E2) | (E1 & E2)]).
      * destruct l as [|x l].
        -- cbn in E2. injection E2 as <- _. rewrite app_nil_r in E1. subst b0.
           apply in_or_app. right. now left.
        -- cbn in E2. injection E2 as <- _.
           assert (Hb : In pref b0) by (subst b0; apply in_or_app; right; now left).
           specialize (Hfirst pref m' Hb Hin Hp). congruence.
      * subst before. destruct l as [|x l].
        -- cbn in E2. injection E2 as <- _. apply in_or_app. right. now left.
        -- cbn in E2. injection E2 as <- _. apply in_or_app. left.
           apply in_or_app. right. now left.
    + intros Hnone. specialize (Hnone p0 m0). rewrite Hk0 in Hnone.
      assert (In p0 TitleGenerator.preferences)
        by (rewrite E0; apply in_or_app; right; now left).
      specialize (Hnone H Hin0 Hp0). discriminate.
  - split; [intros m Hm; apply find_some in Hm; tauto|].
    split.
    + split.
      * intros Hf m Hin. apply (find_none _ _ Hf _ Hin).
      * intros Hall. destruct (find _ _) as [m|] eqn:Hf; [|reflexivity].
        apply find_some in Hf. destruct Hf as (Hin & Hk).
        rewrite (Hall m Hin) in Hk. discriminate.
    + split; [|reflexivity].
      intros before pref after m' E Hin Hp Hk.
      assert (Hpref : In pref TitleGenerator.preferences)
        by (rewrite E; apply in_or_app; right; now left).
      specialize (Hspec pref m' Hpref Hin Hp). congruence.
Qed.

(** X14 on a registry whose last model is a Haiku model of Anthropic. *)
Lemma findTitleModel_prefers_witness :
  exists m,
    TitleGenerator.findTitleModel three_models = Some m
    /\ TitleGenerator.id m = str "Claude-3-HAIKU".
Proof.
  destruct (proj1 (proj2 (proj2 (findTitleModel_prefers three_models)))
              [] {| TitleGenerator.pref_provider := str "anthropic";
                    TitleGenerator.pref_pattern := [str "haiku"] |}
              (tl TitleGenerator.preferences)
              {| TitleGenerator.provider := str "anthropic";
                 TitleGenerator.id := str "Claude-3-HAIKU" |}
              eq_refl (or_intror (or_intror (or_introl eq_refl))) eq_refl eq_refl)
    as (m & pref0 & Hm & _ & _).
  exists m. split; [exact Hm|].
  vm_compute in Hm. injection Hm as <-. reflexivity.
Defined.

Lemma drop_last_if_spec (p : N -> bool) (s : jstring) :
  drop_last_if_cases p s (TitleGenerator.drop_last_if p s).
Proof.
  unfold TitleGenerator.drop_last_if, drop_last_if_cases.
  destruct (rev s) as [|c r] eqn:E; [left; reflexivity|].
  destruct (p c) eqn:Hp; [|left; reflexivity].
  right. exists c. split; [|assumption].
  rewrite <- (rev_involutive s), E. reflexivity.
Qed.

Lemma findTitleModel_keyed (registry : TitleGenerator.ModelRegistry)
    (m : TitleGenerator.Model) :
  TitleGenerator.findTitleModel registry = Some m ->
  In m (TitleGenerator.getAll registry) /\ TitleGenerator.has_key registry m = true.
Proof.
  unfold TitleGenerator.findTitleModel.
  pose proof (by_preference_spec registry TitleGenerator.preferences) as Hspec.
  destruct (TitleGenerator.by_preference registry TitleGenerator.preferences) as [m0|].
  - destruct Hspec as (b0 & p0 & a0 & E0 & Hin0 & Hk0 & _). intros [= <-]. tauto.
  - intros Hm. apply find_some in Hm. tauto.
Qed.

Lemma strip_shape (title : jstring) :
  exists a b,
    title = a ++ TitleGenerator.strip_end_mark (TitleGenerator.strip_quotes title) ++ b
    /\ (length a <= 1)%nat /\ (length b <= 2)%nat
    /\ Forall (fun u => TitleGenerator.is_quote u = true) a
    /\ Forall (fun u => is_quote_or_mark u = true) b.
Proof.
  unfold TitleGenerator.strip_end_mark, TitleGenerator.strip_quotes.
  set (s1 := match title with
             | c :: r => if TitleGenerator.is_quote c then r else title
             | [] => title
             end).
  assert (H1 : exists a, title = a ++ s1 /\ (length a <= 1)%nat
                         /\ Forall (fun u => TitleGenerator.is_quote u = true) a).
  { subst s1. destruct title as [|c r]; [exists []; repeat split; auto|].
    destruct (TitleGenerator.is_quote c) eqn:Hq.
    - exists [c]. repeat split; auto.
    - exists []. repeat split; auto. }
  destruct H1 as (a & Ea & Hla & Hqa).
  set (s2 := TitleGenerator.drop_last_if TitleGenerator.is_quote s1).
  set (s3 := TitleGenerator.drop_last_if TitleGenerator.is_end_mark s2).
  pose proof (drop_last_if_spec TitleGenerator.is_quote s1) as H2. fold s2 in H2.
  pose proof (drop_last_if_spec TitleGenerator.is_end_mark s2) as H3. fold s3 in H3.
  assert (Hq : forall c, TitleGenerator.is_quote c = true -> is_quote_or_mark c = true)
    by (intros c Hc; unfold is_quote_or_mark; now rewrite Hc).
  assert (Hm : forall c, TitleGenerator.is_end_mark c = true -> is_quote_or_mark c = true)
    by (intros c Hc; unfold is_quote_or_mark; rewrite Hc; apply orb_true_r).
  exists a.
  destruct H2 as [E2 | (c2 & E2 & Hc2)]; destruct H3 as [E3 | (c3 & E3 & Hc3)].
  - exists []. rewrite app_nil_r, E3, E2. repeat split; auto.
  - exists [c3]. rewrite <- E3, E2. repeat split; auto.
  - exists [c2]. rewrite E3, <- E2. repeat split; auto.
  - exists [c3; c2]. rewrite Ea, E2, E3, <- !app_assoc. repeat split; auto.
Qed.

(** X15.  [generateSessionTitle] returns a title exactly when the registry
    has a model with a key, [completeSimple] answers for the model that
    [findTitleModel] picks, and the trimmed text of the answer has between
    1 and 60 code units; the second look at the key never fails.  The title
    is that text without at most one quote at its start and at most two
    code units, quotes or [.!?], at its end, so it has 60 code units at
    most.  The message sent is the first message when that has 2000 code
    units at most, else its first 2000 code units and three dots. *)
Theorem session_title_shape
    (completeSimple : TitleGenerator.Model -> jstring -> jstring
                      -> option (list TitleGenerator.Content))
    (firstMessage : jstring) (registry : TitleGenerator.ModelRegistry) :
  (forall t,
      TitleGenerator.generateSessionTitle completeSimple firstMessage registry = Some t
      <-> exists model key content,
          TitleGenerator.findTitleModel registry = Some model
          /\ TitleGenerator.getApiKey registry model = Some key
          /\ completeSimple model key (TitleGenerator.truncatedMessage firstMessage)
             = Some content
          /\ (1 <= length (TitleGenerator.trim
                             (concat (map TitleGenerator.text_of content))) <= 60)%nat
          /\ t = TitleGenerator.strip_end_mark
                   (TitleGenerator.strip_quotes
                      (TitleGenerator.trim
                         (concat (map TitleGenerator.text_of content)))))
  /\ (forall t,
         TitleGenerator.generateSessionTitle completeSimple firstMessage registry = Some t ->
         (length t <= 60)%nat)
  /\ (forall title,
         exists a b,
           title = a ++ TitleGenerator.strip_end_mark (TitleGenerator.strip_quotes title) ++ b
           /\ (length a <= 1)%nat /\ (length b <= 2)%nat
           /\ Forall (fun u => TitleGenerator.is_quote u = true) a
           /\ Forall (fun u => is_quote_or_mark u = true) b)
  /\ ((length firstMessage <= 2000)%nat ->
      TitleGenerator.truncatedMessage firstMessage = firstMessage)
  /\ ((2000 < length firstMessage)%nat ->
      TitleGenerator.truncatedMessage firstMessage
      = firstn 2000 firstMessage ++ str "...").
Proof.
  assert (Hiff : forall t,
      TitleGenerator.generateSessionTitle completeSimple firstMessage registry = Some t
      <-> exists model key content,
          TitleGenerator.findTitleModel registry = Some model
          /\ TitleGenerator.getApiKey registry model = Some key
          /\ completeSimple model key (TitleGenerator.truncatedMessage firstMessage)
             = Some content
          /\ (1 <= length (TitleGenerator.trim
                             (concat (map TitleGenerator.text_of content))) <= 60)%nat
          /\ t = TitleGenerator.strip_end_mark
                   (TitleGenerator.strip_quotes
                      (TitleGenerator.trim
                         (concat (map TitleGenerator.text_of content))))).
  { intros t. unfold TitleGenerator.generateSessionTitle.
    destruct (TitleGenerator.findTitleModel registry) as [model|] eqn:Hfind.
    - destruct (findTitleModel_keyed registry Hfind) as (_ & Hkey).
      unfold TitleGenerator.has_key in Hkey.
      destruct (TitleGenerator.getApiKey registry model) as [[|k key]|] eqn:Hk;
        try discriminate.
      destruct (completeSimple model (k :: key) _) as [content|] eqn:Hcs.
      + cbn zeta.
        set (title := TitleGenerator.trim (concat (map TitleGenerator.text_of content))).
        destruct (Z.eqb_spec (Z.of_nat (length title)) 0) as [H0|H0]; cbn [orb].
        * split; [discriminate|].
          intros (m' & k' & c' & Hm' & Hk' & Hc' & Hlen & _).
          injection Hm' as <-. rewrite Hk in Hk'. injection Hk' as <-.
          rewrite Hcs in Hc'. injection Hc' as <-. fold title in Hlen. lia.
        * destruct (Z.gtb_spec (Z.of_nat (length title)) 60) as [H60|H60].
          -- split; [discriminate|].
             intros (m' & k' & c' & Hm' & Hk' & Hc' & Hlen & _).
             injection Hm' as <-. rewrite Hk in Hk'. injection Hk' as <-.
             rewrite Hcs in Hc'. injection Hc' as <-. fold title in Hlen. lia.
          -- split.
             ++ intros [= <-]. exists model, (k :: key), content.
                fold title. repeat split; auto; lia.
             ++ intros (m' & k' & c' & Hm' & Hk' & Hc' & _ & ->).
                injection Hm' as <-. rewrite Hk in Hk'. injection Hk' as <-.
                rewrite Hcs in Hc'. injection Hc' as <-. reflexivity.
      + split; [discriminate|].
        intros (m' & k' & c' & Hm' & Hk' & Hc' & _).
        injection Hm' as <-. rewrite Hk in Hk'. injection Hk' as <-. congruence.
    - split; [discriminate|]. intros (m' & k' & c' & Hm & _). discriminate. }
  split; [exact Hiff|]. split; [|split; [exact strip_shape|split]].
  - intros t Ht. apply Hiff in Ht.
    destruct Ht as (model & key & content & _ & _ & _ & Hlen & ->).
    destruct (strip_shape (TitleGenerator.trim
                             (concat (map TitleGenerator.text_of content))))
      as (a & b & E & _).
    apply (f_equal (@length N)) in E. rewrite !length_app in E. lia.
  - intros Hlen. unfold TitleGenerator.truncatedMessage, TitleGenerator.MAX_INPUT_CHARS.
    destruct (Z.gtb_spec (Z.of_nat (length firstMessage)) 2000); [lia | reflexivity].
  - intros Hlen. unfold TitleGenerator.truncatedMessage, TitleGenerator.MAX_INPUT_CHARS.
    destruct (Z.gtb_spec (Z.of_nat (length firstMessage)) 2000); [|lia].
    f_equal. unfold slice. cbn [Z.ltb Z.compare].
    rewrite !Z.min_l by lia. cbn [Z.to_nat skipn Z.sub Z.opp Z.add].
    reflexivity.
Qed.

(** X15 on an answer in quotes with a full stop. *)
Lemma session_title_shape_witness :
  TitleGenerator.generateSessionTitle fixed_title (str "please fix the build") three_models
  = Some (str "Fix the build")
  /\ (length (str "Fix the build") <= 60)%nat.
Proof.
  split; [reflexivity|].
  exact (proj1 (proj2 (session_title_shape fixed_title (str "please fix the build")
                         three_models)) _ eq_refl).
Defined.

(** * The icon of the tool result *)

(** X16.  The header of the rendered result shows the error icon exactly
    for a result marked as an error.  It shows the success icon exactly for
    a result that is not marked so and whose details are present with an
    exit code of 0 or none, no timeout and no dismissal; a result without
    details is shown with the warning icon.  So the result of a run that
    timed out or was dismissed is shown as a warning, and the result of a
    failed spawn, whose exit code is null, as a success. *)
Theorem result_icon_cases (isError : option bool)
    (details : option RunInteractiveTermToolDetails) :
  (result_icon isError details = icon_error <-> isError = Some true)
  /\ (result_icon isError details = icon_success <->
      isError <> Some true
      /\ exists d, details = Some d
                   /\ (d_exitCode d = None \/ d_exitCode d = Some 0)
                   /\ d_timedOut d = false /\ d_dismissedByUser d = false)
  /\ (isError <> Some true -> details = None -> result_icon isError details = icon_warning)
  /\ (forall execution,
         details = Some (details_of execution) -> isError <> Some true ->
         timedOut execution = true \/ dismissedByUser execution = true ->
         result_icon isError details = icon_warning)
  /\ (forall msg,
         details = Some (details_of (spawn_failure msg)) -> isError <> Some true ->
         result_icon isError details = icon_success).
Proof.
  unfold result_icon, isWarning, nonZeroExit.
  split; [|split; [|split; [|split]]].
  - destruct isError as [[]|]; [tauto| |];
      (split; [|discriminate]);
      destruct details as [d|]; [destruct (d_exitCode d) as [c|]; [destruct (c =? 0)|]| |
                                 destruct (d_exitCode d) as [c|]; [destruct (c =? 0)|]|];
      cbn; try destruct (d_timedOut d); try destruct (d_dismissedByUser d); discriminate.
  - destruct isError as [[]|].
    + split; [discriminate | intros (H & _); congruence].
    + destruct details as [d|]; cbn.
      * destruct (d_exitCode d) as [c|] eqn:Hc.
        -- destruct (Z.eqb_spec c 0) as [->|Hne]; cbn;
             destruct (d_timedOut d) eqn:Ht; destruct (d_dismissedByUser d) eqn:Hd; cbn;
             split; try discriminate;
             try (intros (_ & d' & [= <-] & Hex & Ht' & Hd'); try congruence;
                  destruct Hex; congruence);
             intros _; (split; [discriminate|]); exists d; rewrite Hc, Ht, Hd; tauto.
        -- destruct (d_timedOut d) eqn:Ht; destruct (d_dismissedByUser d) eqn:Hd; cbn;
             split; try discriminate;
             try (intros (_ & d' & [= <-] & Hex & Ht' & Hd'); congruence);
             intros _; (split; [discriminate|]); exists d; rewrite Hc, Ht, Hd; tauto.
      * split; [discriminate | intros (_ & d' & Hd' & _); discriminate].
    + destruct details as [d|]; cbn.
      * destruct (d_exitCode d) as [c|] eqn:Hc.
        -- destruct (Z.eqb_spec c 0) as [->|Hne]; cbn;
             destruct (d_timedOut d) eqn:Ht; destruct (d_dismissedByUser d) eqn:Hd; cbn;
             split; try discriminate;
             try (intros (_ & d' & [= <-] & Hex & Ht' & Hd'); try congruence;
                  destruct Hex; congruence);
             intros _; (split; [discriminate|]); exists d; rewrite Hc, Ht, Hd; tauto.
        -- destruct (d_timedOut d) eqn:Ht; destruct (d_dismissedByUser d) eqn:Hd; cbn;
             split; try discriminate;
             try (intros (_ & d' & [= <-] & Hex & Ht' & Hd'); congruence);
             intros _; (split; [discriminate|]); exists d; rewrite Hc, Ht, Hd; tauto.
      * split; [discriminate | intros (_ & d' & Hd' & _); discriminate].
  - intros Herr ->. destruct isError as [[]|]; [congruence | reflexivity | reflexivity].
  - intros execution -> Herr Hflag. cbn [details_of d_exitCode d_timedOut d_dismissedByUser].
    destruct isError as [[]|]; [congruence| |];
      destruct (exitCode execution) as [c|]; try destruct (c =? 0); cbn;
      destruct (timedOut execution), (dismissedByUser execution); cbn;
      try reflexivity; destruct Hflag; discriminate.
  - intros msg -> Herr. destruct isError as [[]|]; [congruence | reflexivity | reflexivity].
Qed.

(** X16 on the details of a run that timed out. *)
Lemma result_icon_cases_witness :
  result_icon None
    (Some {| d_exitCode := None; d_timedOut := true; d_dismissedByUser := false;
             d_scrollbackTruncated := false |}) = icon_warning.
Proof.
  exact (proj1 (proj2 (proj2 (proj2 (result_icon_cases None _))))
           {| exitCode := None; scrollback := []; screenSnapshot := [];
              timedOut := true; dismissedByUser := false;
              scrollbackTruncated := false; abortedBySignal := false |}
           eq_refl ltac:(discriminate) (or_introl eq_refl)).
Defined.

(** * Line display mode *)

(** X17.  In the mode that [resolveFileDisplayMode] returns, hash lines
    imply line numbers.  Hash lines are on exactly when the edit tool is
    not reported missing and one of the three switches asks for them: the
    setting [readHashLines] is [true], the setting [edit.mode] or the
    variable [PI_EDIT_VARIANT] is ["hashline"].  Without the edit tool they
    are off whatever the switches say, and line numbers follow the setting
    [readLineNumbers] alone. *)
Theorem hash_lines_imply_line_numbers (PI_EDIT_VARIANT : option jstring)
    (session : FileDisplay.FileDisplayModeSession) :
  let mode := FileDisplay.resolveFileDisplayMode PI_EDIT_VARIANT session in
  (FileDisplay.hashLines mode = true -> FileDisplay.lineNumbers mode = true)
  /\ (FileDisplay.hashLines mode = true <->
      FileDisplay.hasEditTool session <> Some false
      /\ (FileDisplay.settings_get session FileDisplay.readHashLines = FileDisplay.JsTrue
          \/ FileDisplay.settings_get session FileDisplay.edit_mode
             = FileDisplay.JsString (str "hashline")
          \/ PI_EDIT_VARIANT = Some (str "hashline")))
  /\ (FileDisplay.hasEditTool session = Some false ->
      FileDisplay.hashLines mode = false
      /\ (FileDisplay.lineNumbers mode = true <->
          FileDisplay.settings_get session FileDisplay.readLineNumbers
          = FileDisplay.JsTrue))
  /\ (FileDisplay.lineNumbers mode = false ->
      FileDisplay.settings_get session FileDisplay.readLineNumbers <> FileDisplay.JsTrue).
Proof.
  intros mode. subst mode. unfold FileDisplay.resolveFileDisplayMode.
  cbn [FileDisplay.hashLines FileDisplay.lineNumbers].
  assert (Ht : forall v, FileDisplay.is_true v = true <-> v = FileDisplay.JsTrue)
    by (intros []; cbn; split; congruence).
  assert (Hh : forall v, FileDisplay.is_hashline v = true
                         <-> v = FileDisplay.JsString (str "hashline")).
  { intros []; cbn; try (split; congruence). rewrite text_eqb_eq.
    split; [intros ->; reflexivity | intros [= ->]; reflexivity]. }
  assert (He : (match PI_EDIT_VARIANT with
                | Some v => text_eqb v (str "hashline")
                | None => false
                end) = true <-> PI_EDIT_VARIANT = Some (str "hashline")).
  { destruct PI_EDIT_VARIANT as [v|]; [|split; discriminate]. rewrite text_eqb_eq.
    split; [intros ->; reflexivity | intros [= ->]; reflexivity]. }
  split; [|split; [|split]].
  - intros ->. reflexivity.
  - rewrite andb_true_iff, !orb_true_iff, Ht, Hh, He.
    destruct (FileDisplay.hasEditTool session) as [[]|]; intuition congruence.
  - intros ->. cbn [andb orb]. split; [reflexivity | apply Ht].
  - intros H. apply orb_false_iff in H. destruct H as (_ & H). rewrite <- Ht. congruence.
Qed.

(** X17 on a session without the edit tool whose settings ask for hash
    lines. *)
Lemma hash_lines_imply_line_numbers_witness :
  FileDisplay.hashLines
    (FileDisplay.resolveFileDisplayMode (Some (str "hashline"))
       {| FileDisplay.hasEditTool := Some false;
          FileDisplay.settings_get := fun _ => FileDisplay.JsTrue |}) = false.
Proof.
  exact (proj1 (proj1 (proj2 (proj2 (hash_lines_imply_line_numbers
                                       (Some (str "hashline"))
                                       {| FileDisplay.hasEditTool := Some false;
                                          FileDisplay.settings_get :=
                                            fun _ => FileDisplay.JsTrue |})))
                  eq_refl)).
Defined.

(** * The style key of a cell *)

(** A text is cut at the first occurrence of a separator in one way
    only. *)
Lemma first_sep_unique (sep : char) (a a' b b' : text) :
  ~ In sep a -> ~ In sep a' -> a ++ sep :: b = a' ++ sep :: b' -> a = a' /\ b = b'.
Proof.
  revert a'. induction a as [|x a IH]; intros [|y a'] Ha Ha' H; cbn in *.
  - inversion H. tauto.
  - inversion H. subst y. exfalso. apply Ha'. now left.
  - inversion H. subst x. exfalso. apply Ha. now left.
  - inversion H. subst y. destruct (IH a') as (-> & ->); try tauto.
Qed.

Lemma dec_no_colon (z : Z) : ~ In 58%N (dec z).
Proof.
  intros Hin. pose proof (dec_chars z) as Hc. rewrite Forall_forall in Hc.
  specialize (Hc _ Hin). unfold dec_char in Hc. lia.
Qed.

Lemma dec_colon_unique (a a' : Z) (b b' : text) :
  dec a ++ str ":" ++ b = dec a' ++ str ":" ++ b' -> a = a' /\ b = b'.
Proof.
  intros H. apply first_sep_unique in H; try apply dec_no_colon.
  destruct H as (H & Hb). apply dec_inj in H. tauto.
Qed.

Lemma flag_unique (a a' : bool) (b b' : text) :
  flag a ++ b = flag a' ++ b' -> a = a' /\ b = b'.
Proof. destruct a, a'; cbn; intros H; inversion H; tauto. Qed.

Lemma key_not_default (m : Z) (rest : text) : dec m ++ str ":" ++ rest <> KEY_DEFAULT.
Proof.
  intros H. pose proof (dec_chars m) as Hc.
  destruct (dec m) as [|c r]; cbn in H; [discriminate|].
  inversion Hc as [|? ? Hd _]. injection H as -> _. unfold dec_char in Hd. lia.
Qed.

(** X18.  The style key of a cell is ["d"] exactly for a cell with default
    attributes.  Two cells with the same key are both default, or agree in
    the colour modes, the colours and the six flags of the key (bold, dim,
    italic, underline, inverse, strikethrough).  If they also agree in
    blink and in the kinds of their colours, which the key leaves out, they
    have the same SGR sequence, so that leaving it out between them, as the
    renderer does, changes nothing. *)
Theorem style_key_tells_style (c1 c2 : Cell) :
  (cellStyleKey c1 = KEY_DEFAULT <-> isAttributeDefault c1 = true)
  /\ (cellStyleKey c1 = cellStyleKey c2 ->
      isAttributeDefault c1 = isAttributeDefault c2
      /\ (isAttributeDefault c1 = false ->
          getFgColorMode c1 = getFgColorMode c2
          /\ getFgColor c1 = getFgColor c2
          /\ getBgColorMode c1 = getBgColorMode c2
          /\ getBgColor c1 = getBgColor c2
          /\ isBold c1 = isBold c2 /\ isDim c1 = isDim c2
          /\ isItalic c1 = isItalic c2 /\ isUnderline c1 = isUnderline c2
          /\ isInverse c1 = isInverse c2
          /\ isStrikethrough c1 = isStrikethrough c2))
  /\ (cellStyleKey c1 = cellStyleKey c2 ->
      isBlink c1 = isBlink c2 ->
      isFgRGB c1 = isFgRGB c2 -> isFgPalette c1 = isFgPalette c2 ->
      isBgRGB c1 = isBgRGB c2 -> isBgPalette c1 = isBgPalette c2 ->
      cellSgr c1 = cellSgr c2).
Proof.
  assert (Hkey : cellStyleKey c1 = cellStyleKey c2 ->
      isAttributeDefault c1 = isAttributeDefault c2
      /\ (isAttributeDefault c1 = false ->
          getFgColorMode c1 = getFgColorMode c2
          /\ getFgColor c1 = getFgColor c2
          /\ getBgColorMode c1 = getBgColorMode c2
          /\ getBgColor c1 = getBgColor c2
          /\ isBold c1 = isBold c2 /\ isDim c1 = isDim c2
          /\ isItalic c1 = isItalic c2 /\ isUnderline c1 = isUnderline c2
          /\ isInverse c1 = isInverse c2
          /\ isStrikethrough c1 = isStrikethrough c2)).
  { unfold cellStyleKey.
    destruct (isAttributeDefault c1), (isAttributeDefault c2); intros H.
    - split; [reflexivity | discriminate].
    - symmetry in H. now apply key_not_default in H.
    - now apply key_not_default in H.
    - split; [reflexivity|]. intros _.
      apply dec_colon_unique in H. destruct H as (H1 & H).
      apply dec_colon_unique in H. destruct H as (H2 & H).
      apply dec_colon_unique in H. destruct H as (H3 & H).
      apply dec_colon_unique in H. destruct H as (H4 & H).
      apply flag_unique in H. destruct H as (F1 & H).
      apply flag_unique in H. destruct H as (F2 & H).
      apply flag_unique in H. destruct H as (F3 & H).
      apply flag_unique in H. destruct H as (F4 & H).
      apply flag_unique in H. destruct H as (F5 & H).
      rewrite <- (app_nil_r (flag (isStrikethrough c1))) in H.
      rewrite <- (app_nil_r (flag (isStrikethrough c2))) in H.
      apply flag_unique in H. destruct H as (F6 & _).
      tauto. }
  split; [|split; [exact Hkey|]].
  - unfold cellStyleKey. destruct (isAttributeDefault c1).
    + tauto.
    + split; [intros H; now apply key_not_default in H | discriminate].
  - intros H Hbl Hfr Hfp Hbr Hbp. destruct (Hkey H) as (Hd & Hrest).
    unfold cellSgr. rewrite <- Hd.
    destruct (isAttributeDefault c1); [reflexivity|].
    destruct (Hrest eq_refl) as (_ & Hf & _ & Hb & F1 & F2 & F3 & F4 & F5 & F6).
    now rewrite Hbl, Hfr, Hfp, Hbr, Hbp, Hf, Hb, F1, F2, F3, F4, F5, F6.
Qed.

(** X18 on two bold red cells that show different characters. *)
Lemma style_key_tells_style_witness :
  cellSgr (bold_red_cell "a" 1) = cellSgr (bold_red_cell "b" 1).
Proof.
  exact (proj2 (proj2 (style_key_tells_style (bold_red_cell "a" 1) (bold_red_cell "b" 1)))
           eq_refl eq_refl eq_refl eq_refl eq_refl eq_refl).
Defined.

(** * The frame of the overlay *)

Lemma for_range_nth (lo hi : Z) (k : nat) :
  (k < Z.to_nat (hi - lo))%nat -> nth_error (for_range lo hi) k = Some (lo + Z.of_nat k).
Proof.
  intros Hk. unfold for_range. rewrite nth_error_map.
  rewrite nth_error_seq. destruct (Nat.ltb_spec k (Z.to_nat (hi - lo))); [|lia].
  reflexivity.
Qed.

Section FrameFacts.

Context {B : Type} {emu : Emulator B} {cells : CellBuffer B}.
Context {theme : Theme} {fa : FloatArith}.

(** X19.  The frame that [render] returns has four lines around the
    content.  Its first line is the top border: the top left corner, the
    horizontal bar repeated over the inner width [max(18, width - 2)], the
    top right corner, each in the border colour; its second line is the
    boxed header; its last line but one is the boxed footer; its last line
    is the bottom border, made as the top one with the bottom corners.  It
    has at least 5 lines and at most [max(5, floor(0.8 * rows of the
    terminal))].  With an emulator of one row or more, the content is the
    first rows of the viewport, as many as fit, each rendered at the inner
    width and boxed; with an emulator without rows it is one boxed line of
    padding. *)
Theorem frame_fits (o : Overlay (B := B)) (width : Z) :
  let frame := render o width in
  let maxOverlayRows :=
    Z.max 5 (floor_mul (o_terminalRows o) (QArith_base.Qmake 8 10)) in
  let innerWidth := Z.max 18 (width - 2) in
  let border := theme_fg (str "border") (repeat_text box_horizontal innerWidth) in
  Z.of_nat (length frame) = 4 + Z.max 1 (contentRows o)
  /\ 5 <= Z.of_nat (length frame) <= maxOverlayRows
  /\ nth_error frame 0
     = Some (theme_fg (str "border") box_topLeft ++ border
             ++ theme_fg (str "border") box_topRight)
  /\ nth_error frame 1 = Some (boxLine (header o innerWidth) innerWidth)
  /\ nth_error frame (length frame - 2) = Some (boxLine (footer o innerWidth) innerWidth)
  /\ nth_error frame (length frame - 1)
     = Some (theme_fg (str "border") box_bottomLeft ++ border
             ++ theme_fg (str "border") box_bottomRight)
  /\ (1 <= em_rows (o_term o) ->
      Z.of_nat (length frame) = 4 + Z.min (maxOverlayRows - 4) (em_rows (o_term o))
      /\ forall k,
          0 <= k < Z.min (maxOverlayRows - 4) (em_rows (o_term o)) ->
          nth_error frame (Z.to_nat (2 + k))
          = Some (boxLine
                    (renderBufferLineAnsi
                       (em_cells (o_term o) (em_viewportY (o_term o) + k)) innerWidth)
                    innerWidth))
  /\ (em_rows (o_term o) <= 0 ->
      length frame = 5%nat
      /\ nth_error frame 2 = Some (boxLine (padding innerWidth) innerWidth)).
Proof.
  intros frame maxOverlayRows innerWidth border. subst frame border. unfold render.
  replace (Z.max 1 (Z.max 20 width - 2)) with innerWidth by (subst innerWidth; lia).
  set (rendered := map _ (for_range 0 (contentRows o))).
  assert (Hlen : length rendered = Z.to_nat (contentRows o)).
  { subst rendered. rewrite length_map, for_range_length. f_equal. lia. }
  set (content := match rendered with [] => [padding innerWidth] | _ => rendered end).
  assert (Hcontent : Z.of_nat (length content) = Z.max 1 (contentRows o)).
  { subst content. destruct rendered as [|l ls] eqn:E; cbn [length] in *; lia. }
  assert (Hrows : contentRows o <= maxOverlayRows - 4).
  { unfold contentRows. fold maxOverlayRows. subst maxOverlayRows. lia. }
  assert (Hmax : 5 <= maxOverlayRows) by (subst maxOverlayRows; lia).
  cbn [app length]. rewrite length_app, length_map. cbn [length].
  split; [lia|]. split; [lia|]. split; [reflexivity|]. split; [reflexivity|].
  split; [|split; [|split]].
  - replace (S (S (length content + 2)) - 2)%nat with (2 + length content)%nat by lia.
    cbn [nth_error plus]. rewrite nth_error_app2 by (rewrite length_map; lia).
    rewrite length_map, Nat.sub_diag. reflexivity.
  - replace (S (S (length content + 2)) - 1)%nat with (2 + (length content + 1))%nat by lia.
    cbn [nth_error plus]. rewrite nth_error_app2 by (rewrite length_map; lia).
    rewrite length_map.
    replace (length content + 1 - length content)%nat with 1%nat by lia.
    reflexivity.
  - intros Hem.
    assert (Hc : contentRows o = Z.min (maxOverlayRows - 4) (em_rows (o_term o))).
    { unfold contentRows. fold maxOverlayRows. lia. }
    rewrite <- Hc. split; [lia|]. intros k Hk.
    replace (Z.to_nat (2 + k)) with (S (S (Z.to_nat k))) by lia. cbn [nth_error].
    rewrite nth_error_app1 by (rewrite length_map; lia).
    rewrite nth_error_map.
    assert (Hne : content = rendered).
    { subst content. destruct rendered; [cbn in Hlen; lia | reflexivity]. }
    rewrite Hne. subst rendered. rewrite nth_error_map.
    rewrite for_range_nth by lia. cbn [option_map].
    do 4 f_equal. lia.
  - intros Hem.
    assert (Hc : contentRows o <= 0).
    { unfold contentRows. lia. }
    assert (Hnil : rendered = []).
    { destruct rendered; [reflexivity | cbn [length] in Hlen; lia]. }
    assert (Hpad : content = [padding innerWidth]).
    { subst content. now rewrite Hnil. }
    rewrite Hpad. split; reflexivity.
Qed.

End FrameFacts.

(** X19 on an overlay of two rows on a terminal of ten rows. *)
Lemma frame_fits_witness :
  let frame := render (cells := line_cells) (theme := plain_theme) (fa := exact_arith)
                 small_overlay 24 in
  length frame = 6%nat
  /\ nth_error frame 0 = Some (str "+----------------------+")
  /\ nth_error frame 3 = Some (str "|" ++ RESET ++ str "b.txt" ++ spaces 17 ++ RESET ++ str "|")
  /\ nth_error frame 5 = Some (str "+----------------------+").
Proof.
  intros frame.
  destruct (frame_fits (cells := line_cells) (theme := plain_theme) (fa := exact_arith)
              small_overlay 24) as (_ & _ & Htop & _ & _ & Hbottom & H & _).
  destruct (H ltac:(cbn; lia)) as (Hlen & Hrow).
  split; [apply Nat2Z.inj; exact Hlen|].
  split; [exact Htop|].
  split; [|exact Hbottom].
  exact (Hrow 1 ltac:(vm_compute; split; [discriminate | reflexivity])).
Defined.

(** * The two captures of a small buffer *)

Section SnapshotFacts.

Context {B : Type} {emu : Emulator B}.

(** X20.  For a buffer of one row or more, [getSnapshot] and
    [getScrollback] asked for the same number of rows return the same text.
    Asked for different numbers they still do when the buffer, history and
    viewport together, has no more rows than either number; so the final
    screen snapshot (200 rows) and the scrollback (2000 rows) of a buffer
    of 200 rows at most are the same text before truncation, and the
    scrollback is not marked as truncated. *)
Theorem snapshot_is_scrollback (b : B) (n : Z) :
  1 <= em_baseY b + em_rows b ->
  0 < n ->
  getSnapshot b n = fst (getScrollback b n)
  /\ (forall m, em_baseY b + em_rows b <= n -> em_baseY b + em_rows b <= m ->
        getSnapshot b n = fst (getScrollback b m)
        /\ snd (getScrollback b m) = false)
  /\ (em_baseY b + em_rows b <= SCREEN_SNAPSHOT_MAX_LINES ->
      getSnapshot b SCREEN_SNAPSHOT_MAX_LINES
      = fst (getScrollback b SCROLLBACK_MAX_LINES)).
Proof.
  intros Htotal Hn.
  assert (Hgen : forall n m, 0 < n ->
             Z.max 0 (em_baseY b + em_rows b - n) = Z.max 0 (em_baseY b + em_rows b - m) ->
             getSnapshot b n = fst (getScrollback b m)).
  { intros n' m Hn' Hstart. unfold getSnapshot.
    rewrite getPlainLines_lines by assumption. rewrite getScrollback_lines.
    do 3 f_equal. unfold snapshot_rows, scrollback_rows.
    replace (Z.max 0 (em_baseY b + em_rows b - 1)) with (em_baseY b + em_rows b - 1) by lia.
    replace (em_baseY b + em_rows b - 1 + 1) with (em_baseY b + em_rows b) by lia.
    replace (em_baseY b + em_rows b - 1 - n' + 1) with (em_baseY b + em_rows b - n') by lia.
    now rewrite Hstart. }
  split; [now apply Hgen|]. split.
  - intros m Hle Hm. split; [apply Hgen; [assumption | lia]|].
    unfold getScrollback. cbn [snd]. apply Z.ltb_ge. lia.
  - intros Hle. apply Hgen; [reflexivity|].
    unfold SCREEN_SNAPSHOT_MAX_LINES, SCROLLBACK_MAX_LINES in *. lia.
Qed.

End SnapshotFacts.

(** X20 on a buffer of three rows. *)
Lemma snapshot_is_scrollback_witness :
  getSnapshot (LineTerm.of_lines [str "a"; []; str "b"]) 200
  = fst (getScrollback (LineTerm.of_lines [str "a"; []; str "b"]) 2000).
Proof.
  assert (H1 : 1 <= em_baseY (LineTerm.of_lines [str "a"; []; str "b"])
                    + em_rows (LineTerm.of_lines [str "a"; []; str "b"]))
    by (vm_compute; discriminate).
  assert (H2 : em_baseY (LineTerm.of_lines [str "a"; []; str "b"])
               + em_rows (LineTerm.of_lines [str "a"; []; str "b"])
               <= SCREEN_SNAPSHOT_MAX_LINES)
    by (vm_compute; discriminate).
  assert (H3 : 0 < 200) by reflexivity.
  exact (proj2 (proj2 (snapshot_is_scrollback
                         (LineTerm.of_lines [str "a"; []; str "b"]) H1 H3)) H2).
Defined.

(** * What reaches the emulator *)

Section DeliveryFacts.

Context {B : Type} {emu : Emulator B} {host : Host}.

Ltac open_session s :=
  destruct s as [[dis tmo fin pty ds] [buf q st ec wired]
                 [onD onE tmr onA ab wr ki re ca di rs]].

Arguments finish : simpl never.
Arguments captured : simpl never.
Arguments flush_callback : simpl never.
Arguments initial_disposables : simpl never.

Lemma step_delivers (p : Params) (s : Session (B := B)) (ev : Event) :
  Inv p s -> v_finished (vars s) = false ->
  v_finished (vars (step s ev)) = false ->
  pending_buffer (step s ev) = fold_left em_feed (chunks_of [ev]) (pending_buffer s)
  /\ w_renders (world (step s ev))
     = (w_renders (world s) + if asks_render ev then 1 else 0)%nat.
Proof.
  intros HI Hf. destruct HI as (Hopen & _ & Htm & Hab & _).
  destruct (Hopen Hf) as (Hds & Hdi & _ & _ & HoD & HoE & _).
  revert Hf Hds Hdi HoD HoE Htm Hab. unfold pending_buffer.
  open_session s. cbn. intros -> -> -> -> -> Htm Hab.
  destruct ev as [chunk|code| | |data|]; cbn.
  - intros _. rewrite map_app, fold_left_app. cbn. split; [reflexivity | lia].
  - intros _. rewrite map_app, fold_left_app. cbn. rewrite em_feed_nil.
    split; [reflexivity | lia].
  - destruct tmr; cbn; [|intros _; split; [reflexivity | lia]].
    unfold onTimeout, killPty; cbn. destruct pty; cbn; intros _;
      (split; [reflexivity | lia]).
  - destruct ab as [[|]|]; cbn; try (intros _; split; [reflexivity | lia]).
    destruct onA; cbn; [|intros _; split; [reflexivity | lia]].
    unfold onAbort, killPty; cbn. destruct pty; cbn; intros _;
      (split; [reflexivity | lia]).
  - unfold handleInput, is_running, onDismiss, onInput, killPty; cbn.
    destruct st; cbn; try (intros _; split; [reflexivity | lia]).
    destruct (is_escape data), wired; cbn; try (intros _; split; [reflexivity | lia]).
    + destruct dis; cbn; [intros _; split; [reflexivity | lia]|].
      destruct pty; cbn; intros _; (split; [reflexivity | lia]).
    + destruct pty; cbn; intros _; (split; [reflexivity | lia]).
  - unfold parse_next; cbn. destruct q as [|[d [cb|]] q']; cbn;
      try (intros _; split; [reflexivity | lia]).
    rewrite flush_callback_eq. cbn.
    rewrite (finish_open (p := p)) by (cbn; auto). cbn. discriminate.
Qed.

Lemma step_frozen (p : Params) (s : Session (B := B)) (ev : Event) :
  Inv p s -> v_finished (vars s) = true ->
  pending_buffer (step s ev) = pending_buffer s
  /\ w_renders (world (step s ev)) = w_renders (world s).
Proof.
  intros HI Hf. destruct HI as (_ & Hclosed & _).
  destruct (Hclosed Hf) as (_ & _ & _ & _ & HoD & HoE & Htm & HoA & Hst).
  revert Hf HoD HoE Htm HoA Hst. unfold pending_buffer.
  open_session s. cbn. intros -> -> -> -> -> Hst.
  destruct ev as [chunk|code| | |data|]; cbn.
  - tauto.
  - tauto.
  - tauto.
  - destruct ab as [[|]|]; cbn; tauto.
  - unfold handleInput, is_running; cbn. destruct st; cbn; tauto.
  - unfold parse_next; cbn. destruct q as [|[d [cb|]] q']; cbn; tauto.
Qed.

Lemma run_frozen (p : Params) (tr : list Event) (s : Session (B := B)) :
  Inv p s -> v_finished (vars s) = true ->
  pending_buffer (run s tr) = pending_buffer s
  /\ w_renders (world (run s tr)) = w_renders (world s).
Proof.
  revert s. induction tr as [|ev tr IH]; intros s HI Hf; [tauto|].
  cbn [run fold_left]. destruct (step_frozen ev HI Hf) as (H1 & H2).
  destruct (IH (step s ev) (step_Inv ev HI) (step_finished s ev Hf)) as (H3 & H4).
  unfold run in *. rewrite H3, H4. tauto.
Qed.

(** X21.  After a successful spawn and until the session finishes, every
    chunk of output that the PTY delivers reaches the emulator, in the
    order of delivery and unchanged, also the chunks that arrive after the
    exit report: the buffer that results when the queued writes are parsed
    is the new terminal fed with all the chunks so far.  Up to then the
    host has been asked for one render per chunk and per exit report, and
    for no other.  Once the session has finished, no further event changes
    that buffer or asks for a render. *)
Theorem output_reaches_emulator (p : Params) (tr : list Event) :
  let s := run (setup p Spawned) tr in
  (v_finished (vars s) = false ->
     pending_buffer s = buffer_of p (chunks_of tr)
     /\ w_renders (world s) = length (filter asks_render tr))
  /\ (v_finished (vars s) = true ->
      forall tr',
        pending_buffer (run s tr') = pending_buffer s
        /\ w_renders (world (run s tr')) = w_renders (world s)).
Proof.
  intros s. split.
  - subst s. induction tr as [|ev tr IH] using rev_ind; [intros _; split; reflexivity|].
    rewrite run_app. cbn [run fold_left]. intros Hf.
    assert (Hf0 : v_finished (vars (run (setup p Spawned) tr)) = false).
    { destruct (v_finished (vars (run (setup p Spawned) tr))) eqn:E; [|reflexivity].
      rewrite (step_finished _ ev E) in Hf. discriminate. }
    destruct (IH Hf0) as (Hb & Hr).
    destruct (step_delivers ev (reachable_Inv p Spawned tr) Hf0 Hf) as (H1 & H2).
    rewrite H1, H2, Hb, Hr. unfold buffer_of.
    rewrite chunks_of_app, fold_left_app, filter_app, length_app.
    split; [reflexivity|]. cbn [filter]. destruct (asks_render ev); cbn; lia.
  - intros Hf tr'. apply (run_frozen tr' (reachable_Inv p Spawned tr) Hf).
Qed.

End DeliveryFacts.

(** X21 on a run where a chunk arrives after the exit report and before
    the emulator parses the flush. *)
Lemma output_reaches_emulator_witness :
  let s := demo Spawned [EvData (str "a"); EvExit (Some 0); EvData (str "b")] in
  pending_buffer s = buffer_of demo_params [str "a"; str "b"]
  /\ w_renders (world s) = 3%nat.
Proof.
  intros s.
  exact (proj1 (output_reaches_emulator (B := LineTerm.t) (host := plain_host) demo_params
                  [EvData (str "a"); EvExit (Some 0); EvData (str "b")]) eq_refl).
Defined.

(** * The visible text of a rendered row *)

Lemma strip_plain_app (a b : text) :
  ~ In ESC a -> strip_sgr false (a ++ b) = a ++ strip_sgr false b.
Proof.
  induction a as [|c a IH]; intros Ha; [reflexivity|]. cbn [app strip_sgr].
  destruct (N.eqb_spec c ESC) as [->|_]; [exfalso; apply Ha; now left|].
  rewrite IH; [reflexivity|]. intros Hin. apply Ha. now right.
Qed.

Lemma strip_inside (a b : text) :
  Forall code_char a -> strip_sgr true (a ++ 109%N :: b) = strip_sgr false b.
Proof.
  induction 1 as [|c a Hc Ha IH]; [reflexivity|]. cbn [app strip_sgr].
  destruct (N.eqb_spec c 109) as [->|_]; [|exact IH].
  unfold code_char, dec_char in Hc. lia.
Qed.

Lemma strip_RESET (b : text) : strip_sgr false (RESET ++ b) = strip_sgr false b.
Proof. reflexivity. Qed.

Lemma strip_cellSgr (c : Cell) (b : text) :
  strip_sgr false (cellSgr c ++ b) = strip_sgr false b.
Proof.
  unfold cellSgr. destruct (isAttributeDefault c); [apply strip_RESET|].
  cbn [app strip_sgr]. rewrite N.eqb_refl.
  change (str "[") with [91%N]. cbn [app strip_sgr negb N.eqb Pos.eqb].
  rewrite <- app_assoc. change (str "m" ++ b) with (109%N :: b).
  apply strip_inside. apply code_char_join.
  cbn [app]. constructor; [now apply code_char_str|].
  repeat (apply Forall_app; split); try (now apply code_if_chars).
  - now apply colour_codes.
  - now apply colour_codes.
Qed.

Lemma strip_pad_blank (prev rest : text) :
  strip_sgr false (pad_blank prev [] ++ rest) = str " " ++ strip_sgr false rest.
Proof.
  unfold pad_blank. destruct (text_eqb prev KEY_DEFAULT); reflexivity.
Qed.

Lemma strip_render_loop (line : option BufferLine) (width : Z) :
  (forall x c, getCell line x = Some c -> ~ In ESC (getChars c)) ->
  forall fuel x prev rest,
    strip_sgr false (render_loop fuel line width x prev [] ++ rest)
    = row_text fuel line width x ++ strip_sgr false rest.
Proof.
  intros Hc. induction fuel as [|fuel IH]; intros x prev rest; [reflexivity|].
  cbn [render_loop row_text].
  destruct (x <? width); [|reflexivity].
  destruct (getCell line x) as [cell|] eqn:E.
  - cbn zeta. destruct (getWidth cell <=? 0); [apply IH|].
    destruct (width <? x + getWidth cell).
    + rewrite render_loop_appends, <- !app_assoc, strip_pad_blank, IH.
      reflexivity.
    + rewrite render_loop_appends, <- !app_assoc.
      assert (Hchars : ~ In ESC (cell_chars cell (getWidth cell)))
        by (apply cell_chars_no_esc; eapply Hc; exact E).
      destruct (text_eqb (cellStyleKey cell) prev); cbn [app].
      * rewrite strip_plain_app by assumption. now rewrite IH.
      * rewrite strip_cellSgr, strip_plain_app by assumption. now rewrite IH.
  - rewrite render_loop_appends, <- !app_assoc, strip_pad_blank, IH. reflexivity.
Qed.

(** X22.  A rendered row shows the characters of the row and nothing
    else: with the SGR sequences taken out, the output of
    [renderBufferLineAnsi] is the text of the row, cell by cell, a space
    for a missing cell or for a wide cell that does not fit, provided that
    no cell holds an escape character itself.  What the renderer adds are
    complete SGR sequences only. *)
Theorem rendered_row_shows_row_text (line : option BufferLine) (width : Z) :
  (forall x c, getCell line x = Some c -> ~ In ESC (getChars c)) ->
  strip_sgr false (renderBufferLineAnsi line width)
  = row_text (Z.to_nat width) line width 0.
Proof.
  intros Hc. unfold renderBufferLineAnsi.
  rewrite render_loop_appends, <- app_assoc, strip_RESET.
  rewrite (strip_render_loop line width Hc). cbn [strip_sgr]. apply app_nil_r.
Qed.

(** X22 on a row of a plain cell and a bold red one. *)
Lemma rendered_row_shows_row_text_witness :
  strip_sgr false (renderBufferLineAnsi (Some [plain_cell "a"; bold_red_cell "b" 1]) 3)
  = str "ab ".
Proof.
  apply (rendered_row_shows_row_text (Some [plain_cell "a"; bold_red_cell "b" 1]) 3).
  intros x c Hx. unfold getCell in Hx. destruct (x <? 0); [discriminate|].
  destruct (Z.to_nat x) as [|[|[|n]]]; cbn in Hx; try discriminate;
    injection Hx as <-; cbn; intros [H|[]]; discriminate.
Defined.

(** * What makes the session signal the PTY *)

Section CauseFacts.

Context {B : Type} {emu : Emulator B} {host : Host}.

Ltac open_session s :=
  destruct s as [[dis tmo fin pty ds] [buf q st ec wired]
                 [onD onE tmr onA ab wr ki re ca di rs]].

Arguments finish : simpl never.
Arguments captured : simpl never.
Arguments flush_callback : simpl never.

Lemma step_cause (s : Session (B := B)) (ev : Event) :
  let s' := step s ev in
  (w_kills (world s') = w_kills (world s)
   \/ ev = EvTimer \/ ev = EvAbort \/ exists d, ev = EvInput d /\ is_escape d = true)
  /\ (v_timedOut (vars s') = v_timedOut (vars s)
      \/ (ev = EvTimer /\ v_pty (vars s') = false))
  /\ (v_dismissedByUser (vars s') = v_dismissedByUser (vars s)
      \/ ((exists d, ev = EvInput d /\ is_escape d = true) /\ v_pty (vars s') = false))
  /\ (v_pty (vars s) = false -> v_pty (vars s') = false).
Proof.
  open_session s. cbn.
  destruct ev as [chunk|code| | |data|]; cbn.
  - destruct onD; cbn; tauto.
  - destruct onE; cbn; tauto.
  - destruct tmr; cbn; [|tauto]. unfold onTimeout, killPty; cbn.
    destruct fin; cbn; [tauto|]. destruct pty; cbn; tauto.
  - destruct ab as [[|]|]; cbn; try tauto. destruct onA; cbn; [|tauto].
    unfold onAbort, killPty; cbn. destruct fin; cbn; [tauto|]. destruct pty; cbn; tauto.
  - unfold handleInput, is_running, onDismiss, onInput, killPty; cbn.
    destruct st; cbn; try tauto.
    destruct (is_escape data) eqn:Hesc, wired; cbn; try tauto.
    + destruct dis; cbn; [tauto|].
      assert (exists d, EvInput data = EvInput d /\ is_escape d = true)
        by (exists data; tauto).
      destruct pty; cbn; tauto.
    + destruct pty; cbn; tauto.
  - unfold parse_next; cbn. destruct q as [|[d [cb|]] q']; cbn; try tauto.
    rewrite flush_callback_eq. cbn. destruct fin; cbn; [tauto|].
    match goal with
    | |- context [finish ?r ?s0] =>
        destruct (finish_frame r s0) as (-> & -> & -> & _);
        destruct (finish_log r s0) as (_ & ->)
    end.
    cbn. tauto.
Qed.

Lemma step_wired (s : Session (B := B)) (ev : Event) :
  c_wired (comp (step s ev)) = c_wired (comp s).
Proof.
  open_session s. cbn.
  destruct ev as [chunk|code| | |data|]; cbn.
  - destruct onD; reflexivity.
  - destruct onE; reflexivity.
  - destruct tmr; cbn; [|reflexivity]. unfold onTimeout, killPty; cbn.
    destruct fin; cbn; [reflexivity|]. destruct pty; reflexivity.
  - destruct ab as [[|]|]; cbn; try reflexivity. destruct onA; cbn; [|reflexivity].
    unfold onAbort, killPty; cbn. destruct fin; cbn; [reflexivity|].
    destruct pty; reflexivity.
  - unfold handleInput, is_running, onDismiss, onInput, killPty; cbn.
    destruct st; cbn; try reflexivity.
    destruct (is_escape data), wired; cbn; try reflexivity;
      try (destruct dis; cbn; [reflexivity|]); destruct pty; reflexivity.
  - unfold parse_next; cbn. destruct q as [|[d [cb|]] q']; cbn; try reflexivity.
    rewrite flush_callback_eq. cbn. destruct fin; cbn; [reflexivity|].
    match goal with
    | |- context [finish ?r ?s0] =>
        destruct (finish_frame r s0) as (_ & _ & _ & ->)
    end.
    reflexivity.
Qed.

Lemma step_kills (s : Session (B := B)) (ev : Event) :
  let s' := step s ev in
  (w_kills (world s') = w_kills (world s) /\ v_pty (vars s') = v_pty (vars s))
  \/ (v_pty (vars s) = true /\ v_pty (vars s') = false
      /\ w_kills (world s') = w_kills (world s) ++ [SIGKILL]).
Proof.
  open_session s. cbn.
  destruct ev as [chunk|code| | |data|]; cbn.
  - destruct onD; cbn; tauto.
  - destruct onE; cbn; tauto.
  - destruct tmr; cbn; [|tauto]. unfold onTimeout, killPty; cbn.
    destruct fin; cbn; [tauto|]. destruct pty; cbn; tauto.
  - destruct ab as [[|]|]; cbn; try tauto. destruct onA; cbn; [|tauto].
    unfold onAbort, killPty; cbn. destruct fin; cbn; [tauto|]. destruct pty; cbn; tauto.
  - unfold handleInput, is_running, onDismiss, onInput, killPty; cbn.
    destruct st; cbn; try tauto.
    destruct (is_escape data) eqn:Hesc, wired; cbn; try tauto.
    + destruct dis; cbn; [tauto|]. destruct pty; cbn; tauto.
    + destruct pty; cbn; tauto.
  - unfold parse_next; cbn. destruct q as [|[d [cb|]] q']; cbn; try tauto.
    rewrite flush_callback_eq. cbn. destruct fin; cbn; [tauto|].
    match goal with
    | |- context [finish ?r ?s0] =>
        destruct (finish_frame r s0) as (_ & _ & -> & _);
        destruct (finish_log r s0) as (_ & ->)
    end.
    cbn. tauto.
Qed.

Section HostRuns.

Variable term_dispose : B -> list WriteItem -> B * list WriteItem * bool.

Lemma host_run_app (s : Session (B := B)) (a b : list HostEvent) :
  host_run term_dispose s (a ++ b) = host_run term_dispose (host_run term_dispose s a) b.
Proof. apply fold_left_app. Qed.

Lemma component_dispose_vars (s : Session (B := B)) :
  let s' := component_dispose term_dispose s in
  v_timedOut (vars s') = v_timedOut (vars s)
  /\ v_dismissedByUser (vars s') = v_dismissedByUser (vars s)
  /\ v_finished (vars s') = v_finished (vars s)
  /\ ((w_kills (world s') = w_kills (world s) /\ v_pty (vars s') = v_pty (vars s))
      \/ (v_pty (vars s) = true /\ v_pty (vars s') = false
          /\ w_kills (world s') = w_kills (world s) ++ [SIGKILL]
          /\ c_wired (comp s) = true
          /\ snd (term_dispose (c_buffer (comp s)) (c_queue (comp s))) = true))
  /\ (c_wired (comp s) = true ->
      snd (term_dispose (c_buffer (comp s)) (c_queue (comp s))) = true ->
      v_pty (vars s') = false).
Proof.
  open_session s. unfold component_dispose. cbn.
  destruct (term_dispose buf q) as [[b' q'] [|]]; cbn.
  - destruct wired; cbn; unfold onDispose, killPty; cbn.
    + destruct pty; cbn; tauto.
    + repeat split; auto; discriminate.
  - repeat split; auto; discriminate.
Qed.

Lemma host_step_cause (s : Session (B := B)) (ev : HostEvent) :
  let s' := host_step term_dispose s ev in
  (w_kills (world s') = w_kills (world s)
   \/ ev = Turn EvTimer \/ ev = Turn EvAbort
   \/ (exists d, ev = Turn (EvInput d) /\ is_escape d = true)
   \/ ev = Dispose)
  /\ (v_timedOut (vars s') = v_timedOut (vars s)
      \/ (ev = Turn EvTimer /\ v_pty (vars s') = false))
  /\ (v_dismissedByUser (vars s') = v_dismissedByUser (vars s)
      \/ ((exists d, ev = Turn (EvInput d) /\ is_escape d = true)
          /\ v_pty (vars s') = false))
  /\ (v_pty (vars s) = false -> v_pty (vars s') = false)
  /\ ((w_kills (world s') = w_kills (world s) /\ v_pty (vars s') = v_pty (vars s))
      \/ (v_pty (vars s) = true /\ v_pty (vars s') = false
          /\ w_kills (world s') = w_kills (world s) ++ [SIGKILL])).
Proof.
  destruct ev as [ev|]; cbn [host_step].
  - destruct (step_cause s ev) as (Hk & Ht & Hd & Hp). cbn zeta in *.
    pose proof (step_kills s ev) as Hs. cbn zeta in Hs.
    split; [|split; [|split; [|split]]]; auto.
    + destruct Hk as [Hk | [-> | [-> | (d & -> & Hesc)]]]; auto.
      right. right. right. left. exists d. tauto.
    + destruct Ht as [Ht | (-> & Hpty)]; auto.
    + destruct Hd as [Hd | ((d & -> & Hesc) & Hpty)]; auto.
      right. split; [exists d; tauto | assumption].
  - destruct (component_dispose_vars s) as (Ht & Hd & _ & Hk & _). cbn zeta in *.
    split; [tauto|]. split; [tauto|]. split; [tauto|]. split.
    + intros Hp. destruct Hk as [(_ & ->) | (Hp' & _)]; congruence.
    + tauto.
Qed.

(** X23.  The session signals the PTY for a reason only: if a signal has
    been sent, the timer has fired, the signal of the caller has aborted,
    the user has pressed the dismiss key, or the host has disposed of the
    component.  The PTY is signalled once at most, and with SIGKILL.  The
    variable [timedOut] is set only by the timer and [dismissedByUser] only
    by the dismiss key, and whenever one of them is set the session has
    given up its handle of the PTY.  Disposing of the component of a
    spawned session whose emulator lets itself be disposed of leaves the
    session without its handle of the PTY; done first, it sends SIGKILL
    with neither [timedOut] nor [dismissedByUser] set. *)
Theorem kill_has_a_cause (p : Params) (spawn : SpawnOutcome) (tr : list HostEvent) :
  let s := host_run term_dispose (setup p spawn) tr in
  (w_kills (world s) <> [] ->
     In (Turn EvTimer) tr \/ In (Turn EvAbort) tr
     \/ (exists d, In (Turn (EvInput d)) tr /\ is_escape d = true)
     \/ In Dispose tr)
  /\ (w_kills (world s) = [] \/ w_kills (world s) = [SIGKILL])
  /\ (v_timedOut (vars s) = true -> In (Turn EvTimer) tr /\ v_pty (vars s) = false)
  /\ (v_dismissedByUser (vars s) = true ->
      (exists d, In (Turn (EvInput d)) tr /\ is_escape d = true) /\ v_pty (vars s) = false)
  /\ (spawn = Spawned ->
      snd (term_dispose (c_buffer (comp s)) (c_queue (comp s))) = true ->
      let s' := host_step term_dispose s Dispose in
      v_pty (vars s') = false
      /\ (w_kills (world s) = [] -> v_pty (vars s) = true -> w_kills (world s') = [SIGKILL])
      /\ v_timedOut (vars s') = v_timedOut (vars s)
      /\ v_dismissedByUser (vars s') = v_dismissedByUser (vars s)
      /\ v_finished (vars s') = v_finished (vars s))
  /\ (spawn = Spawned ->
      snd (term_dispose (c_buffer (comp (setup p spawn))) (c_queue (comp (setup p spawn))))
      = true ->
      let s' := host_run term_dispose (setup p spawn) [Dispose] in
      w_kills (world s') = [SIGKILL]
      /\ v_timedOut (vars s') = false /\ v_dismissedByUser (vars s') = false).
Proof.
  intros s. subst s.
  assert (Hmain :
    let s := host_run term_dispose (setup p spawn) tr in
    (w_kills (world s) <> [] ->
       In (Turn EvTimer) tr \/ In (Turn EvAbort) tr
       \/ (exists d, In (Turn (EvInput d)) tr /\ is_escape d = true)
       \/ In Dispose tr)
    /\ ((v_pty (vars s) = true /\ w_kills (world s) = [])
        \/ (v_pty (vars s) = false
            /\ (w_kills (world s) = [] \/ w_kills (world s) = [SIGKILL])))
    /\ (v_timedOut (vars s) = true -> In (Turn EvTimer) tr /\ v_pty (vars s) = false)
    /\ (v_dismissedByUser (vars s) = true ->
        (exists d, In (Turn (EvInput d)) tr /\ is_escape d = true)
        /\ v_pty (vars s) = false)
    /\ (spawn = Spawned -> c_wired (comp s) = true)).
  { induction tr as [|ev tr IH] using rev_ind.
    - destruct spawn; unfold setup, finish; cbn.
      + split; [intros H; now contradiction H|]. split; [tauto|].
        split; [intros H; discriminate H|]. split; [intros H; discriminate H|].
        reflexivity.
      + split; [intros H; now contradiction H|]. split; [tauto|].
        split; [intros H; discriminate H|]. split; [intros H; discriminate H|].
        intros H; discriminate H.
    - rewrite host_run_app. cbn [host_run fold_left].
      fold (host_run term_dispose (setup p spawn) tr).
      destruct (host_step_cause (host_run term_dispose (setup p spawn) tr) ev)
        as (Hk & Ht & Hd & Hp & Hs).
      cbn zeta in *. destruct IH as (IHk & IHs & IHt & IHd & IHw).
      assert (Hin : forall e, In e tr -> In e (tr ++ [ev]))
        by (intros e He; apply in_or_app; now left).
      assert (Hlast : In ev (tr ++ [ev])) by (apply in_or_app; right; now left).
      split; [|split; [|split; [|split]]].
      + intros Hne. destruct Hk as [Hk | [-> | [-> | [(d & -> & Hesc) | ->]]]].
        * rewrite Hk in Hne.
          destruct (IHk Hne) as [H | [H | [(d & H & Hesc) | H]]];
            [left | right; left | right; right; left; exists d | right; right; right]; auto.
        * now left.
        * right. now left.
        * right. right. left. exists d. tauto.
        * right. right. now right.
      + destruct Hs as [(Hk' & Hp') | (Hp1 & Hp2 & Hk')].
        * rewrite Hk', Hp'. exact IHs.
        * right. split; [assumption|]. right.
          destruct IHs as [(_ & Hnil) | (Hfalse & _)]; [|congruence].
          rewrite Hk', Hnil. reflexivity.
      + intros Hto. destruct Ht as [Ht | (-> & Hpty)].
        * rewrite Ht in Hto. destruct (IHt Hto) as (H1 & H2). split; auto.
        * split; assumption.
      + intros Hdi. destruct Hd as [Hd | ((d & -> & Hesc) & Hpty)].
        * rewrite Hd in Hdi. destruct (IHd Hdi) as ((d & H1 & Hesc) & H2).
          split; [exists d; auto | auto].
        * split; [exists d; tauto | assumption].
      + intros Hsp. specialize (IHw Hsp).
        destruct ev as [ev|]; cbn [host_step].
        * now rewrite step_wired.
        * unfold component_dispose.
          destruct (term_dispose _ _) as [[b' q'] [|]]; cbn.
          -- rewrite IHw. unfold onDispose, killPty.
             destruct (v_pty _); cbn; exact IHw.
          -- exact IHw. }
  cbn zeta in Hmain. destruct Hmain as (Hk & Hs & Ht & Hd & Hw).
  split; [exact Hk|]. split; [tauto|]. split; [exact Ht|]. split; [exact Hd|]. split.
  - intros Hsp Hret. cbn [host_step].
    destruct (component_dispose_vars (host_run term_dispose (setup p spawn) tr))
      as (Ht' & Hd' & Hf' & Hk' & Hp').
    cbn zeta in *. split; [apply Hp'; auto|]. split; [|tauto].
    intros Hnil Hpty. destruct Hk' as [(_ & Hsame) | (_ & _ & Hk' & _)].
    + specialize (Hp' (Hw Hsp) Hret). congruence.
    + now rewrite Hk', Hnil.
  - intros -> Hret. cbn [host_run fold_left host_step].
    destruct (component_dispose_vars (setup p Spawned)) as (Ht' & Hd' & _ & Hk' & Hp').
    cbn zeta in *.
    assert (Hp0 : v_pty (vars (setup p Spawned)) = true) by reflexivity.
    assert (Hk0 : w_kills (world (setup p Spawned)) = []) by reflexivity.
    assert (Hw0 : c_wired (comp (setup p Spawned)) = true) by reflexivity.
    split; [|split].
    + destruct Hk' as [(_ & Hsame) | (_ & _ & Hk' & _)].
      * specialize (Hp' Hw0 Hret). congruence.
      * now rewrite Hk', Hk0.
    + now rewrite Ht'.
    + now rewrite Hd'.
Qed.

End HostRuns.

End CauseFacts.

(** X23 on a run where the timer fires and the host then disposes of the
    component, and on a run where the host disposes of it at once. *)
Lemma kill_has_a_cause_witness :
  let tr := [Turn (EvData (str "x")); Turn EvTimer; Dispose] in
  (In (Turn EvTimer) tr
   /\ v_pty (vars (host_run (host := plain_host) dropping_dispose
                     (setup demo_params Spawned) tr)) = false)
  /\ w_kills (world (host_run (host := plain_host) dropping_dispose
                       (setup demo_params Spawned) [Dispose])) = [SIGKILL].
Proof.
  pose proof (kill_has_a_cause (B := LineTerm.t) (host := plain_host) dropping_dispose
                demo_params Spawned
                [Turn (EvData (str "x")); Turn EvTimer; Dispose]) as H.
  cbn zeta in H. destruct H as (_ & _ & Ht & _ & _ & Hd).
  split; [exact (Ht eq_refl)|].
  exact (proj1 (Hd eq_refl eq_refl)).
Defined.
